(** * Area-property synchronisation and admin fan-out of WorkAdventure

    Shallow embedding of
    - [map-storage/src/Commands/Area/UpdateAreaMapStorageCommand.ts]
      (the command that pushes changed, resource-backed area properties to
      their external services before the local edit), and
    - the [/rooms] and [/global/event] handlers of [AdminController]
      (broadcast to every known room server),
    followed by the properties established about them. *)

From Stdlib Require Import ZArith Lia Ascii Decimal DecimalString DecimalNat.
From stdpp Require Import gmap strings list fin_maps.


(* ===================================================================== *)
(** ** JavaScript values held by untyped fields *)
(* ===================================================================== *)

Module Js.

(** The values an untyped slot ([serverData], a JSON leaf) may hold.  An
    object or array is kept as its serialisation: the command never looks
    inside one. *)
Inductive value : Type :=
| Null
| Bool (b : bool)
| Num (n : Z)
| Str (s : string)
| Obj (json : string).

#[global] Instance value_eq_dec : EqDecision value.
Proof. solve_decision. Defined.

(** [ToBoolean]: what [if (v)] and [!v] test. *)
Definition truthy (v : value) : bool :=
  match v with
  | Null => false
  | Bool b => b
  | Num n => negb (n =? 0)%Z
  | Str s => negb (String.eqb s "")
  | Obj _ => true
  end.

(** An optional field: [None] is [undefined]. *)
Definition truthy_opt (o : option value) : bool :=
  match o with
  | Some v => truthy v
  | None => false
  end.

(** An optional string ([ressourceUrl]): the empty string is falsy. *)
Definition truthy_str (o : option string) : bool :=
  match o with
  | Some s => negb (String.eqb s "")
  | None => false
  end.

End Js.

(* ===================================================================== *)
(** ** Data model: areas, properties, patch operations *)
(* ===================================================================== *)

(** [AreaDataProperty]: the fields the command reads or writes, and all the
    remaining ones ([type], labels, ...) kept together in [rest]. *)
Record AreaDataProperty : Type := mkProperty {
  prop_id : string;
  ressourceUrl : option string;
  serverData : option Js.value;
  rest : list (string * Js.value)
}.

#[global] Instance AreaDataProperty_eq_dec : EqDecision AreaDataProperty.
Proof. solve_decision. Defined.

(** [property.serverData = v] *)
Definition set_serverData (v : option Js.value) (p : AreaDataProperty)
  : AreaDataProperty :=
  {| prop_id := prop_id p; ressourceUrl := ressourceUrl p;
     serverData := v; rest := rest p |}.

(** [AtLeast<AreaData, "id">]: only [id] is mandatory, so [properties] may
    be [undefined]. *)
Record AreaData : Type := mkArea {
  area_id : string;
  properties : option (list AreaDataProperty);
  area_rest : list (string * Js.value)
}.

Definition set_properties (ps : option (list AreaDataProperty)) (a : AreaData)
  : AreaData :=
  {| area_id := area_id a; properties := ps; area_rest := area_rest a |}.

(** What [operation.value] or a resolved JSON pointer may be: nothing, an
    object read as an [AreaDataProperty], the [properties] array, or a leaf
    (a [Js.Obj] leaf is an object without [id], [ressourceUrl] and
    [serverData], such as a payload). *)
Inductive PatchValue : Type :=
| PVUndefined
| PVProperty (p : AreaDataProperty)
| PVArray (ps : list AreaDataProperty)
| PVJs (v : Js.value).

(** A fast-json-patch [Operation]. *)
Record Operation : Type := mkOp {
  op : string;
  path : string;
  value : PatchValue
}.

(** Errors that travel through promises and exceptions. *)
Inductive Error : Type :=
| TypeError (msg : string)
| HttpError (msg : string).

(* ===================================================================== *)
(** ** The two regular expressions of the command *)
(* ===================================================================== *)

Module Path.

(** [s.startsWith(p)], with the remainder. *)
Fixpoint strip_prefix (p s : string) : option string :=
  match p with
  | EmptyString => Some s
  | String a p' =>
      match s with
      | EmptyString => None
      | String b s' => if Ascii.eqb a b then strip_prefix p' s' else None
      end
  end.

(** [path.match(new RegExp("^/properties/*"))]: the star applies to the last
    slash only, so the test is "starts with /properties". *)
Definition match_properties (path : string) : bool :=
  match strip_prefix "/properties" path with
  | Some _ => true
  | None => false
  end.

(** [\d] *)
Definition is_digit (c : ascii) : bool :=
  (48 <=? nat_of_ascii c)%nat && (nat_of_ascii c <=? 57)%nat.

(** The greedy [\d+] group: the longest run of digits in front of [s]. *)
Fixpoint take_digits (s : string) : string :=
  match s with
  | EmptyString => EmptyString
  | String c s' => if is_digit c then String c (take_digits s') else EmptyString
  end.

(** [Number(digits)] for a run of decimal digits.  (IEEE doubles are exact
    below 2^53, far above any array length.) *)
Definition Number (digits : string) : nat :=
  match NilEmpty.uint_of_string digits with
  | Some u => Nat.of_uint u
  | None => 0
  end.

(** [path.match(/^\/properties\/(\d+)\/*/)] followed by
    [Number(match[1])]. *)
Definition match_property_index (path : string) : option nat :=
  match strip_prefix "/properties/" path with
  | Some r =>
      match take_digits r with
      | EmptyString => None
      | ds => Some (Number ds)
      end
  | None => None
  end.

(** The decimal spelling of an array index, as a pointer segment. *)
Definition of_index (i : nat) : string :=
  NilEmpty.string_of_uint (Nat.to_uint i).

(** ["/properties/" + i] *)
Definition property_pointer (i : nat) : string :=
  "/properties/" +:+ of_index i.

End Path.

(* ===================================================================== *)
(** ** fast-json-patch, as the command uses it *)
(* ===================================================================== *)

(** The two entry points of [import * as jsonpatch from "fast-json-patch"]
    that the command calls.  The library is not part of the sources; the
    command is embedded over any implementation of this interface. *)
Record FastJsonPatch : Type := mkJsonPatch {
  compare : AreaData -> AreaData -> list Operation;
  getValueByPointer : AreaData -> string -> Error + PatchValue
}.

Module AreaDiffEngine.

Definition operation_add (i : nat) (p : AreaDataProperty) : Operation :=
  {| op := "add"; path := Path.property_pointer i; value := PVProperty p |}.

Definition operation_remove (i : nat) : Operation :=
  {| op := "remove"; path := Path.property_pointer i; value := PVUndefined |}.

Definition operation_replace (i : nat) (p : AreaDataProperty) : Operation :=
  {| op := "replace"; path := Path.property_pointer i; value := PVProperty p |}.

(** What happens to the slot [i] of [previous] that holds [p]: nothing when
    [proposed] holds the same content there, a replace when it holds other
    content, a remove when [proposed] has no such slot. *)
Definition slot_ops (i : nat) (p : AreaDataProperty)
  (q : option AreaDataProperty) : list Operation :=
  match q with
  | Some q' => if decide (p = q') then [] else [operation_replace i q']
  | None => [operation_remove i]
  end.

(** The slots of [previous], from the last one down to slot [i]. *)
Fixpoint old_ops (i : nat) (previous proposed : list AreaDataProperty)
  : list Operation :=
  match previous with
  | [] => []
  | p :: previous' =>
      old_ops (S i) previous' (tail proposed) ++ slot_ops i p (head proposed)
  end.

(** The properties of [proposed] beyond the length of [previous]. *)
Fixpoint add_ops (i : nat) (extra : list AreaDataProperty) : list Operation :=
  match extra with
  | [] => []
  | q :: extra' => operation_add i q :: add_ops (S i) extra'
  end.

(** Modelled from the spec: [jsonpatch.compare] restricted to the
    [properties] collection (fast-json-patch is not under src/).  Section 4.1:
    a structural patch by position; an add introduces a property not
    previously present, a remove deletes one present before but absent after,
    a replace changes a property present at the same slot in both with
    differing content; the property counts may differ. *)
Definition diff (previous proposed : list AreaDataProperty) : list Operation :=
  old_ops 0 previous proposed
  ++ add_ops (length previous) (drop (length previous) proposed).

(** A pointer that is exactly ["/properties/<digits>"]. *)
Definition pointer_index (pointer : string) : option nat :=
  match Path.strip_prefix "/properties/" pointer with
  | Some r =>
      if String.eqb r "" then None
      else if String.eqb (Path.take_digits r) r then Some (Path.Number r)
      else None
  | None => None
  end.

(** Modelled from the spec: re-applying one reported op to a property list
    (RFC 6902 on an array: add inserts at the index, which may be the length;
    remove and replace need an existing index). *)
Definition applyOperation (doc : list AreaDataProperty) (o : Operation)
  : option (list AreaDataProperty) :=
  match pointer_index (path o) with
  | None => None
  | Some i =>
      if String.eqb (op o) "add" then
        match value o with
        | PVProperty p =>
            if (i <=? length doc)%nat then Some (take i doc ++ p :: drop i doc)
            else None
        | _ => None
        end
      else if String.eqb (op o) "remove" then
        if (i <? length doc)%nat then Some (delete i doc) else None
      else if String.eqb (op o) "replace" then
        match value o with
        | PVProperty p =>
            if (i <? length doc)%nat then Some (<[i:=p]> doc) else None
        | _ => None
        end
      else None
  end.

Fixpoint applyPatch (doc : list AreaDataProperty) (patch : list Operation)
  : option (list AreaDataProperty) :=
  match patch with
  | [] => Some doc
  | o :: patch' =>
      match applyOperation doc o with
      | Some doc' => applyPatch doc' patch'
      | None => None
      end
  end.

Definition properties_of (a : AreaData) : list AreaDataProperty :=
  match properties a with
  | Some ps => ps
  | None => []
  end.

(** Modelled from the spec: [jsonpatch.getValueByPointer] on the pointers
    that [diff] reports (the pre-removal property of [previous]); any other
    pointer resolves to [undefined]. *)
Definition resolve (doc : AreaData) (pointer : string) : Error + PatchValue :=
  match pointer_index pointer with
  | Some i =>
      match properties_of doc !! i with
      | Some p => inr (PVProperty p)
      | None => inr PVUndefined
      end
  | None => inr PVUndefined
  end.

Definition lib : FastJsonPatch :=
  {| compare := fun previous proposed =>
       diff (properties_of previous) (properties_of proposed);
     getValueByPointer := resolve |}.

End AreaDiffEngine.

(* ===================================================================== *)
(** ** p-limit *)
(* ===================================================================== *)

Module PLimit.

Section Limiter.

Context {A : Type}.

(** Modelled from the spec: the ConcurrencyLimiter ([p-limit] is not under
    src/).  A fixed-width semaphore: [running] are the calls in flight,
    [queue] the excess calls in submission order, released as running calls
    complete.  [admitted] instruments the order in which calls were let in. *)
Record t : Type := mk {
  concurrency : nat;
  running : list A;
  queue : list A;
  admitted : list A
}.

(** [pLimit(n)] *)
Definition pLimit (n : nat) : t :=
  {| concurrency := n; running := []; queue := []; admitted := [] |}.

(** [limit(fn)]: run now when a slot is free, queue otherwise. *)
Definition limit (x : A) (l : t) : t :=
  if (length (running l) <? concurrency l)%nat then
    {| concurrency := concurrency l; running := running l ++ [x];
       queue := queue l; admitted := admitted l ++ [x] |}
  else
    {| concurrency := concurrency l; running := running l;
       queue := queue l ++ [x]; admitted := admitted l |}.

(** The [k]-th call in flight settles: its slot goes to the head of the
    queue, if any. *)
Definition settle (k : nat) (l : t) : option (A * t) :=
  match running l !! k with
  | None => None
  | Some x =>
      match queue l with
      | [] =>
          Some (x, {| concurrency := concurrency l;
                      running := delete k (running l);
                      queue := []; admitted := admitted l |})
      | y :: q =>
          Some (x, {| concurrency := concurrency l;
                      running := delete k (running l) ++ [y];
                      queue := q; admitted := admitted l ++ [y] |})
      end
  end.

(** Never more calls in flight than the width, and a call waits only when
    every slot is taken. *)
Definition well_formed (l : t) : Prop :=
  length (running l) ≤ concurrency l
  ∧ (queue l ≠ [] → length (running l) = concurrency l).

(** The calls still to settle. *)
Definition pending (l : t) : nat := length (running l) + length (queue l).

(** The environment picks, among the calls in flight, the one that settles
    next; [drain] lists the calls in the order they settle, together with the
    limiter states passed through. *)
Fixpoint drain (fuel : nat) (picks : list nat) (l : t) : list (A * t) :=
  match fuel with
  | 0 => []
  | S fuel' =>
      match running l with
      | [] => []
      | _ :: _ =>
          match settle (hd 0 picks mod length (running l)) l with
          | Some (x, l') => (x, l') :: drain fuel' (tail picks) l'
          | None => []
          end
      end
  end.

(** What can happen to a limiter: a call is handed to it, or the [k]-th call
    in flight settles (nothing happens when there is no such call). *)
Inductive event : Type :=
| Submit (x : A)
| Settle (k : nat).

Definition step (l : t) (ev : event) : t :=
  match ev with
  | Submit x => limit x l
  | Settle k =>
      match settle k l with
      | Some (_, l') => l'
      | None => l
      end
  end.

Definition run (evs : list event) (l : t) : t := fold_left step evs l.

(** The calls handed over by [evs], in submission order. *)
Definition submitted (evs : list event) : list A :=
  omap (fun ev => match ev with Submit x => Some x | Settle _ => None end) evs.

End Limiter.

Arguments t : clear implicits.
Arguments event : clear implicits.

End PLimit.

(* ===================================================================== *)
(** ** UpdateAreaMapStorageCommand *)
(* ===================================================================== *)

Module UpdateAreaMapStorageCommand.

(** [const limit = pLimit(10);] *)
Definition limit_width : nat := 10.

(** [response.data] of a create call, by the two tests the command applies to
    it: [!response.data], then [AreaDataProperty.safeParse(response.data)]
    (the zod schema belongs to the map-editor package). *)
Inductive ResponseData : Type :=
| Falsy
| Invalid (raw : string)
| Valid (data : AreaDataProperty).

(** How an axios promise settles. *)
Inductive Settled : Type :=
| Fulfilled (data : ResponseData)
| Rejected (reason : Error).

(** The three outbound calls.  [Post] and [Delete] carry an object nobody
    writes to afterwards; [Patch] carries the property object that sits at
    [index] in [newConfig.properties], by reference. *)
Inductive Call : Type :=
| Post (url : string) (body : AreaDataProperty)
| Delete (url : string) (data : AreaDataProperty)
| Patch (url : string) (index : nat).

(** The fields of [this]: [gameMap.getGameMapAreas()] is the in-memory area
    index (area id to cached properties), or [undefined]. *)
Record Command : Type := mkCommand {
  gameMap : option (gmap string (list AreaDataProperty));
  oldConfig : AreaData;
  newConfig : AreaData;
  backAddress : string
}.

Definition set_newConfig (a : AreaData) (c : Command) : Command :=
  {| gameMap := gameMap c; oldConfig := oldConfig c; newConfig := a;
     backAddress := backAddress c |}.

(** The accumulator of [patch.reduce], with [this]. *)
Record Reduce : Type := mkReduce {
  this : Command;
  acc : list Call
}.

(** How one pass through the reducer's body goes on: fall through to the next
    [if], [return acc], or throw. *)
Inductive Flow : Type :=
| Fall (r : Reduce)
| Return (r : Reduce)
| Throw (e : Error) (r : Reduce).

Definition and_then (f : Flow) (k : Reduce -> Flow) : Flow :=
  match f with
  | Fall r => k r
  | Return r => Return r
  | Throw e r => Throw e r
  end.

(** A truthy [ressourceUrl]. *)
Definition nonempty (o : option string) : option string :=
  match o with
  | Some s => if String.eqb s "" then None else Some s
  | None => None
  end.

(** [l.find(f)] followed by a write [g] to the object found. *)
Fixpoint update_first (f : AreaDataProperty -> bool)
  (g : AreaDataProperty -> AreaDataProperty) (l : list AreaDataProperty)
  : list AreaDataProperty :=
  match l with
  | [] => []
  | x :: l' => if f x then g x :: l' else x :: update_first f g l'
  end.

Definition has_id (id : string) (p : AreaDataProperty) : bool :=
  String.eqb (prop_id p) id.

(** [gameMap.getGameMapAreas()?.getArea(oldConfig.id)
      ?.properties.find((p) => p.id === id)?.serverData] *)
Definition cached_serverData (c : Command) (id : string) : option Js.value :=
  areas ← gameMap c;
  cached ← areas !! area_id (oldConfig c);
  found ← List.find (has_id id) cached;
  serverData found.

Section WithJsonPatch.

Variable jsonpatch : FastJsonPatch.

(** [if (operation.op === "add" && ...) { ... }] *)
Definition add_branch (operation : Operation) (r : Reduce) : Flow :=
  if String.eqb (op operation) "add" && Path.match_properties (path operation)
  then
    match value operation with
    | PVUndefined | PVJs Js.Null =>
        Throw (TypeError "Cannot destructure property 'ressourceUrl'") r
    | PVArray _ | PVJs _ => Return r
    | PVProperty v =>
        match nonempty (ressourceUrl v) with
        | None => Return r
        | Some url =>
            let body :=
              if Js.truthy_opt (serverData v) then set_serverData None v
              else v in
            let cleared :=
              update_first (has_id (prop_id v)) (set_serverData None) <$>
                properties (newConfig (this r)) in
            Fall {| this :=
                      set_newConfig
                        (set_properties cleared (newConfig (this r))) (this r);
                    acc := acc r ++ [Post url body] |}
        end
    end
  else Fall r.

(** [if (operation.op === "remove" && ...) { ... }] *)
Definition remove_branch (operation : Operation) (r : Reduce) : Flow :=
  if String.eqb (op operation) "remove"
     && Path.match_properties (path operation)
  then
    match getValueByPointer jsonpatch (oldConfig (this r)) (path operation) with
    | inl e => Throw e r
    | inr PVUndefined => Return r
    | inr (PVJs v) => if Js.truthy v then Fall r else Return r
    | inr (PVArray _) => Fall r
    | inr (PVProperty v) =>
        match nonempty (ressourceUrl v) with
        | Some url =>
            Fall {| this := this r; acc := acc r ++ [Delete url v] |}
        | None => Fall r
        end
    end
  else Fall r.

(** [if (operation.op === "replace" && ...) { ... }] *)
Definition replace_branch (operation : Operation) (r : Reduce) : Flow :=
  if String.eqb (op operation) "replace"
     && Path.match_properties (path operation)
  then
    match Path.match_property_index (path operation) with
    | None => Return r
    | Some propertyIndex =>
        match properties (newConfig (this r)) with
        | None => Return r
        | Some props =>
            match props !! propertyIndex with
            | None =>
                Throw (TypeError "Cannot read properties of undefined") r
            | Some property =>
                let property' :=
                  set_serverData
                    (cached_serverData (this r) (prop_id property)) property in
                let this' :=
                  set_newConfig
                    (set_properties (Some (<[propertyIndex:=property']> props))
                       (newConfig (this r))) (this r) in
                match nonempty (ressourceUrl property') with
                | Some url =>
                    Fall {| this := this';
                            acc := acc r ++ [Patch url propertyIndex] |}
                | None => Fall {| this := this'; acc := acc r |}
                end
            end
        end
    end
  else Fall r.

(** The callback given to [patch.reduce]. *)
Definition reducer (r : Reduce) (operation : Operation) : Flow :=
  and_then (add_branch operation r) (fun r1 =>
  and_then (remove_branch operation r1) (fun r2 =>
  and_then (replace_branch operation r2) (fun r3 =>
  Return r3))).

(** [patch.reduce(..., [])]: an exception leaves the loop; what was scheduled
    and written before it stays. *)
Fixpoint reduce (patch : list Operation) (r : Reduce) : Error * Reduce + Reduce :=
  match patch with
  | [] => inr r
  | operation :: patch' =>
      match reducer r operation with
      | Fall r' | Return r' => reduce patch' r'
      | Throw e r' => inl (e, r')
      end
  end.

(** [this] and the local [shouldNotifyUpdate], as the callbacks see them. *)
Record Locals : Type := mkLocals {
  self : Command;
  shouldNotifyUpdate : bool
}.

(** The body of the create callback once [_axios.post] has resolved; [id]
    is the [id] destructured from [operation.value].  The flag is assigned
    [true] as soon as the body has passed [safeParse], and once more inside
    the [map] for a property that is replaced. *)
Definition post_callback (id : string) (response : ResponseData) (s : Locals)
  : Locals :=
  match response with
  | Falsy => s
  | Invalid _ => s
  | Valid data =>
      let kept (property : AreaDataProperty) : bool :=
        negb (String.eqb (prop_id property) id)
        || negb (Js.truthy_opt (serverData data)) in
      let props := properties (newConfig (self s)) in
      {| self :=
           set_newConfig
             (set_properties
                (map (fun property => if kept property then property else data)
                   <$> props)
                (newConfig (self s))) (self s);
         shouldNotifyUpdate := true |}
  end.

(** One promise settles.  Only a resolved create call runs code of the
    command. *)
Definition on_settled (ev : Call * Settled) (s : Locals) : Locals :=
  match ev with
  | (Post _ body, Fulfilled response) => post_callback (prop_id body) response s
  | _ => s
  end.

Definition run_callbacks (evs : list (Call * Settled)) (s : Locals) : Locals :=
  fold_left (fun s ev => on_settled ev s) evs s.

(** [await Promise.all(promises)]: the events up to the first rejection, its
    reason, and the events that settle after it. *)
Fixpoint first_rejection (evs : list (Call * Settled))
  : option (list (Call * Settled) * Error * list (Call * Settled)) :=
  match evs with
  | [] => None
  | (c, Rejected e) :: evs' => Some ([], e, evs')
  | ev :: evs' =>
      match first_rejection evs' with
      | Some (before, e, after) => Some (ev :: before, e, after)
      | None => None
      end
  end.

(** [ModifyAreaMessage.fromPartial({ id, properties, modifyProperties })] *)
Record ModifyAreaMessage : Type := mkModifyArea {
  msg_id : string;
  msg_properties : list AreaDataProperty;
  modifyProperties : bool
}.

(** [notifyAreaUpdate()]: the message, and the address it is dispatched to.
    What becomes of the dispatch is a [Dispatch]; the callback given with the
    message is [dispatch_callback]. *)
Definition notifyAreaUpdate (c : Command) : string * ModifyAreaMessage :=
  (backAddress c,
   {| msg_id := area_id (newConfig c);
      msg_properties := AreaDiffEngine.properties_of (newConfig c);
      modifyProperties := true |}).

(** What [notifyAreaUpdate] meets: [fromPartial], [new RoomManagerClient] or
    the call itself throws, or the call returns and the room server's answer
    reaches the callback with an [error] or without. *)
Inductive Dispatch : Type :=
| Throws (e : Error)
| Answered (error : option Error).

(** What the command gives to [console.error]:
    ["Failed to execute all request on ressourceUrl", e] in the [catch] of
    [execute], and ["error dans le dispatch"] in the callback of the
    dispatch. *)
Inductive Logged : Type :=
| FailedRequests (e : Error)
| DispatchError.

(** [(error) => { if (error) console.error("error dans le dispatch"); }] *)
Definition dispatch_callback (error : option Error) : list Logged :=
  match error with
  | Some _ => [DispatchError]
  | None => []
  end.

(** What the network does: how the [i]-th scheduled call settles, and which
    call in flight settles next. *)
Record Env : Type := mkEnv {
  outcome : nat -> Settled;
  picks : list nat
}.

(** The calls handed to [limit], in submission order, each with the way it
    will settle. *)
Definition submit_all (env : Env) (calls : list Call)
  : PLimit.t (Call * Settled) :=
  fold_left (fun l x => PLimit.limit x l)
    (imap (fun i c => (c, outcome env i)) calls) (PLimit.pLimit limit_width).

(** The settled calls, in the order they settle. *)
Definition settle_order (env : Env) (calls : list Call)
  : list (Call * Settled) :=
  fst <$> PLimit.drain (length calls) (picks env) (submit_all env calls).

(** What one run of [execute] does. *)
Record Run : Type := mkRun {
  (** the exception [execute] rejects with, if any *)
  rejected : option Error;
  (** the calls handed to the limiter *)
  scheduled : list Call;
  (** [console.error("Failed to execute all request on ressourceUrl", e)] *)
  console_error : list Error;
  (** [notifyAreaUpdate()] called: the message and the address of its
      dispatch *)
  notified : option (string * ModifyAreaMessage);
  (** the [newConfig] that [super.execute()] was reached with *)
  super_execute : option AreaData;
  (** [this] and [shouldNotifyUpdate] once every call has settled *)
  settled : Locals
}.

(** [public async execute(): Promise<void>].  [super.execute()] is
    [UpdateAreaCommand.execute] of the map-editor package, the local edit:
    the run records the configuration it is reached with. *)
Definition execute (c : Command) (env : Env) : Run :=
  let patch := compare jsonpatch (oldConfig c) (newConfig c) in
  match reduce patch {| this := c; acc := [] |} with
  | inl (e, r) =>
      {| rejected := Some e; scheduled := acc r; console_error := [];
         notified := None; super_execute := None;
         settled :=
           run_callbacks (settle_order env (acc r))
             {| self := this r; shouldNotifyUpdate := false |} |}
  | inr r =>
      let evs := settle_order env (acc r) in
      let s0 := {| self := this r; shouldNotifyUpdate := false |} in
      match first_rejection evs with
      | None =>
          let s := run_callbacks evs s0 in
          {| rejected := None; scheduled := acc r; console_error := [];
             notified :=
               if shouldNotifyUpdate s then Some (notifyAreaUpdate (self s))
               else None;
             super_execute := Some (newConfig (self s));
             settled := s |}
      | Some (before, e, after) =>
          let s := run_callbacks before s0 in
          {| rejected := None; scheduled := acc r; console_error := [e];
             notified := None;
             super_execute := Some (newConfig (self s));
             settled := run_callbacks after s |}
      end
  end.

End WithJsonPatch.

(** Everything a run gives to [console.error]: the reason that the [catch]
    got from [await Promise.all], and, when [notifyAreaUpdate] is called,
    what the dispatch adds: an exception thrown inside it is caught by the
    same [catch], an answer goes to the callback. *)
Definition console (dispatch : Dispatch) (run : Run) : list Logged :=
  (FailedRequests <$> console_error run)
  ++ match notified run with
     | Some _ =>
         match dispatch with
         | Throws e => [FailedRequests e]
         | Answered error => dispatch_callback error
         end
     | None => []
     end.

End UpdateAreaMapStorageCommand.

(* ===================================================================== *)
(** ** AdminController: the two broadcasts *)
(* ===================================================================== *)

Module AdminController.

(** The [ServiceError] a gRPC callback receives; a call that has not answered
    at [deadline: Date.now() + 1000] gets [DEADLINE_EXCEEDED]. *)
Inductive ServiceError : Type :=
| DEADLINE_EXCEEDED
| UNAVAILABLE
| STATUS (code : nat) (details : string).

Record RoomDescription : Type := mkRoom {
  roomId : string;
  nbUsers : Z
}.

Record RoomsList : Type := mkRoomsList {
  roomDescription : list RoomDescription
}.

(** One room server, by what its callbacks are invoked with. *)
Record RoomManagerClient : Type := mkClient {
  getRooms : ServiceError + RoomsList;
  dispatchGlobalEvent_rpc : string -> option Js.value -> ServiceError + unit
}.

(** An element of the array [Promise.allSettled] resolves to. *)
Inductive PromiseSettledResult (A : Type) : Type :=
| fulfilled (value : A)
| rejected (reason : ServiceError).

Arguments fulfilled {A} value.
Arguments rejected {A} reason.

(** [new Promise((resolve, reject) => ... error ? reject(error) : resolve(result))] *)
Definition promise_of {A : Type} (answer : ServiceError + A)
  : PromiseSettledResult A :=
  match answer with
  | inl error => rejected error
  | inr result => fulfilled result
  end.

(** What a handler did: it threw, it returned without sending, or it sent a
    body; [warned] are the reasons given to [console.warn], in order. *)
Inductive Handled (B : Type) : Type :=
| Threw (e : Error)
| Silent
| Sent (body : B) (warned : list ServiceError).

Arguments Threw {B} e.
Arguments Silent {B}.
Arguments Sent {B} body warned.

(** [for (const room of value.roomDescription) rooms[room.roomId] = room.nbUsers] *)
Definition record_rooms (rooms : gmap string Z) (l : RoomsList) : gmap string Z :=
  fold_left (fun rooms room => <[roomId room := nbUsers room]> rooms)
    (roomDescription l) rooms.

(** The loop over [roomsListsResult]: the [rooms] record and the warnings. *)
Definition aggregate (results : list (PromiseSettledResult RoomsList))
  : gmap string Z * list ServiceError :=
  fold_left
    (fun '(rooms, warned) roomsListResult =>
       match roomsListResult with
       | fulfilled value => (record_rooms rooms value, warned)
       | rejected reason => (rooms, warned ++ [reason])
       end)
    results (∅, []).

(** The [/rooms] handler; [getAllClients] is what
    [await apiClientRepository.getAllClients()] gives. *)
Definition getRoomsList (getAllClients : Error + list RoomManagerClient)
  : Handled (gmap string Z) :=
  match getAllClients with
  | inl e => Threw e
  | inr roomClients =>
      let promises := map (fun roomClient => promise_of (getRooms roomClient))
                        roomClients in
      let '(rooms, warned) := aggregate promises in
      Sent rooms warned
  end.

(** The loop over [results] of the [/global/event] handler. *)
Definition warnings_of (results : list (PromiseSettledResult unit))
  : list ServiceError :=
  fold_left
    (fun warned roomsListResult =>
       match roomsListResult with
       | rejected reason => warned ++ [reason]
       | fulfilled _ => warned
       end)
    results [].

(** The [/global/event] handler; [body] is the validated query, [None] when
    [validatePostQuery] returned [undefined]. *)
Definition dispatchGlobalEvent (body : option (string * option Js.value))
  (getAllClients : Error + list RoomManagerClient) : Handled string :=
  match body with
  | None => Silent
  | Some (name, data) =>
      match getAllClients with
      | inl e => Threw e
      | inr roomClients =>
          let promises :=
            map (fun roomClient =>
                   promise_of (dispatchGlobalEvent_rpc roomClient name data))
              roomClients in
          Sent "ok" (warnings_of promises)
      end
  end.

End AdminController.

(* ===================================================================== *)
(** ** Vocabulary of the statements *)
(* ===================================================================== *)

Module Broadcast.

Import AdminController.

(** The answers of the rooms that succeeded, in registry order. *)
Definition successes {A : Type} (answers : list (ServiceError + A)) : list A :=
  omap (fun a => match a with inr v => Some v | inl _ => None end) answers.

(** The reasons of the rooms that failed or exceeded the deadline. *)
Definition failures {A : Type} (answers : list (ServiceError + A))
  : list ServiceError :=
  omap (fun a => match a with inl e => Some e | inr _ => None end) answers.

(** The room answered with an error, or not within the deadline. *)
Definition failed {A : Type} (answer : ServiceError + A) : bool :=
  match answer with
  | inl _ => true
  | inr _ => false
  end.

(** Every room description reported by a room that succeeded, in the order
    the handler visits them. *)
Definition reported (roomClients : list RoomManagerClient)
  : list RoomDescription :=
  concat (roomDescription <$> successes (getRooms <$> roomClients)).

Definition reports (id : string) (l : list RoomDescription) : Prop :=
  id ∈ roomId <$> l.

End Broadcast.

Module Sync.

Import UpdateAreaMapStorageCommand.

(** What [execute] leaves alone in [this]: [oldConfig], the area index, the
    back address, and of [newConfig] everything but the content of the
    entries of [properties]. *)
Definition same_frame (c c' : Command) : Prop :=
  oldConfig c' = oldConfig c
  ∧ gameMap c' = gameMap c
  ∧ backAddress c' = backAddress c
  ∧ area_id (newConfig c') = area_id (newConfig c)
  ∧ area_rest (newConfig c') = area_rest (newConfig c)
  ∧ length <$> properties (newConfig c') = length <$> properties (newConfig c).

(** The create call of an add op: the body is [operation.value] without a
    truthy [serverData]. *)
Definition create_call (operation : Operation) (call : Call) : Prop :=
  ∃ v url,
    op operation = "add"
    ∧ value operation = PVProperty v
    ∧ nonempty (ressourceUrl v) = Some url
    ∧ call = Post url (if Js.truthy_opt (serverData v)
                        then set_serverData None v else v).

(** The body of a create response passes both tests of the callback. *)
Definition valid_response (s : Settled) : Prop :=
  ∃ data, s = Fulfilled (Valid data).

(** The tasks handed to the limiter. *)
Definition tasks (env : Env) (calls : list Call) : list (Call * Settled) :=
  imap (fun i c => (c, outcome env i)) calls.

(** The initial state of the reducer. *)
Definition start (c : Command) : Reduce := {| this := c; acc := [] |}.

(** The accumulator and [this] that one pass through the reducer leaves. *)
Definition after (f : Flow) : Reduce :=
  match f with
  | Fall r | Return r | Throw _ r => r
  end.

(** The same for the whole loop. *)
Definition reduced (x : Error * Reduce + Reduce) : Reduce :=
  match x with
  | inl (_, r) | inr r => r
  end.

(** The op that a scheduled call comes from. *)
Definition caused_by (operation : Operation) (call : Call) : Prop :=
  Path.match_properties (path operation) = true
  ∧ match call with
    | Post _ _ => create_call operation call
    | Delete url v =>
        op operation = "remove" ∧ nonempty (ressourceUrl v) = Some url
    | Patch url i =>
        op operation = "replace"
        ∧ Path.match_property_index (path operation) = Some i
    end.

(** The op passes the first regular expression of the command. *)
Definition targets_properties (operation : Operation) : bool :=
  Path.match_properties (path operation).


End Sync.

(* ===================================================================== *)
(** ** Scenarios *)
(* ===================================================================== *)

Module Scenario.

Import UpdateAreaMapStorageCommand.

(** A resource-backed property, as a caller proposes it. *)
Definition chat_room : AreaDataProperty :=
  {| prop_id := "p1";
     ressourceUrl := Some "https://resource.example/rooms";
     serverData := None;
     rest := [("type", Js.Str "matrixRoomPropertyData");
              ("displayName", Js.Str "lobby chat")] |}.

(** A property without resource. *)
Definition silent_zone : AreaDataProperty :=
  {| prop_id := "p0"; ressourceUrl := None; serverData := None;
     rest := [("type", Js.Str "silent")] |}.

Definition area (ps : list AreaDataProperty) : AreaData :=
  {| area_id := "area-1"; properties := Some ps;
     area_rest := [("name", Js.Str "lobby")] |}.

(** The edit that adds [chat_room] to an area that holds [silent_zone]. *)
Definition add_chat_room : Command :=
  {| gameMap := Some {[ "area-1" := [silent_zone] ]};
     oldConfig := area [silent_zone];
     newConfig := area [silent_zone; chat_room];
     backAddress := "back:50051" |}.

(** Every call is refused by the network. *)
Definition unreachable : Env :=
  {| outcome := fun _ => Rejected (HttpError "ECONNREFUSED"); picks := [] |}.

(** The resource answers with the property as it received it, without
    [serverData]. *)
Definition echo_without_serverData : Env :=
  {| outcome := fun _ => Fulfilled (Valid chat_room); picks := [] |}.

(** The resource answers with a property of its own making. *)
Definition rewritten : AreaDataProperty :=
  {| prop_id := "p1";
     ressourceUrl := Some "https://resource.example/rooms/42";
     serverData := Some (Js.Obj "{roomId:42}");
     rest := [("type", Js.Str "matrixRoomPropertyData");
              ("displayName", Js.Str "room 42")] |}.

Definition answers_rewritten : Env :=
  {| outcome := fun _ => Fulfilled (Valid rewritten); picks := [] |}.

(** The previous version of [chat_room], with the payload fetched when it
    was created. *)
Definition cached_chat_room : AreaDataProperty :=
  set_serverData (Some (Js.Obj "{roomId:7}")) chat_room.

(** [chat_room] with another label, as the caller sends it. *)
Definition relabelled : AreaDataProperty :=
  {| prop_id := "p1";
     ressourceUrl := Some "https://resource.example/rooms";
     serverData := None;
     rest := [("type", Js.Str "matrixRoomPropertyData");
              ("displayName", Js.Str "meeting chat")] |}.

(** The edit that changes the label; the area index lists the cached
    properties in another order than the configurations. *)
Definition relabel_chat_room : Command :=
  {| gameMap := Some {[ "area-1" := [cached_chat_room; silent_zone] ]};
     oldConfig := area [silent_zone; cached_chat_room];
     newConfig := area [silent_zone; relabelled];
     backAddress := "back:50051" |}.

(** Every call resolves with an empty body. *)
Definition answers_nothing : Env :=
  {| outcome := fun _ => Fulfilled Falsy; picks := [] |}.

(** A second resource-backed property. *)
Definition whiteboard : AreaDataProperty :=
  {| prop_id := "p2";
     ressourceUrl := Some "https://resource.example/boards";
     serverData := None;
     rest := [("type", Js.Str "whiteboard")] |}.

(** The edit that adds both. *)
Definition add_two : Command :=
  {| gameMap := Some {[ "area-1" := [] ]};
     oldConfig := area [];
     newConfig := area [chat_room; whiteboard];
     backAddress := "back:50051" |}.

(** The first call is refused; the second one settles after it, with a body
    that carries [serverData]. *)
Definition first_refused : Env :=
  {| outcome := fun i =>
       match i with
       | 0 => Rejected (HttpError "ECONNREFUSED")
       | _ => Fulfilled (Valid (set_serverData (Some (Js.Obj "{board:1}"))
                                  whiteboard))
       end;
     picks := [0; 0] |}.


End Scenario.

(* ===================================================================== *)
(** ** More vocabulary for the runs of the command *)
(* ===================================================================== *)

Module Effects.

Import UpdateAreaMapStorageCommand Sync.

(** Two versions of a property that differ in [serverData] at most. *)
Definition only_serverData_differs (p p' : AreaDataProperty) : Prop :=
  prop_id p' = prop_id p
  ∧ ressourceUrl p' = ressourceUrl p
  ∧ rest p' = rest p.

(** The same for two versions of [properties]. *)
Definition same_but_serverData
  (ps ps' : option (list AreaDataProperty)) : Prop :=
  option_Forall2 (Forall2 only_serverData_differs) ps ps'.

(** The call goes to the non-empty [ressourceUrl] of the object it carries;
    for an update call that object is the property at its index in
    [props]; a create body carries no truthy [serverData]. *)
Definition addressed (props : option (list AreaDataProperty)) (call : Call)
  : Prop :=
  match call with
  | Post url body =>
      nonempty (ressourceUrl body) = Some url
      ∧ Js.truthy_opt (serverData body) = false
  | Delete url v => nonempty (ressourceUrl v) = Some url
  | Patch url i =>
      ∃ p, props ≫= (fun l => l !! i) = Some p
           ∧ nonempty (ressourceUrl p) = Some url
  end.

(** Every scheduled call resolves. *)
Definition all_fulfilled (env : Env) (calls : list Call) : Prop :=
  ∀ i call, calls !! i = Some call → ∃ response, outcome env i = Fulfilled response.

(** What one pass through the reducer can do to the accumulator and to
    [this]: nothing, or what one of the three branches does when it reaches
    its end. *)
Inductive effect (jsonpatch : FastJsonPatch) (r : Reduce) (o : Operation)
  : Reduce -> Prop :=
| effect_none : effect jsonpatch r o r
| effect_create v url :
    op o = "add" ->
    Path.match_properties (path o) = true ->
    value o = PVProperty v ->
    nonempty (ressourceUrl v) = Some url ->
    effect jsonpatch r o
      {| this :=
           set_newConfig
             (set_properties
                (update_first (has_id (prop_id v)) (set_serverData None)
                   <$> properties (newConfig (this r)))
                (newConfig (this r))) (this r);
         acc := acc r ++ [Post url (if Js.truthy_opt (serverData v)
                                    then set_serverData None v else v)] |}
| effect_delete v url :
    op o = "remove" ->
    Path.match_properties (path o) = true ->
    getValueByPointer jsonpatch (oldConfig (this r)) (path o)
    = inr (PVProperty v) ->
    nonempty (ressourceUrl v) = Some url ->
    effect jsonpatch r o {| this := this r; acc := acc r ++ [Delete url v] |}
| effect_update i props p :
    op o = "replace" ->
    Path.match_property_index (path o) = Some i ->
    properties (newConfig (this r)) = Some props ->
    props !! i = Some p ->
    effect jsonpatch r o
      {| this :=
           set_newConfig
             (set_properties
                (Some (<[i:=set_serverData
                              (cached_serverData (this r) (prop_id p)) p]>
                         props))
                (newConfig (this r))) (this r);
         acc := acc r ++ match nonempty (ressourceUrl p) with
                         | Some url => [Patch url i]
                         | None => []
                         end |}.

(** The state of the reducer as a create call for [id] needs it: the
    properties are those of [props] but for [serverData], and once a create
    call for [id] is scheduled, the slot [i] carries no [serverData]. *)
Definition cleared_for (id : string) (i : nat) (props : list AreaDataProperty)
  (r : Reduce) : Prop :=
  ∃ props',
    properties (newConfig (this r)) = Some props'
    ∧ Forall2 only_serverData_differs props props'
    ∧ ((∃ url body, Post url body ∈ acc r ∧ prop_id body = id) →
       ∃ p, props' !! i = Some p ∧ serverData p = None).

(** A patch library whose diff reports one change of the area name and one
    replace op on a slot that does not exist. *)
Definition renaming_lib : FastJsonPatch :=
  {| compare := fun _ _ =>
       [ {| op := "replace"; path := "/name"; value := PVJs (Js.Str "hall") |} ];
     getValueByPointer := AreaDiffEngine.resolve |}.

Definition dangling_lib : FastJsonPatch :=
  {| compare := fun previous proposed =>
       compare AreaDiffEngine.lib previous proposed
       ++ [ {| op := "replace"; path := "/properties/7/displayName";
               value := PVJs (Js.Str "x") |} ];
     getValueByPointer := AreaDiffEngine.resolve |}.

(** The text does not begin with a decimal digit. *)
Definition starts_without_digit (s : string) : Prop :=
  match s with
  | EmptyString => True
  | String c _ => Path.is_digit c = false
  end.

End Effects.

(* ===================================================================== *)
(** ** AdminController: the other endpoints *)
(* ===================================================================== *)

Module AdminEndpoints.

Import AdminController.

(** What [await req.json()] gives. *)
#[local] Unset Elimination Schemes.
Inductive Json : Type :=
| JNull
| JBool (b : bool)
| JNum (n : Z)
| JStr (s : string)
| JArr (items : list Json)
| JObj (fields : list (string * Json)).
#[local] Set Elimination Schemes.

(** What a handler can throw or a promise reject with. *)
Inductive Thrown : Type :=
| JsError (message : string)
| JsTypeError (message : string)
| Grpc (e : ServiceError).

Fixpoint assoc (key : string) (fields : list (string * Json)) : option Json :=
  match fields with
  | [] => None
  | (k, v) :: fields' => if String.eqb k key then Some v else assoc key fields'
  end.

(** [body.key]: [undefined] on a missing key and on a primitive or an array,
    a [TypeError] on [null] (with the message of V8). *)
Definition get (key : string) (body : Json) : Thrown + option Json :=
  match body with
  | JNull =>
      inl (JsTypeError ("Cannot read properties of null (reading '"
                        +:+ key +:+ "')"))
  | JObj fields => inr (assoc key fields)
  | _ => inr None
  end.

(** [typeof v === "string"], with the string. *)
Definition as_string (v : option Json) : option string :=
  match v with
  | Some (JStr s) => Some s
  | _ => None
  end.

(** The requests that the endpoints send to a room server. *)
Inductive ChatMessage : Type :=
| joinMucRoomMessage (url name type : string) (subscribe : bool)
| leaveMucRoomMessage (url : string).

Record ChatMessagePrompt : Type := mkPrompt {
  prompt_roomId : string;
  prompt_message : option ChatMessage
}.

Inductive Rpc : Type :=
| sendRefreshRoomPrompt (roomId : string)
| sendAdminMessageToRoom (message : string) (roomId : Json) (type : string)
| sendWorldFullWarningToRoom (roomId : Json)
| sendChatMessagePrompt_rpc (prompt : ChatMessagePrompt).

(** A room client, by the [err] its callback gets for each request;
    [apiClientRepository.getClient], by what its promise settles with. *)
Definition RoomClient : Type := Rpc -> option ServiceError.
Definition Repository : Type := Json -> Thrown + RoomClient.

(** What a handler did: the requests that went out (for several targets
    they are listed target by target; the order in time is that in which the
    clients were obtained), and whether it sent a body or threw. *)
Inductive Reply : Type :=
| Replied (body : string)
| Failed (e : Thrown).

(** [getClient(roomId).then((roomClient) => new Promise(... rpc ...))]: the
    request sent, if the client was obtained, and how the promise settles. *)
Definition unicast (repository : Repository) (roomId : Json) (rpc : Rpc)
  : list Rpc * (Thrown + unit) :=
  match repository roomId with
  | inl e => ([], inl e)
  | inr roomClient =>
      match roomClient rpc with
      | Some err => ([rpc], inl (Grpc err))
      | None => ([rpc], inr ())
      end
  end.

(** The [/room/refresh] handler. *)
Definition receiveRoomEditionPrompt (repository : Repository) (body : Json)
  : list Rpc * Reply :=
  match get "roomId" body with
  | inl e => ([], Failed e)
  | inr v =>
      match as_string v with
      | None => ([], Failed (JsError "Incorrect roomId parameter"))
      | Some roomId =>
          match unicast repository (JStr roomId) (sendRefreshRoomPrompt roomId) with
          | (sent, inl e) => (sent, Failed e)
          | (sent, inr _) => (sent, Replied "ok")
          end
      end
  end.

(** The order in which promises that are all pending settle: the
    environment picks the next one among those still pending. *)
Fixpoint race {A : Type} (fuel : nat) (picks : list nat) (pending : list A)
  : list A :=
  match fuel with
  | 0 => []
  | S fuel' =>
      match pending with
      | [] => []
      | _ :: _ =>
          let k := hd 0 picks mod length pending in
          match pending !! k with
          | Some x => x :: race fuel' (tail picks) (delete k pending)
          | None => []
          end
      end
  end.

(** [await Promise.all(promises)]: the first rejection to happen, if any. *)
Definition promise_all (picks : list nat) (promises : list (Thrown + unit))
  : Thrown + unit :=
  match List.find (fun p => match p with inl _ => true | inr _ => false end)
          (race (length promises) picks promises) with
  | Some (inl e) => inl e
  | _ => inr ()
  end.

(** [!body.targets || typeof body.targets !== "object"] *)
Definition is_object (v : option Json) : bool :=
  match v with
  | Some (JArr _) | Some (JObj _) => true
  | _ => false
  end.

(** The [/message] handler. *)
Definition receiveGlobalMessagePrompt (repository : Repository)
  (picks : list nat) (body : Json) : list Rpc * Reply :=
  match get "text" body with
  | inl e => ([], Failed e)
  | inr text =>
      match as_string text with
      | None => ([], Failed (JsError "Incorrect text parameter"))
      | Some text =>
          match get "type" body with
          | inl e => ([], Failed e)
          | inr type =>
              match as_string type with
              | Some type =>
                  if String.eqb type "capacity" || String.eqb type "message"
                  then
                    match get "targets" body with
                    | inl e => ([], Failed e)
                    | inr targets =>
                        if is_object targets then
                          match targets with
                          | Some (JArr items) =>
                              let calls :=
                                map (fun roomId =>
                                       unicast repository roomId
                                         (if String.eqb type "message"
                                          then sendAdminMessageToRoom text
                                                 roomId ""
                                          else sendWorldFullWarningToRoom
                                                 roomId))
                                  items in
                              (concat (fst <$> calls),
                               match promise_all picks (snd <$> calls) with
                               | inl e => Failed e
                               | inr _ => Replied "ok"
                               end)
                          | _ =>
                              ([], Failed (JsTypeError
                                             "targets.map is not a function"))
                          end
                        else
                          ([], Failed (JsError "Incorrect targets parameter"))
                    end
                  else ([], Failed (JsError "Incorrect type parameter"))
              | None => ([], Failed (JsError "Incorrect type parameter"))
              end
          end
      end
  end.

Section ChatMessage.

(** The text of a gRPC error. *)
Variable message_of : ServiceError -> string.

(** ["" + err] *)
Definition to_string (e : Thrown) : string :=
  match e with
  | JsError message => "Error: " +:+ message
  | JsTypeError message => "TypeError: " +:+ message
  | Grpc err => "Error: " +:+ message_of err
  end.

(** The [try] block of the [/chat/message] handler. *)
Definition sendChatMessagePrompt_try (repository : Repository) (body : Json)
  : list Rpc * (Thrown + unit) :=
  match get "roomId" body, get "type" body, get "mucRoomUrl" body,
        get "mucRoomName" body, get "mucRoomType" body with
  | inr roomId, inr type, inr mucRoomUrl, inr mucRoomName, inr mucRoomType =>
      match as_string roomId with
      | None => ([], inl (JsError "Incorrect roomId parameter"))
      | Some roomId =>
          match as_string type with
          | None => ([], inl (JsError "Incorrect type parameter"))
          | Some type =>
              match as_string mucRoomUrl with
              | None => ([], inl (JsError "Incorrect mucRoomUrl parameter"))
              | Some mucRoomUrl =>
                  if String.eqb type "join" then
                    match as_string mucRoomName with
                    | None =>
                        ([], inl (JsError "Incorrect mucRoomName parameter"))
                    | Some mucRoomName =>
                        match as_string mucRoomType with
                        | None =>
                            ([], inl (JsError
                                        "Incorrect mucRoomType parameter"))
                        | Some mucRoomType =>
                            unicast repository (JStr roomId)
                              (sendChatMessagePrompt_rpc
                                 {| prompt_roomId := roomId;
                                    prompt_message :=
                                      Some (joinMucRoomMessage mucRoomUrl
                                              mucRoomName mucRoomType false) |})
                        end
                    end
                  else if String.eqb type "leave" then
                    unicast repository (JStr roomId)
                      (sendChatMessagePrompt_rpc
                         {| prompt_roomId := roomId;
                            prompt_message :=
                              Some (leaveMucRoomMessage mucRoomUrl) |})
                  else ([], inl (JsError "Incorrect type parameter value"))
              end
          end
      end
  | inl e, _, _, _, _ | _, inl e, _, _, _ | _, _, inl e, _, _
  | _, _, _, inl e, _ | _, _, _, _, inl e => ([], inl e)
  end.

(** The [/chat/message] handler: whatever the [try] block throws is thrown
    again, as text, behind a prefix. *)
Definition sendChatMessagePrompt (repository : Repository) (body : Json)
  : list Rpc * Reply :=
  match sendChatMessagePrompt_try repository body with
  | (sent, inl err) =>
      (sent, Failed (JsError ("sendChatMessagePrompt => error"
                              +:+ to_string err)))
  | (sent, inr _) => (sent, Replied "ok")
  end.

End ChatMessage.

Section Members.

(** The members that [adminService.getMembersOfWorld] returns. *)
Variable Member : Type.

(** The argument of a [res.status(code).json(...)]. *)
Inductive MembersBody : Type :=
| message (text : string)
| members (list_of : list Member).

Definition MAX_USER_TO_DISPLAY : Z := 200.

(** The [/worlds/:worldslug/members] handler, by the
    [res.status(code).json(body)] statements it runs, in order, each of them
    returning; [getMembersOfWorld] is what the awaited promise settles
    with. *)
Definition getMembersOfTheActualWorld
  (getMembersOfWorld : Thrown + list Member * Z)
  : Thrown + list (Z * MembersBody) :=
  match getMembersOfWorld with
  | inl e => inl e
  | inr (found, total) =>
      inr ((if (MAX_USER_TO_DISPLAY <? total)%Z
            then [(403%Z, message "Too many members search a member")]
            else [])
           ++ (if (total =? 0)%Z
               then [(204%Z, message "No members for this world")]
               else [])
           ++ [(202%Z, members found)])
  end.

End Members.

Arguments message {Member} text.
Arguments members {Member} list_of.

(** The request that [/message] sends to one target. *)
Definition message_rpc (type text : string) (roomId : Json) : Rpc :=
  if String.eqb type "message" then sendAdminMessageToRoom text roomId ""
  else sendWorldFullWarningToRoom roomId.

(** The two prompts of [/chat/message]. *)
Definition join_prompt (roomId url name type : string) : Rpc :=
  sendChatMessagePrompt_rpc
    {| prompt_roomId := roomId;
       prompt_message := Some (joinMucRoomMessage url name type false) |}.

Definition leave_prompt (roomId url : string) : Rpc :=
  sendChatMessagePrompt_rpc
    {| prompt_roomId := roomId;
       prompt_message := Some (leaveMucRoomMessage url) |}.

(** The target is served: its client is obtained and answers without
    error. *)
Definition served (repository : Repository) (roomId : Json) (rpc : Rpc) : Prop :=
  ∃ roomClient, repository roomId = inr roomClient ∧ roomClient rpc = None.

(** The target is not served, because of [cause]: its client cannot be
    obtained, or the room server answers the request with an error. *)
Definition not_served (repository : Repository) (roomId : Json) (rpc : Rpc)
  (cause : Thrown) : Prop :=
  repository roomId = inl cause
  ∨ ∃ roomClient err,
      repository roomId = inr roomClient
      ∧ roomClient rpc = Some err ∧ cause = Grpc err.

(** The field is there and holds a string. *)
Definition string_field (key : string) (body : Json) (s : string) : Prop :=
  get key body = inr (Some (JStr s)).

(** The field can be read and does not hold a string. *)
Definition no_string_field (key : string) (body : Json) : Prop :=
  ∃ v, get key body = inr v ∧ as_string v = None.

(** The body of a [/chat/message] request is refused, with [cause]: the
    first of the checks of the handler that fails, in their order. *)
Inductive body_refused (body : Json) : Thrown → Prop :=
| refused_null :
    body = JNull →
    body_refused body
      (JsTypeError "Cannot read properties of null (reading 'roomId')")
| refused_roomId :
    no_string_field "roomId" body →
    body_refused body (JsError "Incorrect roomId parameter")
| refused_type roomId :
    string_field "roomId" body roomId →
    no_string_field "type" body →
    body_refused body (JsError "Incorrect type parameter")
| refused_mucRoomUrl roomId type :
    string_field "roomId" body roomId →
    string_field "type" body type →
    no_string_field "mucRoomUrl" body →
    body_refused body (JsError "Incorrect mucRoomUrl parameter")
| refused_mucRoomName roomId url :
    string_field "roomId" body roomId →
    string_field "type" body "join" →
    string_field "mucRoomUrl" body url →
    no_string_field "mucRoomName" body →
    body_refused body (JsError "Incorrect mucRoomName parameter")
| refused_mucRoomType roomId url name :
    string_field "roomId" body roomId →
    string_field "type" body "join" →
    string_field "mucRoomUrl" body url →
    string_field "mucRoomName" body name →
    no_string_field "mucRoomType" body →
    body_refused body (JsError "Incorrect mucRoomType parameter")
| refused_type_value roomId type url :
    string_field "roomId" body roomId →
    string_field "type" body type →
    string_field "mucRoomUrl" body url →
    type ≠ "join" → type ≠ "leave" →
    body_refused body (JsError "Incorrect type parameter value").

(** The body of a [/chat/message] request is accepted, and [rpc] is the
    prompt for the room [roomId] that it asks for. *)
Definition prompt_for (body : Json) (roomId : string) (rpc : Rpc) : Prop :=
  ∃ url,
    string_field "roomId" body roomId
    ∧ string_field "mucRoomUrl" body url
    ∧ ((string_field "type" body "join"
        ∧ ∃ name mtype,
            string_field "mucRoomName" body name
            ∧ string_field "mucRoomType" body mtype
            ∧ rpc = join_prompt roomId url name mtype)
       ∨ (string_field "type" body "leave" ∧ rpc = leave_prompt roomId url)).

End AdminEndpoints.

(* ===================================================================== *)
(** ** MatrixChatRoom *)
(* ===================================================================== *)

Module MatrixChatRoom.

(** [a || null] for an optional string: the empty string is falsy. *)
Definition or_null (o : option string) : option string :=
  match o with
  | Some s => if String.eqb s "" then None else Some s
  | None => None
  end.

(** *** Typing members *)

(** [member.user] *)
Record User : Type := mkUser {
  userId : string;
  displayName : option string;
  avatarUrl : option string
}.

(** An element of [typingMembers]. *)
Record TypingMember : Type := mkTyping {
  tm_id : string;
  tm_name : option string;
  tm_avatarUrl : option string
}.

#[global] Instance TypingMember_eq_dec : EqDecision TypingMember.
Proof. solve_decision. Defined.

Section Typing.

(** [this.matrixRoom.client.getSafeUserId()] of a logged-in client, and
    [this.matrixRoom.client.mxcUrlToHttp(url, 48, 48)]. *)
Variable myUserID : string.
Variable mxcUrlToHttp : string -> option string.

(** [onMemberTyping(event, member)], on the content of [typingMembers];
    [user] is [member.user]. *)
Definition onMemberTyping (user : option User)
  (typingMembers : list TypingMember) : list TypingMember :=
  match user with
  | None => typingMembers
  | Some typingMember =>
      let id := userId typingMember in
      if String.eqb id "" || String.eqb id myUserID then typingMembers
      else if existsb (fun memberInformation =>
                         String.eqb (tm_id memberInformation) id)
                typingMembers
      then filter (fun member => tm_id member ≠ id) typingMembers
      else
        typingMembers
        ++ [ {| tm_id := id;
                tm_name := or_null (displayName typingMember);
                tm_avatarUrl :=
                  match or_null (avatarUrl typingMember) with
                  | Some url => mxcUrlToHttp url
                  | None => None
                  end |} ]
  end.

(** No member is listed twice, and neither the user nor a member without
    id is listed. *)
Definition typing_invariant (typingMembers : list TypingMember) : Prop :=
  NoDup (tm_id <$> typingMembers)
  ∧ (myUserID ∉ tm_id <$> typingMembers)
  ∧ ("" ∉ tm_id <$> typingMembers).

(** The store after some typing events, starting from [writable([])]. *)
Definition typing_after (users : list (option User)) : list TypingMember :=
  fold_left (fun typingMembers user => onMemberTyping user typingMembers)
    users [].

End Typing.

(** *** The type of a room *)

Record RoomMember : Type := mkMember {
  member_userId : string;
  member_dmInviter : option string
}.

(** What [getMatrixRoomType] reads of [this.matrixRoom]: [getDMInviter()],
    [getMembers()], and the content of the [m.direct] account data (user id
    to room ids), [undefined] when there is none. *)
Record MatrixRoom : Type := mkRoom {
  room_id : string;
  room_dmInviter : option string;
  room_members : list RoomMember;
  directRoomsPerUsers : option (gmap string (list string))
}.

Inductive RoomType : Type := direct | multiple.

(** [directRoomsPerUsers && directRoomsPerUsers[member.userId]?.includes(this.id)] *)
Definition listed_as_direct (room : MatrixRoom) (member : RoomMember) : bool :=
  match directRoomsPerUsers room with
  | Some content =>
      match content !! member_userId member with
      | Some rooms => existsb (String.eqb (room_id room)) rooms
      | None => false
      end
  | None => false
  end.

Definition getMatrixRoomType (room : MatrixRoom) : RoomType :=
  match or_null (room_dmInviter room) with
  | Some _ => direct
  | None =>
      if existsb (fun member => bool_decide (member_dmInviter member ≠ None))
           (room_members room)
      then direct
      else if (2 <? length (room_members room))%nat then multiple
      else if existsb (listed_as_direct room) (room_members room) then direct
      else multiple
  end.

(** *** Reactions *)

(** [event.getRelation()] and [content["m.relates_to"]]. *)
Record Relation : Type := mkRelation {
  rel_type : option string;
  rel_event_id : option string;
  rel_key : option string
}.

(** What the room reads of a [MatrixEvent]; the content is kept by its
    [m.relates_to] and the rest of it. *)
Record Content : Type := mkContent {
  relates_to : option Relation;
  other_content : string
}.

Record MatrixEvent : Type := mkEvent {
  getId : option string;
  getSender : option string;
  getRelation : option Relation;
  getContent : Content
}.

Section Reactions.

(** [MatrixChatMessageReaction] belongs to another file: the room only
    creates one from an event and tells it to add or remove a user. *)
Variable Reaction : Type.
Variable new_reaction : MatrixEvent -> Reaction.
Variable addUser : option string -> option string -> Reaction -> Reaction.
Variable removeUser : string -> Reaction -> Reaction.

(** [this.messageReactions] and [this.inMemoryEventsContent]. *)
Record Store : Type := mkStore {
  messageReactions : gmap string (gmap string Reaction);
  inMemoryEventsContent : gmap string Content
}.

(** [getReactionEvent(event)] *)
Definition getReactionEvent (event : MatrixEvent) : option (string * string) :=
  match getRelation event with
  | Some relation =>
      if bool_decide (rel_type relation = Some "m.annotation") then
        match rel_event_id relation, rel_key relation with
        | Some targetEventId, Some reactionKey =>
            Some (targetEventId, reactionKey)
        | _, _ => None
        end
      else None
  | None => None
  end.

(** [addEventContentInMemory(event)] *)
Definition addEventContentInMemory (event : MatrixEvent) (st : Store) : Store :=
  {| messageReactions := messageReactions st;
     inMemoryEventsContent :=
       <[default "" (getId event) := getContent event]>
         (inMemoryEventsContent st) |}.

(** [handleNewMessageReaction(event, this.messageReactions)] *)
Definition handleNewMessageReaction (event : MatrixEvent) (st : Store) : Store :=
  match getReactionEvent event with
  | None => st
  | Some (messageId, reactionKey) =>
      let st := addEventContentInMemory event st in
      match messageReactions st !! messageId with
      | Some existingMessageWithReactions =>
          match existingMessageWithReactions !! reactionKey with
          | Some existingMessageReaction =>
              {| messageReactions :=
                   <[messageId :=
                       <[reactionKey :=
                           addUser (getSender event) (getId event)
                             existingMessageReaction]>
                         existingMessageWithReactions]>
                     (messageReactions st);
                 inMemoryEventsContent := inMemoryEventsContent st |}
          | None =>
              {| messageReactions :=
                   <[messageId :=
                       <[reactionKey := new_reaction event]>
                         existingMessageWithReactions]>
                     (messageReactions st);
                 inMemoryEventsContent := inMemoryEventsContent st |}
          end
      | None =>
          {| messageReactions :=
               <[messageId := {[ reactionKey := new_reaction event ]}]>
                 (messageReactions st);
             inMemoryEventsContent := inMemoryEventsContent st |}
      end
  end.

(** [handleReactionDeletion(redactionEvent, reactionEventId)]: the store,
    and the message given to [console.error], if any. *)
Definition handleReactionDeletion (redactionEvent : MatrixEvent)
  (reactionEventId : string) (st : Store) : Store * option string :=
  match getSender redactionEvent with
  | None => (st, Some "Redaction sender is undefined")
  | Some sender =>
      match inMemoryEventsContent st !! reactionEventId with
      | None => (st, Some "No reaction event in memory to proceed deletion")
      | Some reactionEventContent =>
          match relates_to reactionEventContent with
          | None => (st, Some "The event has no relation content,")
          | Some relation =>
              match rel_key relation, rel_event_id relation with
              | Some reactionKey, Some reactionSourceMessageId =>
                  match messageReactions st !! reactionSourceMessageId with
                  | None => (st, Some "Unable to find the message reaction")
                  | Some messageReaction =>
                      match messageReaction !! reactionKey with
                      | None => (st, Some "Unable to find the chat reaction")
                      | Some chatReaction =>
                          ({| messageReactions :=
                                <[reactionSourceMessageId :=
                                    <[reactionKey :=
                                        removeUser sender chatReaction]>
                                      messageReaction]>
                                  (messageReactions st);
                              inMemoryEventsContent :=
                                delete reactionEventId
                                  (inMemoryEventsContent st) |},
                           None)
                      end
                  end
              | _, _ =>
                  (st, Some "Reaction (emoji) is undefined or event_id (message_id) is undefined")
              end
          end
      end
  end.

(** The reaction stored for a message and a key. *)
Definition reaction_at (st : Store) (messageId reactionKey : string)
  : option Reaction :=
  messageReactions st !! messageId ≫= fun reactions => reactions !! reactionKey.

End Reactions.

Arguments messageReactions {Reaction} _.
Arguments inMemoryEventsContent {Reaction} _.

End MatrixChatRoom.

(* ===================================================================== *)
(** ** MatrixChatRoom: sending files *)
(* ===================================================================== *)

Module SendFiles.

Import AdminEndpoints.

(** What [sendFile] reads of a [File]. *)
Record File : Type := mkFile {
  file_name : string;
  file_type : string;
  file_size : Z
}.

Inductive MsgType : Type := Image | Audio | Video | OtherFile.

(** [file.type.startsWith(p)], which is [file.type.indexOf(p) === 0]. *)
Definition starts_with (p s : string) : bool :=
  match Path.strip_prefix p s with
  | Some _ => true
  | None => false
  end.

Definition getMessageTypeFromFile (file : File) : MsgType :=
  if starts_with "image/" (file_type file) then Image
  else if starts_with "audio/" (file_type file) then Audio
  else if starts_with "video/" (file_type file) then Video
  else OtherFile.

(** The content that [sendFile] builds; [in_reply_to] is the event id under
    [m.relates_to], if any. *)
Record MediaContent : Type := mkMedia {
  body : string;
  formatted_body : string;
  info_size : Z;
  msgtype : MsgType;
  url : string;
  in_reply_to : option string
}.

Section WithClient.

(** [client.uploadContent(file)] (its [content_uri]) and
    [client.sendMessage(roomId, content)], by how their promises settle;
    [selected file] is [get(selectedChatMessageToReply)?.id] when the upload
    of [file] is over. *)
Variable uploadContent : File -> Thrown + string.
Variable sendMessage : MediaContent -> Thrown + unit.
Variable selected : File -> option string.

(** What one [sendFile] does: what it gives to [console.error], the message
    it hands to the client, and how its promise settles.  The promise of
    [sendMessage] is returned from inside the [try] without being awaited,
    so its rejection is not caught there. *)
Definition sendFile (file : File)
  : list Thrown * list MediaContent * (Thrown + unit) :=
  match uploadContent file with
  | inl error => ([error], [], inr ())
  | inr content_uri =>
      let content :=
        {| body := file_name file; formatted_body := file_name file;
           info_size := file_size file;
           msgtype := getMessageTypeFromFile file;
           url := content_uri; in_reply_to := selected file |} in
      ([], [content], sendMessage content)
  end.

(** [sendFiles(files)]: [Promise.allSettled] never rejects, so the [catch]
    is never entered and the promise of [sendFiles] resolves.  The result is
    what was logged, what was handed to the client (both listed file by
    file; the order in time is that in which the uploads ended), and how the
    promises of the files settled. *)
Definition sendFiles (files : list File)
  : list Thrown * list MediaContent * list (Thrown + unit) :=
  let results := map sendFile files in
  (concat ((fun r => r.1.1) <$> results),
   concat ((fun r => r.1.2) <$> results),
   (fun r => r.2) <$> results).

(** The message built for an uploaded file. *)
Definition content_of (file : File) (content_uri : string) : MediaContent :=
  {| body := file_name file; formatted_body := file_name file;
     info_size := file_size file; msgtype := getMessageTypeFromFile file;
     url := content_uri; in_reply_to := selected file |}.

(** The reason of a failed upload, and the message of a successful one. *)
Definition upload_failure (file : File) : option Thrown :=
  match uploadContent file with
  | inl error => Some error
  | inr _ => None
  end.

Definition uploaded (file : File) : option MediaContent :=
  match uploadContent file with
  | inl _ => None
  | inr content_uri => Some (content_of file content_uri)
  end.

End WithClient.

End SendFiles.

(* ===================================================================== *)
(** ** MessageInputBar *)
(* ===================================================================== *)

Module MessageInputBar.

(** [message.replace(/<br>/g, "\n")]: left to right, each [<br>] found
    becomes a line feed and the scan goes on behind it. *)
Fixpoint replace_br (message : string) : string :=
  match message with
  | EmptyString => EmptyString
  | String c1 s1 =>
      match s1 with
      | String c2 (String c3 (String c4 rest)) =>
          if Ascii.eqb c1 "<" && Ascii.eqb c2 "b" && Ascii.eqb c3 "r"
             && Ascii.eqb c4 ">"
          then String "010" (replace_br rest)
          else String c1 (replace_br s1)
      | _ => String c1 (replace_br s1)
      end
  end.

Section Sending.

(** [message.trim().length === 0] *)
Variable blank : string -> bool.

(** [sendMessageOrEscapeLine(keyDownEvent)]: the text given to
    [sendMessage], if any. *)
Definition sendMessageOrEscapeLine (key : string) (shiftKey : bool)
  (message : string) : option string :=
  if String.eqb key "Enter" && shiftKey then None
  else if String.eqb key "Enter" && negb (blank message)
  then Some (replace_br message)
  else None.

(** The send button, [disabled] on a blank message:
    [on:click={() => sendMessage(message)}]. *)
Definition send_button (message : string) : option string :=
  if blank message then None else Some message.

End Sending.

(** The text holds the tag [<br>] somewhere. *)
Definition has_br (s : string) : Prop :=
  ∃ before after, s = before +:+ "<br>" +:+ after.

End MessageInputBar.

(* ===================================================================== *)
(** ** ScreenSharingStore *)
(* ===================================================================== *)

Module ScreenSharingStore.

(** [{ video, audio }], both booleans here. *)
Record Constraints : Type := mkConstraints {
  video : bool;
  audio : bool
}.

#[global] Instance Constraints_eq_dec : EqDecision Constraints.
Proof. solve_decision. Defined.

(** The stores that [screenSharingConstraintsStore] derives from and
    reads ([myCameraStore] and [myMicrophoneStore] only trigger it). *)
Record Inputs : Type := mkInputs {
  requestedScreenSharingState : bool;
  inExternalServiceStore : bool;
  peerStore_size : nat
}.

(** [currentVideoConstraint] and [currentAudioConstraint] after the three
    [if]s. *)
Definition current (i : Inputs) : Constraints :=
  let c := {| video := true; audio := false |} in
  let c := if negb (requestedScreenSharingState i)
           then {| video := false; audio := false |} else c in
  let c := if inExternalServiceStore i
           then {| video := false; audio := false |} else c in
  let c := if (peerStore_size i =? 0)%nat
           then {| video := false; audio := false |} else c in
  c.

(** The state around the callback: the module variables
    [previousComputedVideoConstraint] and [previousComputedAudioConstraint],
    and the value of the store. *)
Record State : Type := mkState {
  previousComputed : Constraints;
  store : Constraints
}.

Definition initial : State :=
  {| previousComputed := {| video := false; audio := false |};
     store := {| video := false; audio := false |} |}.

(** One run of the callback of [screenSharingConstraintsStore]: the new
    state, and the value given to [set], if any. *)
Definition on_inputs (st : State) (i : Inputs) : State * option Constraints :=
  let c := current i in
  if negb (Bool.eqb (video (previousComputed st)) (video c))
     || negb (Bool.eqb (audio (previousComputed st)) (audio c))
  then ({| previousComputed := c; store := c |}, Some c)
  else (st, None).

(** The state and the values given to [set] after a series of runs. *)
Fixpoint run (st : State) (inputs : list Inputs) : State * list Constraints :=
  match inputs with
  | [] => (st, [])
  | i :: inputs' =>
      let '(st', emitted) := on_inputs st i in
      let '(st'', later) := run st' inputs' in
      (st'', match emitted with Some c => c :: later | None => later end)
  end.

(** Between two runs the module variables and the store agree, and no audio
    is asked for. *)
Definition settled_state (st : State) : Prop :=
  previousComputed st = store st ∧ audio (store st) = false.

(** What the browser offers: [window.WAD?.getDesktopCapturerSources],
    [navigator.getDisplayMedia], and
    [navigator.mediaDevices && navigator.mediaDevices.getDisplayMedia]. *)
Record Browser : Type := mkBrowser {
  desktopCapturer : bool;
  navigator_getDisplayMedia : bool;
  mediaDevices_getDisplayMedia : bool
}.

(** The branch that the callback of [screenSharingLocalStreamStore]
    takes. *)
Inductive Capture : Type :=
| Stopped
| FromDesktopCapturer
| FromNavigator
| FromMediaDevices
| Unsupported.

Definition capture (browser : Browser) (constraints : Constraints) : Capture :=
  if negb (video constraints) && negb (audio constraints) then Stopped
  else if desktopCapturer browser then FromDesktopCapturer
  else if navigator_getDisplayMedia browser then FromNavigator
  else if mediaDevices_getDisplayMedia browser then FromMediaDevices
  else Unsupported.

(** The value that [screenSharingAvailableStore] sets. *)
Definition available (browser : Browser) (peerStore_size : nat) : bool :=
  if negb (navigator_getDisplayMedia browser)
     && negb (mediaDevices_getDisplayMedia browser)
  then false
  else negb (peerStore_size =? 0)%nat.

End ScreenSharingStore.

(* ===================================================================== *)
(** * Properties *)
(* ===================================================================== *)

(** ** The broadcasts of AdminController *)

Section BroadcastFacts.

Import AdminController Broadcast.

Lemma record_rooms_snoc rooms rs r :
  record_rooms rooms {| roomDescription := rs ++ [r] |}
  = <[roomId r := nbUsers r]> (record_rooms rooms {| roomDescription := rs |}).
Proof. unfold record_rooms; simpl. by rewrite fold_left_app. Qed.

Lemma record_rooms_app rooms rs1 rs2 :
  record_rooms rooms {| roomDescription := rs1 ++ rs2 |}
  = record_rooms (record_rooms rooms {| roomDescription := rs1 |})
      {| roomDescription := rs2 |}.
Proof. unfold record_rooms; simpl. by rewrite fold_left_app. Qed.

(** A list that does not report [id] leaves its entry alone. *)
Lemma record_rooms_other rooms rs (id : string) :
  ¬ reports id rs →
  record_rooms rooms {| roomDescription := rs |} !! id = rooms !! id.
Proof.
  unfold reports. induction rs as [|r rs IH] using rev_ind; [done|].
  intros Hid. rewrite record_rooms_snoc, fmap_app, elem_of_app in *.
  rewrite lookup_insert_ne.
  - apply IH. tauto.
  - intros Heq. apply Hid. right. simpl. rewrite Heq. set_solver.
Qed.

(** The last entry for [id] in a list decides. *)
Lemma record_rooms_last rooms pre post (id : string) n :
  ¬ reports id post →
  record_rooms rooms
    {| roomDescription := pre ++ {| roomId := id; nbUsers := n |} :: post |}
  !! id = Some n.
Proof.
  intros Hpost.
  rewrite (record_rooms_app rooms pre).
  change (?r :: post) with ([r] ++ post).
  rewrite (record_rooms_app _ [_] post), record_rooms_other by done.
  unfold record_rooms at 1; simpl. apply lookup_insert_eq.
Qed.

Lemma aggregate_from rooms warned (answers : list (ServiceError + RoomsList)) :
  fold_left
    (fun '(rooms, warned) roomsListResult =>
       match roomsListResult with
       | fulfilled value => (record_rooms rooms value, warned)
       | rejected reason => (rooms, warned ++ [reason])
       end)
    (promise_of <$> answers) (rooms, warned)
  = (fold_left record_rooms (successes answers) rooms,
     warned ++ failures answers).
Proof.
  revert rooms warned.
  induction answers as [|[e|v] answers IH]; intros rooms warned; simpl.
  - by rewrite app_nil_r.
  - rewrite IH. by rewrite <- app_assoc.
  - by rewrite IH.
Qed.

Lemma warnings_from warned (answers : list (ServiceError + unit)) :
  fold_left
    (fun warned roomsListResult =>
       match roomsListResult with
       | rejected reason => warned ++ [reason]
       | fulfilled _ => warned
       end)
    (promise_of <$> answers) warned
  = warned ++ failures answers.
Proof.
  revert warned.
  induction answers as [|[e|v] answers IH]; intros warned; simpl.
  - by rewrite app_nil_r.
  - rewrite IH. by rewrite <- app_assoc.
  - by rewrite IH.
Qed.

Lemma getRoomsList_spec (roomClients : list RoomManagerClient) :
  getRoomsList (inr roomClients)
  = Sent (fold_left record_rooms (successes (getRooms <$> roomClients)) ∅)
      (failures (getRooms <$> roomClients)).
Proof.
  unfold getRoomsList, aggregate.
  change (map _ roomClients) with ((promise_of ∘ getRooms) <$> roomClients).
  by rewrite (list_fmap_compose getRooms promise_of), aggregate_from.
Qed.

Lemma dispatchGlobalEvent_spec name data (roomClients : list RoomManagerClient) :
  dispatchGlobalEvent (Some (name, data)) (inr roomClients)
  = Sent "ok"
      (failures ((fun c => dispatchGlobalEvent_rpc c name data) <$> roomClients)).
Proof.
  unfold dispatchGlobalEvent, warnings_of.
  change (map _ roomClients)
    with ((promise_of ∘ (fun c => dispatchGlobalEvent_rpc c name data))
            <$> roomClients).
  by rewrite list_fmap_compose, warnings_from.
Qed.

Lemma successes_failures_length {A} (answers : list (ServiceError + A)) :
  length (successes answers) + length (failures answers) = length answers.
Proof. induction answers as [|[e|v] answers IH]; simpl; lia. Qed.

(** Lists that do not report [id] leave its entry alone. *)
Lemma fold_record_rooms_other rooms (ls : list RoomsList) (id : string) :
  ¬ reports id (concat (roomDescription <$> ls)) →
  fold_left record_rooms ls rooms !! id = rooms !! id.
Proof.
  revert rooms. induction ls as [|[rs] ls IH]; intros rooms Hid; [done|].
  simpl in *. unfold reports in *. rewrite fmap_app, elem_of_app in Hid.
  rewrite IH by tauto. apply record_rooms_other. unfold reports. tauto.
Qed.

(** What [record_rooms] leaves under [id]: the count of the last
    description of [id] in the list, or else the entry that was there. *)
Lemma record_rooms_lookup rooms rs (id : string) :
  record_rooms rooms {| roomDescription := rs |} !! id
  = match last (filter (fun d => roomId d = id) rs) with
    | Some d => Some (nbUsers d)
    | None => rooms !! id
    end.
Proof.
  induction rs as [|r rs IH] using rev_ind; [done|].
  rewrite record_rooms_snoc, filter_app, filter_cons, filter_nil.
  destruct (decide (roomId r = id)) as [<-|Hne].
  - by rewrite last_snoc, lookup_insert_eq.
  - by rewrite app_nil_r, lookup_insert_ne.
Qed.

Lemma fold_record_rooms_lookup (ls : list RoomsList) : ∀ rooms (id : string),
  fold_left record_rooms ls rooms !! id
  = match last (filter (fun d => roomId d = id)
                  (concat (roomDescription <$> ls))) with
    | Some d => Some (nbUsers d)
    | None => rooms !! id
    end.
Proof.
  induction ls as [|[rs] ls IH]; intros rooms id; [done|].
  simpl. rewrite IH, filter_app, last_app, record_rooms_lookup.
  by destruct (last (filter _ (concat _))).
Qed.

(** C4: a broadcast settles every room on its own.  Whatever subset of the
    rooms failed or exceeded the deadline, the [/rooms] handler does not
    throw: it sends a record that holds, for every room id reported by a
    room server that answered, the count given by the last such report, and
    nothing for any other id; it warns once per room server that failed,
    with its reason, in registry order, so that every room server is either
    aggregated or warned about.  The [/global/event] handler sends "ok" and
    warns in the same way. *)
Theorem broadcast_settle_all (roomClients : list RoomManagerClient) :
  (∃ rooms warned,
     getRoomsList (inr roomClients) = Sent rooms warned
     ∧ (∀ id : string,
          rooms !! id
          = nbUsers <$> last (filter (fun d => roomId d = id)
                                (reported roomClients)))
     ∧ warned = failures (getRooms <$> roomClients)
     ∧ length warned + length (successes (getRooms <$> roomClients))
       = length roomClients)
  ∧ (∀ name data,
       ∃ warned,
         dispatchGlobalEvent (Some (name, data)) (inr roomClients)
         = Sent "ok" warned
         ∧ warned
           = failures ((fun c => dispatchGlobalEvent_rpc c name data)
                         <$> roomClients)
         ∧ length warned
           = length (filter (fun c =>
                               failed (dispatchGlobalEvent_rpc c name data))
                       roomClients)).
Proof.
  split.
  - do 2 eexists. split; [apply getRoomsList_spec|].
    split; [|split; [done|]].
    + intros id. unfold reported. rewrite fold_record_rooms_lookup.
      rewrite lookup_empty. by destruct (last _).
    + rewrite Nat.add_comm, successes_failures_length. apply length_fmap.
  - intros name data. eexists. split; [apply dispatchGlobalEvent_spec|].
    split; [done|].
    induction roomClients as [|c cs IH]; [done|].
    rewrite fmap_cons. simpl.
    destruct (dispatchGlobalEvent_rpc c name data) eqn:E; simpl.
    + rewrite filter_cons_True; [|by rewrite E]. simpl. by rewrite IH.
    + rewrite filter_cons_False; [done|]. rewrite E. simpl. tauto.
Qed.

(** C10: when two room servers both report [id], the count of the one
    visited later is what [/rooms] returns for [id]: it replaces the earlier
    count, the two are not added up, and the only warnings are those of the
    rooms that failed. *)
Theorem rooms_last_writer_wins
  (before middle after : list RoomManagerClient)
  (earlier later : RoomManagerClient) (l1 : RoomsList)
  (pre post : list RoomDescription) (id : string) (n1 n2 : Z) :
  getRooms earlier = inr l1 →
  {| roomId := id; nbUsers := n1 |} ∈ roomDescription l1 →
  getRooms later = inr {| roomDescription :=
                            pre ++ {| roomId := id; nbUsers := n2 |} :: post |} →
  ¬ reports id post →
  ¬ reports id (reported after) →
  ∃ rooms,
    getRoomsList (inr (before ++ earlier :: middle ++ later :: after))
    = Sent rooms
        (failures (getRooms <$> before ++ earlier :: middle ++ later :: after))
    ∧ rooms !! id = Some n2
    ∧ (n1 ≠ 0%Z → rooms !! id ≠ Some (n1 + n2)%Z).
Proof.
  intros _ _ Hlater Hpost Hafter.
  eexists. split; [apply getRoomsList_spec|].
  assert (fold_left record_rooms
            (successes
               (getRooms <$> before ++ earlier :: middle ++ later :: after)) ∅
          !! id = Some n2) as ->.
  { change (earlier :: middle ++ later :: after)
      with ((earlier :: middle) ++ [later] ++ after).
    rewrite !app_assoc, fmap_app. unfold successes at 1.
    rewrite omap_app, fold_left_app. fold (@successes RoomsList).
    rewrite fold_record_rooms_other by exact Hafter.
    rewrite fmap_app. unfold successes. rewrite omap_app, fold_left_app.
    simpl. rewrite Hlater. simpl. by apply record_rooms_last. }
  split; [done|]. intros Hn1 [=]. lia.
Qed.

(** The example of the specification: five handles, two of them exceed the
    deadline. *)
Example broadcast_five_handles :
  let ok id n :=
    {| getRooms := inr {| roomDescription := [ {| roomId := id; nbUsers := n |} ] |};
       dispatchGlobalEvent_rpc := fun _ _ => inr () |} in
  let late :=
    {| getRooms := inl DEADLINE_EXCEEDED;
       dispatchGlobalEvent_rpc := fun _ _ => inl DEADLINE_EXCEEDED |} in
  let roomClients := [ok "a" 1%Z; late; ok "b" 2%Z; ok "c" 3%Z; late] in
  getRoomsList (inr roomClients)
  = Sent (<["c" := 3%Z]> (<["b" := 2%Z]> (<["a" := 1%Z]> ∅)))
      [DEADLINE_EXCEEDED; DEADLINE_EXCEEDED]
  ∧ dispatchGlobalEvent (Some ("refresh", None)) (inr roomClients)
    = Sent "ok" [DEADLINE_EXCEEDED; DEADLINE_EXCEEDED].
Proof. split; reflexivity. Qed.

(** The registry is the one thing that makes a broadcast fail. *)
Example broadcast_registry_failure e :
  getRoomsList (inl e) = Threw e
  ∧ dispatchGlobalEvent (Some ("refresh", None)) (inl e) = Threw e.
Proof. split; reflexivity. Qed.

Lemma rooms_last_writer_wins_witness :
  let first :=
    {| getRooms := inr {| roomDescription :=
                            [ {| roomId := "lobby"; nbUsers := 3 |} ] |};
       dispatchGlobalEvent_rpc := fun _ _ => inr () |} in
  let second :=
    {| getRooms := inr {| roomDescription :=
                            [ {| roomId := "lobby"; nbUsers := 5 |} ] |};
       dispatchGlobalEvent_rpc := fun _ _ => inr () |} in
  ∃ rooms,
    getRoomsList (inr [first; second]) = Sent rooms []
    ∧ rooms !! "lobby" = Some 5%Z
    ∧ (3 ≠ 0 → rooms !! "lobby" ≠ Some (3 + 5))%Z.
Proof.
  intros first second.
  apply (rooms_last_writer_wins [] [] [] first second
           {| roomDescription := [ {| roomId := "lobby"; nbUsers := 3 |} ] |}
           [] [] "lobby" 3 5).
  - reflexivity.
  - simpl. apply list_elem_of_here.
  - reflexivity.
  - unfold reports. simpl. apply not_elem_of_nil.
  - unfold reports. simpl. apply not_elem_of_nil.
Defined.

End BroadcastFacts.

(** ** Pointers and the two regular expressions *)

Section PathFacts.

Import Path.

Lemma take_digits_string_of_uint d :
  take_digits (NilEmpty.string_of_uint d) = NilEmpty.string_of_uint d.
Proof. induction d; simpl; by rewrite ?IHd. Qed.

Lemma to_uint_not_Nil i : Nat.to_uint i ≠ Nil.
Proof.
  intros H. pose proof (DecimalNat.Unsigned.to_of (Nat.to_uint i)) as E.
  rewrite DecimalNat.Unsigned.of_to, H in E. discriminate E.
Qed.

Lemma of_index_not_empty i : of_index i ≠ "".
Proof.
  unfold of_index. pose proof (to_uint_not_Nil i) as H.
  destruct (Nat.to_uint i); [done|discriminate..].
Qed.

Lemma take_digits_of_index i : take_digits (of_index i) = of_index i.
Proof. apply take_digits_string_of_uint. Qed.

Lemma Number_of_index i : Number (of_index i) = i.
Proof.
  unfold Number, of_index.
  by rewrite NilEmpty.usu, DecimalNat.Unsigned.of_to.
Qed.

(** The pointer of slot [i] passes both tests of the command, and the index
    the second one extracts is [i]. *)
Lemma match_properties_pointer i : match_properties (property_pointer i) = true.
Proof. reflexivity. Qed.

Lemma strip_prefix_pointer i :
  strip_prefix "/properties/" (property_pointer i) = Some (of_index i).
Proof. reflexivity. Qed.

Lemma match_property_index_pointer i :
  match_property_index (property_pointer i) = Some i.
Proof.
  unfold match_property_index.
  rewrite strip_prefix_pointer, take_digits_of_index.
  pose proof (of_index_not_empty i) as H.
  destruct (of_index i) eqn:E; [done|].
  by rewrite <- E, Number_of_index.
Qed.

Lemma strip_prefix_Some p s r : strip_prefix p s = Some r → s = p +:+ r.
Proof.
  revert s. induction p as [|a p IH]; intros s; simpl; [by intros [= ->]|].
  destruct s as [|b s]; [done|].
  destruct (Ascii.eqb_spec a b) as [->|]; [|done].
  intros H. by rewrite (IH _ H).
Qed.

(** A path the first test rejects is rejected by the second one too. *)
Lemma match_property_index_properties path i :
  match_property_index path = Some i → match_properties path = true.
Proof.
  unfold match_property_index, match_properties.
  destruct (strip_prefix "/properties/" path) as [r|] eqn:E; [|done].
  apply strip_prefix_Some in E as ->. done.
Qed.

End PathFacts.

(** ** The diff and its round trip *)

Section DiffFacts.

Import AreaDiffEngine.

Lemma pointer_index_pointer i :
  pointer_index (Path.property_pointer i) = Some i.
Proof.
  unfold pointer_index.
  rewrite strip_prefix_pointer, take_digits_of_index, String.eqb_refl,
    Number_of_index.
  pose proof (of_index_not_empty i) as H.
  by destruct (String.eqb_spec (Path.of_index i) "").
Qed.

Lemma applyOperation_add doc i p :
  i ≤ length doc →
  applyOperation doc (operation_add i p) = Some (take i doc ++ p :: drop i doc).
Proof.
  intros H. unfold applyOperation, operation_add. simpl path.
  rewrite pointer_index_pointer. simpl.
  by destruct (Nat.leb_spec i (length doc)); [|lia].
Qed.

Lemma applyOperation_remove doc i :
  i < length doc →
  applyOperation doc (operation_remove i) = Some (delete i doc).
Proof.
  intros H. unfold applyOperation, operation_remove. simpl path.
  rewrite pointer_index_pointer. simpl.
  by destruct (Nat.ltb_spec i (length doc)); [|lia].
Qed.

Lemma applyOperation_replace doc i p :
  i < length doc →
  applyOperation doc (operation_replace i p) = Some (<[i:=p]> doc).
Proof.
  intros H. unfold applyOperation, operation_replace. simpl path.
  rewrite pointer_index_pointer. simpl.
  by destruct (Nat.ltb_spec i (length doc)); [|lia].
Qed.

Lemma applyPatch_app doc patch1 patch2 :
  applyPatch doc (patch1 ++ patch2)
  = applyPatch doc patch1 ≫= fun doc' => applyPatch doc' patch2.
Proof.
  revert doc. induction patch1 as [|o patch1 IH]; intros doc; simpl; [done|].
  destruct (applyOperation doc o); simpl; [apply IH|done].
Qed.

(** Re-applying what was reported for one slot. *)
Lemma apply_slot_ops pre p q tl :
  applyPatch (pre ++ p :: tl) (slot_ops (length pre) p q)
  = Some (pre ++ match q with Some q' => q' :: tl | None => tl end).
Proof.
  unfold slot_ops. destruct q as [q'|].
  - case_decide as E; [by subst|]. simpl.
    rewrite applyOperation_replace by (rewrite length_app; simpl; lia).
    by rewrite insert_app_r_alt, Nat.sub_diag.
  - simpl. rewrite applyOperation_remove by (rewrite length_app; simpl; lia).
    by rewrite delete_middle.
Qed.

(** Re-applying what was reported for the slots of [previous]. *)
Lemma apply_old_ops previous : ∀ proposed pre,
  applyPatch (pre ++ previous) (old_ops (length pre) previous proposed)
  = Some (pre ++ take (length previous) proposed).
Proof.
  induction previous as [|p previous IH]; intros proposed pre; simpl.
  - by rewrite take_0.
  - rewrite applyPatch_app.
    specialize (IH (tail proposed) (pre ++ [p])).
    rewrite length_app, Nat.add_1_r, <- app_assoc in IH. simpl in IH.
    rewrite IH. simpl. rewrite <- app_assoc. simpl.
    rewrite apply_slot_ops. destruct proposed; simpl; by rewrite ?take_nil.
Qed.

(** Re-applying the adds appends the extra properties. *)
Lemma apply_add_ops extra : ∀ doc,
  applyPatch doc (add_ops (length doc) extra) = Some (doc ++ extra).
Proof.
  induction extra as [|q extra IH]; intros doc; simpl.
  - by rewrite app_nil_r.
  - rewrite applyOperation_add by done.
    rewrite take_ge, drop_ge by done.
    specialize (IH (doc ++ [q])).
    rewrite length_app, Nat.add_1_r, <- app_assoc in IH. exact IH.
Qed.

End DiffFacts.

Section DiffRoundTrip.

Import AreaDiffEngine.

Lemma diff_round_trip_lists (previous proposed : list AreaDataProperty) :
  applyPatch previous (diff previous proposed) = Some proposed.
Proof.
  unfold diff. rewrite applyPatch_app.
  pose proof (apply_old_ops previous proposed []) as H. simpl in H.
  rewrite H. simpl.
  destruct (Nat.le_gt_cases (length previous) (length proposed)) as [Hle|Hgt].
  - rewrite <- (length_take_le proposed (length previous)) at 2 by done.
    by rewrite apply_add_ops, take_drop.
  - rewrite drop_ge, take_ge by lia. done.
Qed.

(** C6: re-applying, in order, the ops that the diff reports for
    [(previous, proposed)] to the property list of [previous] gives back the
    property list of [proposed]. *)
Theorem diff_round_trip (previous proposed : AreaData) :
  applyPatch (properties_of previous) (compare lib previous proposed)
  = Some (properties_of proposed).
Proof. apply diff_round_trip_lists. Qed.

(** Counts may differ in both directions. *)
Example diff_shrink_and_grow (p q q' : AreaDataProperty) :
  p ≠ q →
  diff [p; q'] [q] = [operation_remove 1; operation_replace 0 q]
  ∧ diff [p] [p; q'] = [operation_add 1 q'].
Proof.
  intros H. unfold diff; simpl. unfold slot_ops.
  by rewrite !decide_False, ?decide_True by done.
Qed.

End DiffRoundTrip.

(** ** The limiter *)

Section LimiterFacts.

Context {A : Type}.

Import PLimit.

Lemma pLimit_well_formed n : well_formed (@pLimit A n).
Proof. split; simpl; [lia|done]. Qed.

Lemma limit_well_formed x (l : t A) : well_formed l → well_formed (limit x l).
Proof.
  intros [Hle Hq]. unfold limit.
  destruct (Nat.ltb_spec (length (running l)) (concurrency l)); split; simpl.
  - rewrite length_app; simpl; lia.
  - intros Hne. specialize (Hq Hne). lia.
  - done.
  - intros _. lia.
Qed.

Lemma limit_concurrency x (l : t A) : concurrency (limit x l) = concurrency l.
Proof. unfold limit. by case_match. Qed.

Lemma settle_inv k (l l' : t A) x :
  settle k l = Some (x, l') →
  running l !! k = Some x
  ∧ concurrency l' = concurrency l
  ∧ running l' = delete k (running l) ++ take 1 (queue l)
  ∧ queue l' = drop 1 (queue l)
  ∧ admitted l' = admitted l ++ take 1 (queue l).
Proof.
  unfold settle. destruct (running l !! k) as [y|]; [|done].
  destruct (queue l); intros [= <- <-]; simpl; by rewrite ?app_nil_r.
Qed.

Lemma settle_well_formed k (l l' : t A) x :
  well_formed l → settle k l = Some (x, l') → well_formed l'.
Proof.
  intros [Hle Hq] (Hk & Hc & Hr & Hq' & _)%settle_inv.
  apply lookup_lt_Some in Hk.
  assert (length (delete k (running l)) = length (running l) - 1) as Hd.
  { rewrite length_delete; [lia|]. by apply lookup_lt_is_Some_2. }
  unfold well_formed. rewrite Hc, Hr, Hq', length_app, Hd.
  destruct (queue l) as [|y q]; simpl in *.
  - split; [lia|done].
  - specialize (Hq ltac:(done)). split; [lia|intros _; lia].
Qed.

Lemma step_well_formed (l : t A) ev : well_formed l → well_formed (step l ev).
Proof.
  intros H. destruct ev as [x|k]; simpl; [by apply limit_well_formed|].
  destruct (settle k l) as [[x l']|] eqn:E; [|done].
  by eapply settle_well_formed.
Qed.

Lemma step_concurrency (l : t A) ev : concurrency (step l ev) = concurrency l.
Proof.
  destruct ev as [x|k]; simpl; [apply limit_concurrency|].
  destruct (settle k l) as [[x l']|] eqn:E; [|done].
  by apply settle_inv in E as (_ & -> & _).
Qed.

(** Calls are let in in the order they were handed over. *)
Lemma step_fifo (l : t A) ev :
  well_formed l →
  admitted (step l ev) ++ queue (step l ev)
  = admitted l ++ queue l ++ submitted [ev].
Proof.
  intros [Hle Hq]. destruct ev as [x|k]; simpl.
  - unfold limit.
    destruct (Nat.ltb_spec (length (running l)) (concurrency l)); simpl.
    + destruct (queue l) as [|y q]; [by rewrite !app_nil_r|].
      specialize (Hq ltac:(done)). lia.
    + done.
  - rewrite app_nil_r.
    destruct (settle k l) as [[x l']|] eqn:E; [|done].
    apply settle_inv in E as (_ & _ & _ & -> & ->).
    by rewrite <- app_assoc, take_drop.
Qed.

Lemma run_invariant (evs : list (event A)) : ∀ l,
  well_formed l →
  well_formed (run evs l)
  ∧ concurrency (run evs l) = concurrency l
  ∧ admitted (run evs l) ++ queue (run evs l)
    = admitted l ++ queue l ++ submitted evs.
Proof.
  induction evs as [|ev evs IH]; intros l Hl; simpl.
  - by rewrite !app_nil_r.
  - destruct (IH (step l ev) (step_well_formed l ev Hl)) as (Hw & Hc & Hf).
    split; [done|]. split; [by rewrite Hc, step_concurrency|].
    unfold run in *. rewrite Hf, app_assoc, step_fifo by done.
    rewrite <- !app_assoc. do 2 f_equal.
    destruct ev; simpl; by rewrite ?app_nil_r.
Qed.

(** With a free slot nothing waits, so handing a call over appends it to the
    calls to settle. *)
Lemma limit_order x (l : t A) :
  well_formed l →
  running (limit x l) ++ queue (limit x l) = (running l ++ queue l) ++ [x].
Proof.
  intros [Hle Hq]. unfold limit.
  destruct (Nat.ltb_spec (length (running l)) (concurrency l)); simpl.
  - destruct (queue l) as [|y q]; [by rewrite !app_nil_r|].
    specialize (Hq ltac:(done)). lia.
  - by rewrite app_assoc.
Qed.

Lemma submit_order (xs : list A) : ∀ l,
  well_formed l →
  let l' := fold_left (fun l x => limit x l) xs l in
  well_formed l'
  ∧ concurrency l' = concurrency l
  ∧ running l' ++ queue l' = (running l ++ queue l) ++ xs.
Proof.
  induction xs as [|x xs IH]; intros l Hl; simpl.
  - by rewrite app_nil_r.
  - destruct (IH (limit x l) (limit_well_formed x l Hl)) as (Hw & Hc & Ho).
    split; [done|]. split; [by rewrite Hc, limit_concurrency|].
    rewrite Ho, limit_order by done. by rewrite <- app_assoc.
Qed.

(** Every call handed over settles: with a width of at least one and fuel for
    each pending call, [drain] lists them all. *)
Lemma drain_all fuel : ∀ picks (l : t A),
  well_formed l → 0 < concurrency l → pending l ≤ fuel →
  (drain fuel picks l).*1 ≡ₚ running l ++ queue l.
Proof.
  induction fuel as [|fuel IH]; intros picks l Hl Hc Hf; unfold pending in *.
  - destruct (running l), (queue l); simpl in *; (done || lia).
  - simpl. destruct (running l) as [|r0 rs] eqn:Er.
    + destruct Hl as [_ Hq]. rewrite Er in Hq. simpl in *.
      destruct (queue l); [done|]. specialize (Hq ltac:(done)). lia.
    + rewrite <- Er.
      assert (hd 0 picks mod length (running l) < length (running l)) as Hk.
      { apply Nat.mod_upper_bound. rewrite Er. done. }
      destruct (lookup_lt_is_Some_2 _ _ Hk) as [x Hx].
      destruct (settle (hd 0 picks mod length (running l)) l)
        as [[x' l']|] eqn:E.
      2:{ unfold settle in E. rewrite Hx in E. by destruct (queue l). }
      pose proof (settle_well_formed _ _ _ _ Hl E) as Hl'.
      apply settle_inv in E as (Hx' & Hc' & Hr' & Hq' & _).
      simpl. rewrite IH; [|done|lia|].
      * rewrite Hr', Hq', <- app_assoc, take_drop.
        rewrite app_comm_cons. apply Permutation_app_tail.
        symmetry. by apply delete_Permutation.
      * unfold pending. rewrite Hr', Hq', length_app, length_take, length_drop.
        rewrite length_delete by by apply lookup_lt_is_Some_2.
        apply lookup_lt_Some in Hx'. rewrite <- Er in Hf. simpl in Hf. lia.
Qed.

(** The limiter states that [drain] passes through are well formed. *)
Lemma drain_well_formed fuel : ∀ picks (l : t A),
  well_formed l →
  Forall (fun xl => well_formed xl.2 ∧ concurrency xl.2 = concurrency l)
    (drain fuel picks l).
Proof.
  induction fuel as [|fuel IH]; intros picks l Hl; simpl; [done|].
  destruct (running l) as [|r0 rs] eqn:Er; [done|]. rewrite <- Er.
  destruct (settle _ l) as [[x l']|] eqn:E; [|done].
  pose proof (settle_well_formed _ _ _ _ Hl E) as Hl'.
  apply settle_inv in E as (_ & Hc & _).
  constructor; [done|].
  eapply Forall_impl; [apply IH, Hl'|]. simpl. intros xl [? ?].
  split; [done|congruence].
Qed.

End LimiterFacts.

(** C9: the calls of the command all go through one limiter of width 10.
    Whatever calls are handed over and whichever calls in flight settle, in
    any interleaving, at most 10 are in flight and the calls are let in in
    the order they were handed over, the excess waiting in that order; the
    limiter of a run is such a limiter fed with the run's calls, and every
    state it passes through while they settle has at most 10 in flight. *)
Theorem limiter_width_ten :
  (∀ (A : Type) (evs : list (PLimit.event A)),
     let l := PLimit.run evs (PLimit.pLimit UpdateAreaMapStorageCommand.limit_width) in
     length (PLimit.running l) ≤ 10
     ∧ PLimit.admitted l ++ PLimit.queue l = PLimit.submitted evs)
  ∧ (∀ env calls,
       let l := UpdateAreaMapStorageCommand.submit_all env calls in
       l = PLimit.run (PLimit.Submit <$> Sync.tasks env calls)
             (PLimit.pLimit UpdateAreaMapStorageCommand.limit_width)
       ∧ length (PLimit.running l) ≤ 10
       ∧ Forall (fun xl => length (PLimit.running xl.2) ≤ 10)
           (PLimit.drain (length calls)
              (UpdateAreaMapStorageCommand.picks env) l)).
Proof.
  assert (∀ (A : Type) (evs : list (PLimit.event A)),
     let l := PLimit.run evs (PLimit.pLimit UpdateAreaMapStorageCommand.limit_width) in
     PLimit.well_formed l ∧ PLimit.concurrency l = 10
     ∧ PLimit.admitted l ++ PLimit.queue l = PLimit.submitted evs) as Hrun.
  { intros A evs.
    destruct (run_invariant evs _ (pLimit_well_formed (A:=A) 10))
      as (Hw & Hc & Hf).
    done. }
  split.
  - intros A evs. destruct (Hrun A evs) as ([Hle _] & Hc & Hf).
    simpl in *. split; [lia|done].
  - intros env calls.
    assert (UpdateAreaMapStorageCommand.submit_all env calls
            = PLimit.run (PLimit.Submit <$> Sync.tasks env calls)
                (PLimit.pLimit UpdateAreaMapStorageCommand.limit_width)) as E.
    { unfold UpdateAreaMapStorageCommand.submit_all, PLimit.run, Sync.tasks.
      generalize (imap (fun i c =>
                          (c, UpdateAreaMapStorageCommand.outcome env i)) calls).
      generalize (PLimit.pLimit (A:=UpdateAreaMapStorageCommand.Call
                                    * UpdateAreaMapStorageCommand.Settled)
                    UpdateAreaMapStorageCommand.limit_width).
      intros l xs. revert l. induction xs as [|x xs IH]; intros l; [done|].
      simpl. apply IH. }
    simpl. split; [done|]. rewrite E.
    destruct (Hrun _ (PLimit.Submit <$> Sync.tasks env calls))
      as (Hw & Hc & _).
    split; [destruct Hw; lia|].
    eapply Forall_impl; [by apply drain_well_formed|].
    simpl. intros xl [[Hle _] Hc']. lia.
Qed.

(** The example of the specification: 25 calls against the limiter. *)
Example limiter_25_calls :
  let l := fold_left (fun l x => PLimit.limit x l) (seq 0 25)
             (PLimit.pLimit UpdateAreaMapStorageCommand.limit_width) in
  PLimit.running l = seq 0 10 ∧ PLimit.queue l = seq 10 15
  ∧ (∀ l' x, PLimit.settle 3 l = Some (x, l') →
       x = 3 ∧ PLimit.running l' = [0; 1; 2; 4; 5; 6; 7; 8; 9; 10]
       ∧ PLimit.queue l' = seq 11 14).
Proof.
  split; [reflexivity|]. split; [reflexivity|].
  intros l' x. vm_compute. by intros [= <- <-].
Qed.

(** ** The reducer of the command *)

Section ReducerFacts.

Import UpdateAreaMapStorageCommand Sync.

Variable jsonpatch : FastJsonPatch.


(** An op that fails the first test goes through the three [if]s untouched. *)
Lemma reducer_outside_properties r operation :
  targets_properties operation = false →
  reducer jsonpatch r operation = Return r.
Proof.
  unfold targets_properties, reducer, add_branch, remove_branch, replace_branch.
  intros ->. by rewrite !andb_false_r.
Qed.

Lemma reduce_filter patch : ∀ r,
  reduce jsonpatch patch r
  = reduce jsonpatch (filter (fun o => targets_properties o) patch) r.
Proof.
  induction patch as [|o patch IH]; intros r; [done|].
  destruct (targets_properties o) eqn:E.
  - rewrite filter_cons_True by by apply Is_true_true_2. simpl.
    destruct (reducer jsonpatch r o); by rewrite ?IH.
  - rewrite filter_cons_False by by apply Is_true_false_2. simpl.
    by rewrite reducer_outside_properties.
Qed.

End ReducerFacts.

(** ** What a run leaves alone, and where its calls come from *)

Section SyncFacts.

Import UpdateAreaMapStorageCommand Sync.

Variable jsonpatch : FastJsonPatch.

Lemma same_frame_refl c : same_frame c c.
Proof. by repeat split. Qed.

Lemma same_frame_trans c1 c2 c3 :
  same_frame c1 c2 → same_frame c2 c3 → same_frame c1 c3.
Proof.
  unfold same_frame. intros (?&?&?&?&?&?) (?&?&?&?&?&?).
  repeat split; congruence.
Qed.

Lemma same_frame_set c ps :
  length <$> ps = length <$> properties (newConfig c) →
  same_frame c (set_newConfig (set_properties ps (newConfig c)) c).
Proof. intros H. by repeat split. Qed.

Lemma update_first_length f g l : length (update_first f g l) = length l.
Proof. induction l as [|x l IH]; simpl; [done|]. case_match; simpl; congruence. Qed.

Lemma nonempty_Some o url : nonempty o = Some url → o = Some url ∧ url ≠ "".
Proof.
  unfold nonempty. destruct o as [s|]; [|done].
  destruct (String.eqb_spec s ""); [done|]. by intros [= ->].
Qed.

Lemma string_eqb_true (s1 s2 : string) : String.eqb s1 s2 = true ↔ s1 = s2.
Proof. apply String.eqb_eq. Qed.

(** One pass through the reducer: what it leaves alone, and the calls it
    appends. *)
Lemma reducer_step r operation :
  same_frame (this r) (this (after (reducer jsonpatch r operation)))
  ∧ ∃ new,
      acc (after (reducer jsonpatch r operation)) = acc r ++ new
      ∧ Forall (caused_by operation) new.
Proof.
  unfold reducer, add_branch, remove_branch, replace_branch.
  destruct (String.eqb_spec (op operation) "add") as [Ea|Ea];
    [rewrite Ea|]; simpl.
  - destruct (Path.match_properties (path operation)) eqn:Em; simpl.
    2:{ split; [apply same_frame_refl|]. exists []. by rewrite app_nil_r. }
    destruct (value operation) as [|v|ps|[]] eqn:Ev; simpl;
      try (split; [apply same_frame_refl|]; exists []; by rewrite app_nil_r).
    destruct (nonempty (ressourceUrl v)) as [url|] eqn:Eu; simpl.
    2:{ split; [apply same_frame_refl|]. exists []. by rewrite app_nil_r. }
    split.
    + apply same_frame_set. destruct (properties _); simpl; [|done].
      by rewrite update_first_length.
    + eexists [_]. split; [done|]. constructor; [|done].
      split; [done|]. by exists v, url.
  - destruct (String.eqb_spec (op operation) "remove") as [Er|Er]; simpl.
    + destruct (Path.match_properties (path operation)) eqn:Em; simpl.
      2:{ rewrite Er. simpl.
          split; [apply same_frame_refl|]. exists []. by rewrite app_nil_r. }
      rewrite Er. simpl.
      destruct (getValueByPointer jsonpatch _ _) as [e|[|v|ps|w]]; simpl;
        try (split; [apply same_frame_refl|]; exists []; by rewrite app_nil_r).
      * destruct (nonempty (ressourceUrl v)) as [url|] eqn:Eu; simpl;
          (split; [apply same_frame_refl|]).
        -- eexists [_]. split; [done|]. by constructor.
        -- exists []. by rewrite app_nil_r.
      * destruct (Js.truthy w); simpl;
          (split; [apply same_frame_refl|]; exists []; by rewrite app_nil_r).
    + destruct (String.eqb_spec (op operation) "replace") as [Ep|Ep]; simpl.
      2:{ split; [apply same_frame_refl|]. exists []. by rewrite app_nil_r. }
      destruct (Path.match_properties (path operation)) eqn:Em; simpl.
      2:{ split; [apply same_frame_refl|]. exists []. by rewrite app_nil_r. }
      destruct (Path.match_property_index (path operation)) as [i|] eqn:Ei;
        simpl.
      2:{ split; [apply same_frame_refl|]. exists []. by rewrite app_nil_r. }
      destruct (properties (newConfig (this r))) as [props|] eqn:Eps; simpl.
      2:{ split; [apply same_frame_refl|]. exists []. by rewrite app_nil_r. }
      destruct (props !! i) as [property|] eqn:Ep'; simpl.
      2:{ split; [apply same_frame_refl|]. exists []. by rewrite app_nil_r. }
      destruct (nonempty (ressourceUrl property)) as [url|] eqn:Eu; simpl.
      * split.
        -- apply same_frame_set. rewrite Eps. simpl. by rewrite length_insert.
        -- eexists [_]. split; [done|]. by constructor.
      * split.
        -- apply same_frame_set. rewrite Eps. simpl. by rewrite length_insert.
        -- exists []. by rewrite app_nil_r.
Qed.

Lemma reducer_reduce r operation patch :
  reduced (reduce jsonpatch (operation :: patch) r)
  = match reducer jsonpatch r operation with
    | Throw _ r' => r'
    | f => reduced (reduce jsonpatch patch (after f))
    end.
Proof. simpl. by destruct (reducer jsonpatch r operation). Qed.

(** The whole loop. *)
Lemma reduce_steps patch : ∀ r,
  same_frame (this r) (this (reduced (reduce jsonpatch patch r)))
  ∧ ∃ new,
      acc (reduced (reduce jsonpatch patch r)) = acc r ++ new
      ∧ Forall (fun call => ∃ operation,
                  operation ∈ patch ∧ caused_by operation call) new.
Proof.
  induction patch as [|o patch IH]; intros r.
  - split; [apply same_frame_refl|]. exists []. by rewrite app_nil_r.
  - rewrite reducer_reduce.
    destruct (reducer_step r o) as (Hf & new & Hacc & Hnew).
    assert (Forall (fun call => ∃ operation,
                      operation ∈ o :: patch ∧ caused_by operation call) new)
      as Hnew'.
    { eapply Forall_impl; [exact Hnew|]. intros call ?. exists o.
      split; [apply list_elem_of_here|done]. }
    destruct (reducer jsonpatch r o) as [r'|r'|e r']; simpl in *;
      try (destruct (IH r') as (Hf' & new' & Hacc' & Hnew'');
           split; [by eapply same_frame_trans|];
           exists (new ++ new'); split; [by rewrite Hacc', Hacc, app_assoc|];
           apply Forall_app; split; [done|];
           eapply Forall_impl; [exact Hnew''|];
           intros call (o' & ? & ?); exists o';
           split; [by apply list_elem_of_further|done]).
    split; [done|]. by exists new.
Qed.

End SyncFacts.

(** ** Callbacks and the order in which calls settle *)

Section CallbackFacts.

Import UpdateAreaMapStorageCommand Sync.

Lemma post_callback_frame id response s :
  same_frame (self s) (self (post_callback id response s)).
Proof.
  destruct response as [|raw|data]; simpl; try apply same_frame_refl.
  apply same_frame_set. destruct (properties _); simpl; [|done].
  by rewrite length_map.
Qed.

Lemma on_settled_frame ev s : same_frame (self s) (self (on_settled ev s)).
Proof.
  destruct ev as [[url body|url data|url i] [response|e]]; simpl;
    try apply same_frame_refl.
  apply post_callback_frame.
Qed.

Lemma run_callbacks_frame evs : ∀ s,
  same_frame (self s) (self (run_callbacks evs s)).
Proof.
  induction evs as [|ev evs IH]; intros s; simpl; [apply same_frame_refl|].
  eapply same_frame_trans; [apply on_settled_frame|apply IH].
Qed.

Lemma run_callbacks_app evs1 evs2 s :
  run_callbacks (evs1 ++ evs2) s = run_callbacks evs2 (run_callbacks evs1 s).
Proof. unfold run_callbacks. apply fold_left_app. Qed.

(** The flag is raised by a create call that resolved with a body passing
    both tests, and by nothing else. *)
Lemma on_settled_flag ev s :
  shouldNotifyUpdate (on_settled ev s) = true
  ↔ shouldNotifyUpdate s = true
    ∨ ∃ url body data, ev = (Post url body, Fulfilled (Valid data)).
Proof.
  destruct ev as [[url body|url data|url i] [[|raw|data']|e]]; simpl;
    try (split; [by left|by intros [?|(?&?&?&[=])]]).
  split; [|done]. intros _. right. by exists url, body, data'.
Qed.

Lemma run_callbacks_flag evs : ∀ s,
  shouldNotifyUpdate (run_callbacks evs s) = true
  ↔ shouldNotifyUpdate s = true
    ∨ ∃ url body data, (Post url body, Fulfilled (Valid data)) ∈ evs.
Proof.
  induction evs as [|ev evs IH]; intros s; simpl.
  - split; [by left|]. intros [?|(?&?&?&H)]; [done|]. by apply elem_of_nil in H.
  - rewrite IH, on_settled_flag. split.
    + intros [[?|(url&body&data&->)]|(url&body&data&?)]; [by left|..].
      * right. exists url, body, data. apply list_elem_of_here.
      * right. exists url, body, data. by apply list_elem_of_further.
    + intros [?|(url&body&data&[E|?]%elem_of_cons)]; [by left; left|..].
      * left; right. by exists url, body, data.
      * right. by exists url, body, data.
Qed.

(** [await Promise.all] splits the settled calls at the first rejection. *)
Lemma first_rejection_Some evs : ∀ before e after,
  first_rejection evs = Some (before, e, after) →
  ∃ c, evs = before ++ (c, Rejected e) :: after.
Proof.
  induction evs as [|[c [response|e']] evs IH]; intros before e after; simpl;
    [done|..].
  - destruct (first_rejection evs) as [[[b e0] a]|]; [|done].
    intros [= <- <- <-]. destruct (IH _ _ _ eq_refl) as [c' ->]. by exists c'.
  - intros [= <- <- <-]. by exists c.
Qed.

Lemma first_rejection_None evs :
  first_rejection evs = None →
  Forall (fun ev => ∃ response, ev.2 = Fulfilled response) evs.
Proof.
  induction evs as [|[c [response|e']] evs IH]; simpl; [done|..].
  - destruct (first_rejection evs) as [[[b e0] a]|]; [done|].
    intros _. constructor; [by exists response|by apply IH].
  - done.
Qed.

(** When the first call to settle is rejected, nothing ran before. *)
Lemma first_rejection_head c e evs :
  first_rejection ((c, Rejected e) :: evs) = Some ([], e, evs).
Proof. by destruct c. Qed.

(** Every scheduled call settles, each exactly once. *)
Lemma settle_order_all env calls : settle_order env calls ≡ₚ tasks env calls.
Proof.
  unfold settle_order, submit_all. fold (tasks env calls).
  destruct (submit_order (tasks env calls) _
              (pLimit_well_formed (A:=Call * Settled) limit_width))
    as (Hw & Hc & Ho).
  simpl in Hw, Hc, Ho. rewrite drain_all; [by rewrite Ho|done|..].
  - rewrite Hc. unfold limit_width. lia.
  - unfold PLimit.pending. rewrite <- length_app, Ho.
    unfold tasks. by rewrite length_imap.
Qed.

Lemma elem_of_tasks env calls c o :
  (c, o) ∈ tasks env calls ↔ ∃ i, calls !! i = Some c ∧ o = outcome env i.
Proof.
  unfold tasks. rewrite elem_of_lookup_imap. split.
  - intros (i & x & [= -> ->] & ?). by exists i.
  - intros (i & ? & ->). by exists i, c.
Qed.

Lemma elem_of_settle_order env calls c o :
  (c, o) ∈ settle_order env calls
  ↔ ∃ i, calls !! i = Some c ∧ o = outcome env i.
Proof. by rewrite settle_order_all, elem_of_tasks. Qed.

End CallbackFacts.

(** ** Runs of [execute] *)

Section ExecuteFacts.

Import UpdateAreaMapStorageCommand Sync.

Variable jsonpatch : FastJsonPatch.

(** Whatever [await Promise.all] does, every callback runs in the end. *)
Lemma execute_settled c env :
  let r := reduced (reduce jsonpatch
                      (compare jsonpatch (oldConfig c) (newConfig c)) (start c)) in
  scheduled (execute jsonpatch c env) = acc r
  ∧ settled (execute jsonpatch c env)
    = run_callbacks (settle_order env (acc r))
        {| self := this r; shouldNotifyUpdate := false |}.
Proof.
  unfold execute. fold (start c).
  destruct (reduce jsonpatch _ (start c)) as [[e r]|r]; simpl; [done|].
  destruct (first_rejection (settle_order env (acc r)))
    as [[[before e] after]|] eqn:E; simpl; [|done].
  split; [done|].
  destruct (first_rejection_Some _ _ _ _ E) as [call ->].
  rewrite run_callbacks_app. simpl. by destruct call.
Qed.

Lemma execute_frame c env :
  same_frame c (self (settled (execute jsonpatch c env))).
Proof.
  destruct (execute_settled c env) as [_ ->].
  eapply same_frame_trans; [|apply run_callbacks_frame]. simpl.
  apply (reduce_steps jsonpatch _ (start c)).
Qed.

Lemma execute_super_frame c env :
  match super_execute (execute jsonpatch c env) with
  | Some reconciled =>
      ∃ c', newConfig c' = reconciled ∧ same_frame c c'
  | None => True
  end.
Proof.
  unfold execute. fold (start c).
  pose proof (reduce_steps jsonpatch
                (compare jsonpatch (oldConfig c) (newConfig c)) (start c))
    as [Hf _].
  destruct (reduce jsonpatch _ (start c)) as [[e r]|r]; simpl in *; [done|].
  destruct (first_rejection (settle_order env (acc r)))
    as [[[before e] after]|]; simpl.
  - eexists. split; [done|].
    eapply same_frame_trans; [exact Hf|]. apply (run_callbacks_frame before).
  - eexists. split; [done|].
    eapply same_frame_trans; [exact Hf|]. apply (run_callbacks_frame _).
Qed.

(** The flag after a run, in terms of the calls and of how they settle. *)
Lemma execute_flag c env :
  shouldNotifyUpdate (settled (execute jsonpatch c env)) = true
  ↔ ∃ i url body data,
      scheduled (execute jsonpatch c env) !! i = Some (Post url body)
      ∧ outcome env i = Fulfilled (Valid data).
Proof.
  destruct (execute_settled c env) as [-> ->].
  rewrite run_callbacks_flag. simpl. split.
  - intros [?|(url & body & data & H)]; [done|].
    apply elem_of_settle_order in H as (i & ? & ?). by exists i, url, body, data.
  - intros (i & url & body & data & ? & ?). right. exists url, body, data.
    apply elem_of_settle_order. by exists i.
Qed.

(** Every call of a run comes from an op of the patch. *)
Lemma execute_calls c env :
  Forall (fun call => ∃ operation,
            operation ∈ compare jsonpatch (oldConfig c) (newConfig c)
            ∧ caused_by operation call)
    (scheduled (execute jsonpatch c env)).
Proof.
  destruct (execute_settled c env) as [-> _].
  destruct (reduce_steps jsonpatch
              (compare jsonpatch (oldConfig c) (newConfig c)) (start c))
    as (_ & new & -> & Hnew). done.
Qed.

End ExecuteFacts.

Section Claims.

Import UpdateAreaMapStorageCommand Sync.

(** C8: a run never writes to [oldConfig]: once every call has settled it
    is the value it was, with every property and every [serverData] in it,
    and so is the area index; the configuration handed to the local edit is
    [newConfig] with the same id, the same other fields and as many
    properties. *)
Theorem previous_never_mutated (jsonpatch : FastJsonPatch) (c : Command)
  (env : Env) :
  let run := execute jsonpatch c env in
  oldConfig (self (settled run)) = oldConfig c
  ∧ gameMap (self (settled run)) = gameMap c
  ∧ match super_execute run with
    | Some reconciled =>
        area_id reconciled = area_id (newConfig c)
        ∧ area_rest reconciled = area_rest (newConfig c)
        ∧ length <$> properties reconciled
          = length <$> properties (newConfig c)
    | None => True
    end.
Proof.
  simpl. destruct (execute_frame jsonpatch c env) as (Ho & Hg & _).
  split; [done|]. split; [done|].
  pose proof (execute_super_frame jsonpatch c env) as H.
  destruct (super_execute _); [|done].
  destruct H as (c' & <- & (_ & _ & _ & ? & ? & ?)). done.
Qed.



(** C2, as the command has it: once every call has settled, the flag is
    raised exactly when some create call resolved with a non-empty body that
    passes the schema, whether or not that body carries [serverData]; an
    empty body, a body failing the schema, a rejected call and every delete
    or update call leave it alone; and create calls come from add ops only. *)
Theorem shouldNotify_iff_valid_create (jsonpatch : FastJsonPatch)
  (c : Command) (env : Env) :
  let run := execute jsonpatch c env in
  (shouldNotifyUpdate (settled run) = true
   ↔ ∃ i url body data,
       scheduled run !! i = Some (Post url body)
       ∧ outcome env i = Fulfilled (Valid data))
  ∧ Forall (fun call => ∃ operation,
              operation ∈ compare jsonpatch (oldConfig c) (newConfig c)
              ∧ caused_by operation call) (scheduled run).
Proof.
  simpl. split; [apply execute_flag|apply execute_calls].
Qed.

(** C1, as the command has it: when every scheduled call is rejected, the
    rejection is caught and logged, [execute] does not reject, nothing is
    dispatched to the room server, and the local edit is still run, with
    [newConfig] as the reducer left it. *)
Theorem total_failure_still_commits (jsonpatch : FastJsonPatch) (c : Command)
  (env : Env) (r : Reduce) :
  reduce jsonpatch (compare jsonpatch (oldConfig c) (newConfig c)) (start c)
  = inr r →
  acc r ≠ [] →
  (∀ i, i < length (acc r) → ∃ e, outcome env i = Rejected e) →
  let run := execute jsonpatch c env in
  rejected run = None
  ∧ notified run = None
  ∧ (∃ e, console_error run = [e])
  ∧ super_execute run = Some (newConfig (this r))
  ∧ shouldNotifyUpdate (settled run) = false.
Proof.
  intros Hr Hne Hall. simpl.
  assert (∀ call o, (call, o) ∈ settle_order env (acc r) →
                    ∃ e, o = Rejected e) as Hrej.
  { intros call o (i & Hi & ->)%elem_of_settle_order.
    apply Hall. by eapply lookup_lt_Some. }
  pose proof (execute_flag jsonpatch c env) as Hflag.
  destruct (execute_settled jsonpatch c env) as [Hs _].
  simpl in Hflag, Hs. rewrite Hr in Hs. simpl in Hs.
  assert (shouldNotifyUpdate (settled (execute jsonpatch c env)) = false)
    as Hfalse.
  { apply not_true_is_false. rewrite Hflag, Hs.
    intros (i & url & body & data & Hi & Ho).
    destruct (Hall i) as [e He]; [by eapply lookup_lt_Some|]. congruence. }
  revert Hfalse. unfold execute. fold (start c). rewrite Hr.
  destruct (settle_order env (acc r)) as [|[call o] evs] eqn:E.
  { pose proof (settle_order_all env (acc r)) as P. rewrite E in P.
    apply Permutation_nil_l in P. unfold tasks in P.
    apply (f_equal length) in P. rewrite length_imap in P.
    by destruct (acc r). }
  destruct (Hrej call o) as [e ->]; [apply list_elem_of_here|].
  rewrite first_rejection_head. simpl. intros Hfalse.
  repeat split; try done. by exists e.
Qed.

End Claims.

(** ** Lookups by id *)

Section ByIdFacts.

Import UpdateAreaMapStorageCommand Sync.

Lemma has_id_true id p : has_id id p = true ↔ prop_id p = id.
Proof. apply String.eqb_eq. Qed.

Lemma has_id_false id p : has_id id p = false ↔ prop_id p ≠ id.
Proof. apply String.eqb_neq. Qed.

(** With unique ids, [find] by id gives the one property with that id,
    wherever it sits. *)
Lemma find_by_id (l : list AreaDataProperty) : ∀ j q,
  NoDup (prop_id <$> l) → l !! j = Some q →
  List.find (has_id (prop_id q)) l = Some q.
Proof.
  induction l as [|x l IH]; intros j q Hnd Hj; [done|].
  apply NoDup_cons in Hnd as [Hx Hnd]. simpl.
  destruct j as [|j]; simpl in Hj.
  - injection Hj as ->. by rewrite (proj2 (has_id_true _ _) eq_refl).
  - destruct (has_id (prop_id q) x) eqn:E; [|by eapply IH].
    apply has_id_true in E. destruct Hx. rewrite E.
    apply list_elem_of_fmap. exists q. split; [done|].
    by eapply list_elem_of_lookup_2.
Qed.

(** The same for the write that follows a [find]. *)
Lemma update_first_by_id g (l : list AreaDataProperty) : ∀ i q,
  NoDup (prop_id <$> l) → l !! i = Some q →
  update_first (has_id (prop_id q)) g l = <[i:=g q]> l.
Proof.
  induction l as [|x l IH]; intros i q Hnd Hi; [done|].
  apply NoDup_cons in Hnd as [Hx Hnd]. simpl.
  destruct i as [|i]; simpl in Hi.
  - injection Hi as ->. by rewrite (proj2 (has_id_true _ _) eq_refl).
  - destruct (has_id (prop_id q) x) eqn:E; [|simpl; f_equal; by apply IH].
    apply has_id_true in E. destruct Hx. rewrite E.
    apply list_elem_of_fmap. exists q. split; [done|].
    by eapply list_elem_of_lookup_2.
Qed.

End ByIdFacts.

Section PropertyClaims.

Import UpdateAreaMapStorageCommand Sync.

(** C5: a replace op on the property [p] at index [i], with a non-empty
    [ressourceUrl]: whatever the position [j] of the cached property [q]
    that has the id of [p], when the reducer is through with the op the
    property at index [i] of [newConfig] carries the [serverData] of [q]
    and the id, the [ressourceUrl] and the other fields of [p]; the other
    properties are the ones that were there; the update call for index [i]
    is the one call added, to the url of [p]; and nothing else of [this] has
    changed. *)
Theorem replace_repopulates_from_cache (jsonpatch : FastJsonPatch)
  (r : Reduce) (operation : Operation) (i j : nat)
  (props cached : list AreaDataProperty) (p q : AreaDataProperty)
  (url : string) (areas : gmap string (list AreaDataProperty)) :
  op operation = "replace" →
  Path.match_property_index (path operation) = Some i →
  properties (newConfig (this r)) = Some props →
  props !! i = Some p →
  nonempty (ressourceUrl p) = Some url →
  gameMap (this r) = Some areas →
  areas !! area_id (oldConfig (this r)) = Some cached →
  NoDup (prop_id <$> cached) →
  cached !! j = Some q →
  prop_id q = prop_id p →
  ∃ r' props' p',
    reducer jsonpatch r operation = Return r'
    ∧ acc r' = acc r ++ [Patch url i]
    ∧ properties (newConfig (this r')) = Some props'
    ∧ props' !! i = Some p'
    ∧ serverData p' = serverData q
    ∧ prop_id p' = prop_id p
    ∧ ressourceUrl p' = ressourceUrl p
    ∧ rest p' = rest p
    ∧ length props' = length props
    ∧ (∀ k, k ≠ i → props' !! k = props !! k)
    ∧ same_frame (this r) (this r').
Proof.
  intros Hop Hi Hps Hp Hu Hg Ha Hnd Hq Hid.
  pose proof (match_property_index_properties _ _ Hi) as Hm.
  pose proof (reducer_step jsonpatch r operation) as [Hframe _].
  revert Hframe.
  unfold reducer, add_branch, remove_branch, replace_branch.
  rewrite Hop, Hm. simpl. rewrite Hi, Hps. simpl. rewrite Hp. simpl.
  assert (cached_serverData (this r) (prop_id p) = serverData q) as ->.
  { unfold cached_serverData. rewrite Hg. simpl. rewrite Ha. simpl.
    by rewrite <- Hid, (find_by_id cached j q). }
  simpl. rewrite Hu. simpl. intros Hframe.
  eexists _, _, _. split; [done|]. simpl.
  split; [done|]. split; [done|].
  split; [apply list_lookup_insert_eq; by eapply lookup_lt_Some|].
  split; [done|]. split; [done|]. split; [done|]. split; [done|].
  split; [apply length_insert|].
  split; [|exact Hframe].
  intros k Hk. by apply list_lookup_insert_ne.
Qed.

End PropertyClaims.

(** ** The scenarios *)

Section Scenarios.

Import UpdateAreaMapStorageCommand Sync Scenario.

(** The diff of the scenario is the single add op of [chat_room]. *)
Example add_chat_room_patch :
  compare AreaDiffEngine.lib (oldConfig add_chat_room) (newConfig add_chat_room)
  = [ {| op := "add"; path := "/properties/1"; value := PVProperty chat_room |} ].
Proof. reflexivity. Qed.

Example add_chat_room_reduce :
  reduce AreaDiffEngine.lib
    (compare AreaDiffEngine.lib (oldConfig add_chat_room)
       (newConfig add_chat_room)) (start add_chat_room)
  = inr {| this := add_chat_room;
           acc := [Post "https://resource.example/rooms" chat_room] |}.
Proof. reflexivity. Qed.

(** C1 fails as stated: the one scheduled call is rejected, so every call
    failed with a raised error; yet [execute] does not reject and the local
    edit is run. *)
Lemma total_failure_counterexample :
  let run := execute AreaDiffEngine.lib add_chat_room unreachable in
  scheduled run = [Post "https://resource.example/rooms" chat_room]
  ∧ (∀ i, ∃ e, outcome unreachable i = Rejected e)
  ∧ rejected run = None
  ∧ super_execute run = Some (newConfig add_chat_room).
Proof.
  split; [reflexivity|]. split; [|split; reflexivity].
  intros i. eexists. reflexivity.
Qed.

Lemma total_failure_still_commits_witness :
  let run := execute AreaDiffEngine.lib add_chat_room unreachable in
  rejected run = None
  ∧ notified run = None
  ∧ (∃ e, console_error run = [e])
  ∧ super_execute run = Some (newConfig add_chat_room)
  ∧ shouldNotifyUpdate (settled run) = false.
Proof.
  apply (total_failure_still_commits AreaDiffEngine.lib add_chat_room
           unreachable
           {| this := add_chat_room;
              acc := [Post "https://resource.example/rooms" chat_room] |}).
  - reflexivity.
  - simpl. discriminate.
  - intros i _. eexists. reflexivity.
Defined.


(** C2 fails as stated: the create call resolves with a body that passes the
    schema and carries no [serverData]; the flag is raised all the same, and
    the room server is notified. *)
Lemma notify_without_serverData_counterexample :
  let run := execute AreaDiffEngine.lib add_chat_room echo_without_serverData in
  (∀ i data, outcome echo_without_serverData i = Fulfilled (Valid data) →
             serverData data = None)
  ∧ shouldNotifyUpdate (settled run) = true
  ∧ notified run = Some (notifyAreaUpdate add_chat_room).
Proof.
  split; [|split; reflexivity].
  intros i data [= <-]. reflexivity.
Qed.

Lemma shouldNotify_iff_valid_create_witness :
  shouldNotifyUpdate
    (settled (execute AreaDiffEngine.lib add_chat_room echo_without_serverData))
  = true.
Proof.
  apply (proj1 (shouldNotify_iff_valid_create AreaDiffEngine.lib add_chat_room
                  echo_without_serverData)).
  exists 0, "https://resource.example/rooms", chat_room, chat_room.
  split; reflexivity.
Defined.

(** C3 fails as stated: the create call resolves with a schema-valid body;
    the reconciled property with the id of the add op has the
    [serverData] of the response, but its other fields are those of the
    response, not those given in the proposed configuration. *)
Lemma create_response_counterexample :
  let run := execute AreaDiffEngine.lib add_chat_room answers_rewritten in
  super_execute run = Some (area [silent_zone; rewritten])
  ∧ prop_id rewritten = prop_id chat_room
  ∧ serverData rewritten = Some (Js.Obj "{roomId:42}")
  ∧ rest rewritten ≠ rest chat_room
  ∧ ressourceUrl rewritten ≠ ressourceUrl chat_room.
Proof. repeat split; (reflexivity || discriminate). Qed.

(** The cache of the scenario of C5 holds the previous version of
    [chat_room], with the payload fetched earlier, in front of the other
    property; the edit changes a label of [chat_room], which sits at index 1
    of [newConfig]. *)
Lemma replace_repopulates_from_cache_witness :
  let c :=
    {| gameMap := Some {[ "area-1" := [cached_chat_room; silent_zone] ]};
       oldConfig := area [silent_zone; cached_chat_room];
       newConfig := area [silent_zone; chat_room];
       backAddress := "back:50051" |} in
  ∃ r' props' p',
    reducer AreaDiffEngine.lib (start c)
      {| op := "replace"; path := "/properties/1/displayName";
         value := PVJs (Js.Str "lobby chat") |}
    = Return r'
    ∧ acc r' = [Patch "https://resource.example/rooms" 1]
    ∧ properties (newConfig (this r')) = Some props'
    ∧ props' !! 1 = Some p'
    ∧ serverData p' = Some (Js.Obj "{roomId:7}")
    ∧ prop_id p' = "p1"
    ∧ ressourceUrl p' = Some "https://resource.example/rooms"
    ∧ rest p' = rest chat_room
    ∧ length props' = 2
    ∧ (∀ k, k ≠ 1 → props' !! k = [silent_zone; chat_room] !! k)
    ∧ same_frame c (this r').
Proof.
  intros c.
  apply (replace_repopulates_from_cache AreaDiffEngine.lib (start c)
           {| op := "replace"; path := "/properties/1/displayName";
              value := PVJs (Js.Str "lobby chat") |}
           1 0 [silent_zone; chat_room] [cached_chat_room; silent_zone]
           chat_room cached_chat_room "https://resource.example/rooms"
           {[ "area-1" := [cached_chat_room; silent_zone] ]}).
  - reflexivity.
  - reflexivity.
  - reflexivity.
  - reflexivity.
  - reflexivity.
  - reflexivity.
  - simpl. apply lookup_singleton_eq.
  - simpl. apply NoDup_cons. split.
    + intros [E|H]%elem_of_cons; [discriminate E|].
      by apply not_elem_of_nil in H.
    + apply NoDup_singleton.
  - reflexivity.
  - reflexivity.
Defined.

(** The same through a whole run: the label changes, the payload fetched
    earlier is kept, the update call goes out, nobody is notified. *)
Example relabel_keeps_serverData :
  let run := execute AreaDiffEngine.lib relabel_chat_room answers_nothing in
  scheduled run = [Patch "https://resource.example/rooms" 1]
  ∧ super_execute run
    = Some (area [silent_zone;
                  set_serverData (Some (Js.Obj "{roomId:7}")) relabelled])
  ∧ notified run = None
  ∧ oldConfig (self (settled run)) = area [silent_zone; cached_chat_room].
Proof. repeat split; reflexivity. Qed.

(** One call refused, one answered later: the rejection ends the wait, the
    local edit runs without the late answer and nothing is dispatched,
    although the late callback still raises the flag and rewrites
    [newConfig]. *)
Example late_answer_after_local_edit :
  let run := execute AreaDiffEngine.lib add_two first_refused in
  length (scheduled run) = 2
  ∧ console_error run = [HttpError "ECONNREFUSED"]
  ∧ notified run = None
  ∧ super_execute run = Some (area [chat_room; whiteboard])
  ∧ shouldNotifyUpdate (settled run) = true
  ∧ newConfig (self (settled run))
    = area [chat_room;
            set_serverData (Some (Js.Obj "{board:1}")) whiteboard].
Proof. repeat split; reflexivity. Qed.

End Scenarios.

(* ===================================================================== *)
(** * Further properties of the command *)
(* ===================================================================== *)

Section EffectFacts.

Import UpdateAreaMapStorageCommand Sync Effects.

Variable jsonpatch : FastJsonPatch.

(** One pass through the reducer does nothing, or what one branch does. *)
Lemma reducer_effect r o : effect jsonpatch r o (after (reducer jsonpatch r o)).
Proof.
  unfold reducer, add_branch, remove_branch, replace_branch.
  destruct (String.eqb_spec (op o) "add") as [Ea|Ea]; [rewrite Ea|]; simpl.
  - destruct (Path.match_properties (path o)) eqn:Em; simpl; [|constructor].
    destruct (value o) as [|v|ps|[]] eqn:Ev; simpl; try constructor.
    destruct (nonempty (ressourceUrl v)) as [url|] eqn:Eu; simpl;
      [|constructor].
    by apply effect_create.
  - destruct (String.eqb_spec (op o) "remove") as [Er|Er]; simpl.
    + destruct (Path.match_properties (path o)) eqn:Em; simpl.
      2:{ rewrite Er. simpl. constructor. }
      rewrite Er. simpl.
      destruct (getValueByPointer jsonpatch _ _) as [e|[|v|ps|w]] eqn:Eg;
        simpl; try constructor.
      * destruct (nonempty (ressourceUrl v)) as [url|] eqn:Eu; simpl;
          [|constructor].
        by apply effect_delete.
      * destruct (Js.truthy w); simpl; constructor.
    + destruct (String.eqb_spec (op o) "replace") as [Ep|Ep]; simpl;
        [|constructor].
      destruct (Path.match_properties (path o)) eqn:Em; simpl; [|constructor].
      destruct (Path.match_property_index (path o)) as [i|] eqn:Ei; simpl;
        [|constructor].
      destruct (properties (newConfig (this r))) as [props|] eqn:Eps; simpl;
        [|constructor].
      destruct (props !! i) as [p|] eqn:Ep'; simpl; [|constructor].
      pose proof (effect_update jsonpatch r o i props p Ep Ei Eps Ep') as H.
      destruct (nonempty (ressourceUrl p)); simpl in *; [done|].
      by rewrite app_nil_r in H.
Qed.

Lemma only_serverData_differs_refl p : only_serverData_differs p p.
Proof. by repeat split. Qed.

Lemma same_but_serverData_refl ps : same_but_serverData ps ps.
Proof.
  destruct ps as [l|]; constructor.
  induction l; constructor; [apply only_serverData_differs_refl|done].
Qed.

Lemma same_but_serverData_trans ps1 ps2 ps3 :
  same_but_serverData ps1 ps2 → same_but_serverData ps2 ps3 →
  same_but_serverData ps1 ps3.
Proof.
  intros H12 H23. inversion H12; subst; inversion H23; subst; constructor.
  eapply Forall2_trans; [|done|done].
  intros p1 p2 p3 (?&?&?) (?&?&?). repeat split; congruence.
Qed.

Lemma update_first_only_serverData f v (l : list AreaDataProperty) :
  Forall2 only_serverData_differs l (update_first f (set_serverData v) l).
Proof.
  induction l as [|x l IH]; simpl; [constructor|].
  destruct (f x); constructor; try done;
    try apply only_serverData_differs_refl.
  apply (same_but_serverData_refl (Some l)) || (
    clear; induction l; constructor;
    [apply only_serverData_differs_refl|done]).
Qed.

Lemma insert_only_serverData v i p (l : list AreaDataProperty) :
  l !! i = Some p →
  Forall2 only_serverData_differs l (<[i:=set_serverData v p]> l).
Proof.
  revert i. induction l as [|x l IH]; intros [|i] Hi; simpl in *; try done.
  - injection Hi as ->. constructor; [done|].
    clear. induction l; constructor;
      [apply only_serverData_differs_refl|done].
  - constructor; [apply only_serverData_differs_refl|by apply IH].
Qed.

Lemma effect_only_serverData r o r' :
  effect jsonpatch r o r' →
  same_but_serverData (properties (newConfig (this r)))
    (properties (newConfig (this r'))).
Proof.
  intros [|v url _ _ _ _|v url _ _ _ _|i props p _ _ Hps Hp]; simpl;
    try apply same_but_serverData_refl.
  - destruct (properties (newConfig (this r))); constructor.
    apply update_first_only_serverData.
  - rewrite Hps. constructor. by apply insert_only_serverData.
Qed.

Lemma same_but_serverData_lookup ps ps' i p :
  same_but_serverData ps ps' →
  ps ≫= (fun l => l !! i) = Some p →
  ∃ p', ps' ≫= (fun l => l !! i) = Some p' ∧ only_serverData_differs p p'.
Proof.
  intros [l l' H|]; simpl; [|done]. intros Hp.
  destruct (Forall2_lookup_l _ _ _ _ _ H Hp) as (p' & ? & ?). by exists p'.
Qed.

Lemma addressed_mono ps ps' call :
  same_but_serverData ps ps' → addressed ps call → addressed ps' call.
Proof.
  intros H. destruct call as [url body|url v|url i]; simpl; try done.
  intros (p & Hp & Hu).
  destruct (same_but_serverData_lookup _ _ _ _ H Hp) as (p' & ? & (_ & E & _)).
  exists p'. by rewrite E.
Qed.

Lemma effect_addressed r o r' :
  effect jsonpatch r o r' →
  Forall (addressed (properties (newConfig (this r)))) (acc r) →
  Forall (addressed (properties (newConfig (this r')))) (acc r').
Proof.
  intros He Hacc.
  assert (Forall (addressed (properties (newConfig (this r')))) (acc r))
    as Hold.
  { eapply Forall_impl; [exact Hacc|]. intros call.
    apply addressed_mono. by eapply effect_only_serverData. }
  destruct He as [|v url _ _ _ Hu|v url _ _ _ Hu|i props p _ _ Hps Hp]; simpl;
    [done|..]; simpl in Hold.
  - apply Forall_app. split; [done|]. constructor; [|done]. simpl.
    destruct (Js.truthy_opt (serverData v)) eqn:Et; simpl; by rewrite ?Et.
  - apply Forall_app. split; [done|]. by constructor.
  - apply Forall_app. split; [done|].
    destruct (nonempty (ressourceUrl p)) as [url|] eqn:Eu; [|done].
    constructor; [|done]. simpl. eexists. split.
    + apply list_lookup_insert_eq. by eapply lookup_lt_Some.
    + exact Eu.
Qed.

Lemma effect_length r o r' :
  effect jsonpatch r o r' →
  length (acc r') ≤ length (acc r) + 1.
Proof.
  intros [|????|????|i props p _ _ _ _]; simpl; rewrite ?length_app; simpl;
    try lia.
  destruct (nonempty (ressourceUrl p)); simpl; lia.
Qed.

(** The loop, seen through [effect]. *)
Lemma reduce_invariant (P : Reduce → Prop) patch :
  (∀ r o r', effect jsonpatch r o r' → P r → P r') →
  ∀ r, P r → P (reduced (reduce jsonpatch patch r)).
Proof.
  intros Hstep. induction patch as [|o patch IH]; intros r Hr; [done|].
  rewrite reducer_reduce. pose proof (reducer_effect r o) as He.
  destruct (reducer jsonpatch r o) as [r'|r'|e r']; simpl in He;
    try (apply IH); by eapply Hstep.
Qed.

End EffectFacts.

Section MoreExecuteFacts.

Import UpdateAreaMapStorageCommand Sync Effects.

Variable jsonpatch : FastJsonPatch.

Lemma first_rejection_None_all evs :
  first_rejection evs = None
  ↔ ∀ c o, (c, o) ∈ evs → ∃ response, o = Fulfilled response.
Proof.
  split.
  - intros H%first_rejection_None c o Hin.
    rewrite Forall_forall in H. apply (H (c, o) Hin).
  - intros H. destruct (first_rejection evs) as [[[before e] after]|] eqn:E;
      [|done].
    apply first_rejection_Some in E as [c ->].
    destruct (H c (Rejected e)) as [response [=]].
    apply elem_of_app. right. apply list_elem_of_here.
Qed.

Lemma all_fulfilled_first_rejection env calls :
  all_fulfilled env calls ↔ first_rejection (settle_order env calls) = None.
Proof.
  rewrite first_rejection_None_all. unfold all_fulfilled. split.
  - intros H c o (i & Hi & ->)%elem_of_settle_order. by eapply H.
  - intros H i call Hi. apply (H call). apply elem_of_settle_order. by exists i.
Qed.

Lemma reduce_app patch1 patch2 r :
  reduce jsonpatch (patch1 ++ patch2) r
  = match reduce jsonpatch patch1 r with
    | inr r' => reduce jsonpatch patch2 r'
    | inl x => inl x
    end.
Proof.
  revert r. induction patch1 as [|o patch1 IH]; intros r; simpl; [done|].
  destruct (reducer jsonpatch r o); by rewrite ?IH.
Qed.

Lemma reduce_length patch : ∀ r,
  length (acc (reduced (reduce jsonpatch patch r))) ≤ length (acc r) + length patch.
Proof.
  induction patch as [|o patch IH]; intros r; [simpl; lia|].
  rewrite reducer_reduce.
  pose proof (effect_length jsonpatch _ _ _ (reducer_effect jsonpatch r o)) as H.
  destruct (reducer jsonpatch r o) as [r'|r'|e r']; simpl in *;
    try (specialize (IH r')); lia.
Qed.

(** What a run is when the reducer got through the patch. *)
Lemma execute_after_reduce c env r :
  reduce jsonpatch (compare jsonpatch (oldConfig c) (newConfig c)) (start c)
  = inr r →
  let evs := settle_order env (acc r) in
  let s0 := {| self := this r; shouldNotifyUpdate := false |} in
  execute jsonpatch c env
  = match first_rejection evs with
    | None =>
        let s := run_callbacks evs s0 in
        {| rejected := None; scheduled := acc r; console_error := [];
           notified :=
             if shouldNotifyUpdate s then Some (notifyAreaUpdate (self s))
             else None;
           super_execute := Some (newConfig (self s));
           settled := s |}
    | Some (before, e, after) =>
        let s := run_callbacks before s0 in
        {| rejected := None; scheduled := acc r; console_error := [e];
           notified := None;
           super_execute := Some (newConfig (self s));
           settled := run_callbacks after s |}
    end.
Proof. intros Hr. unfold execute. fold (start c). by rewrite Hr. Qed.

Lemma execute_rejected_None c env :
  rejected (execute jsonpatch c env) = None →
  ∃ r, reduce jsonpatch (compare jsonpatch (oldConfig c) (newConfig c))
         (start c) = inr r.
Proof.
  unfold execute. fold (start c).
  destruct (reduce jsonpatch _ (start c)) as [[e r]|r]; [done|]. by exists r.
Qed.

End MoreExecuteFacts.

Section MoreClaims.

Import UpdateAreaMapStorageCommand Sync Effects.

(** X1: the room server is notified exactly when the reducer got through
    the patch, every scheduled call resolved, and some create call resolved
    with a non-empty body that passes the schema. *)
Theorem notified_iff (jsonpatch : FastJsonPatch) (c : Command) (env : Env) :
  let run := execute jsonpatch c env in
  is_Some (notified run)
  ↔ rejected run = None
    ∧ all_fulfilled env (scheduled run)
    ∧ ∃ i url body data,
        scheduled run !! i = Some (Post url body)
        ∧ outcome env i = Fulfilled (Valid data).
Proof.
  simpl. pose proof (execute_flag jsonpatch c env) as Hflag.
  destruct (reduce jsonpatch (compare jsonpatch (oldConfig c) (newConfig c))
              (start c)) as [[e r]|r] eqn:Hr.
  { unfold execute. fold (start c). rewrite Hr. simpl. split.
    - by intros [? [=]].
    - by intros [[=] _]. }
  rewrite (execute_after_reduce jsonpatch c env r Hr) in Hflag |- *.
  simpl in *.
  destruct (first_rejection (settle_order env (acc r)))
    as [[[before e] after]|] eqn:E; simpl in *.
  - split; [by intros [? [=]]|]. intros (_ & Hall & _).
    apply all_fulfilled_first_rejection in Hall. congruence.
  - apply all_fulfilled_first_rejection in E.
    destruct (shouldNotifyUpdate _) eqn:F; split.
    + intros _. split; [done|]. split; [done|]. by apply Hflag.
    + by eexists.
    + by intros [? [=]].
    + intros (_ & _ & H). apply Hflag in H. done.
Qed.

(** X2: a notification goes to the back address of the command and carries
    the id of [newConfig], the flag [modifyProperties], and the very
    properties that the local edit is run with. *)
Theorem notification_carries_reconciled (jsonpatch : FastJsonPatch)
  (c : Command) (env : Env) (address : string) (msg : ModifyAreaMessage) :
  notified (execute jsonpatch c env) = Some (address, msg) →
  address = backAddress c
  ∧ msg_id msg = area_id (newConfig c)
  ∧ modifyProperties msg = true
  ∧ ∃ reconciled,
      super_execute (execute jsonpatch c env) = Some reconciled
      ∧ msg_properties msg = AreaDiffEngine.properties_of reconciled.
Proof.
  intros Hn.
  destruct (execute_rejected_None jsonpatch c env) as [r Hr].
  { unfold execute in *. fold (start c) in *.
    destruct (reduce jsonpatch _ (start c)) as [[e r]|r]; [done|].
    by destruct (first_rejection _) as [[[? ?] ?]|]. }
  pose proof (reduce_steps jsonpatch
                (compare jsonpatch (oldConfig c) (newConfig c)) (start c))
    as [Hf _].
  rewrite Hr in Hf. simpl in Hf.
  rewrite (execute_after_reduce jsonpatch c env r Hr) in *. simpl in *.
  destruct (first_rejection (settle_order env (acc r)))
    as [[[before e] after]|]; simpl in *; [done|].
  destruct (shouldNotifyUpdate _); [|done].
  injection Hn as <- <-. simpl.
  pose proof (run_callbacks_frame (settle_order env (acc r))
                {| self := this r; shouldNotifyUpdate := false |}) as Hf'.
  destruct (same_frame_trans _ _ _ Hf Hf') as (_ & _ & Hb & Hi & _).
  repeat split; try done. by eexists.
Qed.

Lemma notification_carries_reconciled_witness :
  let run := execute AreaDiffEngine.lib Scenario.add_chat_room
               Scenario.answers_rewritten in
  "back:50051" = backAddress Scenario.add_chat_room
  ∧ "area-1" = area_id (newConfig Scenario.add_chat_room)
  ∧ true = true
  ∧ ∃ reconciled,
      super_execute run = Some reconciled
      ∧ [Scenario.silent_zone; Scenario.rewritten]
        = AreaDiffEngine.properties_of reconciled.
Proof.
  apply (notification_carries_reconciled AreaDiffEngine.lib
           Scenario.add_chat_room Scenario.answers_rewritten "back:50051"
           {| msg_id := "area-1";
              msg_properties := [Scenario.silent_zone; Scenario.rewritten];
              modifyProperties := true |}).
  reflexivity.
Defined.

(** X3: when every scheduled call resolves, the local edit is run with
    [newConfig] as every callback left it, and the requests have nothing
    logged: all that the run gives to [console.error] comes from the
    dispatch, when there is one: the exception thrown inside
    [notifyAreaUpdate], if any, or else "error dans le dispatch" when the
    room server answers with an error. *)
Theorem all_fulfilled_commits_final (jsonpatch : FastJsonPatch) (c : Command)
  (env : Env) (dispatch : Dispatch) :
  let run := execute jsonpatch c env in
  rejected run = None →
  all_fulfilled env (scheduled run) →
  super_execute run = Some (newConfig (self (settled run)))
  ∧ console dispatch run
    = match notified run, dispatch with
      | Some _, Throws e => [FailedRequests e]
      | Some _, Answered (Some _) => [DispatchError]
      | _, _ => []
      end.
Proof.
  simpl. intros [r Hr]%execute_rejected_None.
  rewrite (execute_after_reduce jsonpatch c env r Hr). simpl.
  destruct (first_rejection (settle_order env (acc r)))
    as [[[before e] after]|] eqn:E; simpl.
  { intros Hall%all_fulfilled_first_rejection. congruence. }
  intros _. split; [done|]. unfold console. simpl.
  destruct (shouldNotifyUpdate _); [|done].
  by destruct dispatch as [e|[e|]].
Qed.

Lemma all_fulfilled_commits_final_witness :
  let run := execute AreaDiffEngine.lib Scenario.add_chat_room
               Scenario.answers_rewritten in
  super_execute run = Some (newConfig (self (settled run)))
  ∧ console (Answered (Some (HttpError "UNAVAILABLE"))) run = [DispatchError].
Proof.
  apply (all_fulfilled_commits_final AreaDiffEngine.lib Scenario.add_chat_room
           Scenario.answers_rewritten
           (Answered (Some (HttpError "UNAVAILABLE")))).
  - reflexivity.
  - intros i call _. eexists. reflexivity.
Defined.

(** X4: as soon as one scheduled call is rejected, exactly one error is
    logged, the reason of a rejected call; nothing is dispatched to the room
    server; [execute] does not reject and the local edit is still run. *)
Theorem one_rejection_is_logged_once (jsonpatch : FastJsonPatch) (c : Command)
  (env : Env) (i : nat) (call : Call) (reason : Error) :
  let run := execute jsonpatch c env in
  rejected run = None →
  scheduled run !! i = Some call →
  outcome env i = Rejected reason →
  (∃ j call' e, console_error run = [e]
                ∧ scheduled run !! j = Some call'
                ∧ outcome env j = Rejected e)
  ∧ notified run = None
  ∧ is_Some (super_execute run).
Proof.
  simpl. intros [r Hr]%execute_rejected_None.
  rewrite (execute_after_reduce jsonpatch c env r Hr). simpl.
  destruct (first_rejection (settle_order env (acc r)))
    as [[[before e] after]|] eqn:E; simpl.
  - intros _ _. split; [|by split].
    apply first_rejection_Some in E as [call' E].
    assert ((call', Rejected e) ∈ settle_order env (acc r))
      as (j & ? & ?)%elem_of_settle_order.
    { rewrite E. apply elem_of_app. right. apply list_elem_of_here. }
    by exists j, call', e.
  - intros Hi Ho. apply all_fulfilled_first_rejection in E.
    destruct (E i call Hi) as [response ?]. congruence.
Qed.

Lemma one_rejection_is_logged_once_witness :
  let run := execute AreaDiffEngine.lib Scenario.add_two
               Scenario.first_refused in
  (∃ j call' e, console_error run = [e]
                ∧ scheduled run !! j = Some call'
                ∧ outcome Scenario.first_refused j = Rejected e)
  ∧ notified run = None
  ∧ is_Some (super_execute run).
Proof.
  apply (one_rejection_is_logged_once AreaDiffEngine.lib Scenario.add_two
           Scenario.first_refused 0
           (Post "https://resource.example/rooms" Scenario.chat_room)
           (HttpError "ECONNREFUSED")).
  - reflexivity.
  - reflexivity.
  - reflexivity.
Defined.

End MoreClaims.

Section ReducePhaseClaims.

Import UpdateAreaMapStorageCommand Sync Effects.

(** X5: every call a run schedules goes to the non-empty [ressourceUrl] of
    the object it carries (for an update call, the property at its index in
    [newConfig] as the reducer leaves it), and no create body carries a
    truthy [serverData]. *)
Theorem calls_are_addressed (jsonpatch : FastJsonPatch) (c : Command)
  (env : Env) :
  let r := reduced (reduce jsonpatch
                      (compare jsonpatch (oldConfig c) (newConfig c))
                      (start c)) in
  Forall (addressed (properties (newConfig (this r))))
    (scheduled (execute jsonpatch c env)).
Proof.
  simpl. destruct (execute_settled jsonpatch c env) as [-> _].
  apply (reduce_invariant jsonpatch
           (fun r => Forall (addressed (properties (newConfig (this r))))
                       (acc r))).
  - apply effect_addressed.
  - constructor.
Qed.

(** X6: a run schedules at most one call per op of the patch that targets
    [properties]. *)
Theorem at_most_one_call_per_op (jsonpatch : FastJsonPatch) (c : Command)
  (env : Env) :
  length (scheduled (execute jsonpatch c env))
  ≤ length (filter (fun o => targets_properties o)
              (compare jsonpatch (oldConfig c) (newConfig c))).
Proof.
  destruct (execute_settled jsonpatch c env) as [-> _].
  rewrite reduce_filter.
  apply (reduce_length jsonpatch _ (start c)).
Qed.

(** X7: the reducer writes to [serverData] only: when it is through, or
    has thrown, [newConfig.properties] is still absent or has the same
    length, and each property has the id, the [ressourceUrl] and the other
    fields it was proposed with. *)
Theorem reducer_writes_serverData_only (jsonpatch : FastJsonPatch)
  (patch : list Operation) (r : Reduce) :
  same_but_serverData (properties (newConfig (this r)))
    (properties (newConfig (this (reduced (reduce jsonpatch patch r))))).
Proof.
  apply (reduce_invariant jsonpatch
           (fun r' => same_but_serverData (properties (newConfig (this r)))
                        (properties (newConfig (this r'))))).
  - intros r1 o r2 He H. eapply same_but_serverData_trans; [exact H|].
    by eapply effect_only_serverData.
  - apply same_but_serverData_refl.
Qed.

(** X8: when no op of the patch targets [properties], a run schedules no
    call, logs and dispatches nothing, and runs the local edit with
    [newConfig] exactly as proposed. *)
Theorem edit_outside_properties_passes_through (jsonpatch : FastJsonPatch)
  (c : Command) (env : Env) :
  (∀ o, o ∈ compare jsonpatch (oldConfig c) (newConfig c) →
        targets_properties o = false) →
  execute jsonpatch c env
  = {| rejected := None; scheduled := []; console_error := [];
       notified := None; super_execute := Some (newConfig c);
       settled := {| self := c; shouldNotifyUpdate := false |} |}.
Proof.
  intros H.
  assert (filter (fun o => targets_properties o)
            (compare jsonpatch (oldConfig c) (newConfig c)) = []) as Hnil.
  { induction (compare jsonpatch (oldConfig c) (newConfig c)) as [|o l IH];
      [done|].
    rewrite filter_cons_False.
    - apply IH. intros o' Ho'. apply H. by apply list_elem_of_further.
    - apply Is_true_false_2, H, list_elem_of_here. }
  rewrite (execute_after_reduce jsonpatch c env (start c)).
  - reflexivity.
  - by rewrite reduce_filter, Hnil.
Qed.

Lemma edit_outside_properties_passes_through_witness :
  execute renaming_lib Scenario.add_chat_room Scenario.unreachable
  = {| rejected := None; scheduled := []; console_error := [];
       notified := None;
       super_execute := Some (newConfig Scenario.add_chat_room);
       settled := {| self := Scenario.add_chat_room;
                     shouldNotifyUpdate := false |} |}.
Proof.
  apply (edit_outside_properties_passes_through renaming_lib
           Scenario.add_chat_room Scenario.unreachable).
  intros o [->|H]%elem_of_cons; [reflexivity|].
  by apply elem_of_nil in H.
Defined.

(** X9: a replace op whose index lies beyond the end of
    [newConfig.properties] makes the reducer throw: [execute] rejects with
    a [TypeError], the local edit is not run and nothing is dispatched,
    while the calls scheduled by the ops before it stay scheduled. *)
Theorem replace_out_of_range_rejects (jsonpatch : FastJsonPatch) (c : Command)
  (env : Env) (before after : list Operation) (o : Operation) (r1 : Reduce)
  (i : nat) (props : list AreaDataProperty) :
  compare jsonpatch (oldConfig c) (newConfig c) = before ++ o :: after →
  reduce jsonpatch before (start c) = inr r1 →
  op o = "replace" →
  Path.match_property_index (path o) = Some i →
  properties (newConfig (this r1)) = Some props →
  length props ≤ i →
  let run := execute jsonpatch c env in
  (∃ msg, rejected run = Some (TypeError msg))
  ∧ super_execute run = None
  ∧ notified run = None
  ∧ scheduled run = acc r1.
Proof.
  intros Hc Hb Hop Hi Hps Hlen. simpl.
  assert (reducer jsonpatch r1 o
          = Throw (TypeError "Cannot read properties of undefined") r1) as Ht.
  { pose proof (match_property_index_properties _ _ Hi) as Hm.
    unfold reducer, add_branch, remove_branch, replace_branch.
    rewrite Hop, Hm. simpl. rewrite Hi, Hps. simpl.
    by rewrite (lookup_ge_None_2 props i). }
  unfold execute. fold (start c). rewrite Hc, reduce_app, Hb. simpl.
  rewrite Ht. simpl. split; [by eexists|done].
Qed.

Lemma replace_out_of_range_rejects_witness :
  let run := execute dangling_lib Scenario.add_chat_room
               Scenario.answers_rewritten in
  (∃ msg, rejected run = Some (TypeError msg))
  ∧ super_execute run = None
  ∧ notified run = None
  ∧ scheduled run
    = [Post "https://resource.example/rooms" Scenario.chat_room].
Proof.
  apply (replace_out_of_range_rejects dangling_lib Scenario.add_chat_room
           Scenario.answers_rewritten
           [ {| op := "add"; path := "/properties/1";
                value := PVProperty Scenario.chat_room |} ]
           []
           {| op := "replace"; path := "/properties/7/displayName";
              value := PVJs (Js.Str "x") |}
           {| this := Scenario.add_chat_room;
              acc := [Post "https://resource.example/rooms"
                        Scenario.chat_room] |}
           7 [Scenario.silent_zone; Scenario.chat_room]).
  - reflexivity.
  - reflexivity.
  - reflexivity.
  - reflexivity.
  - reflexivity.
  - simpl. lia.
Defined.

(** X10: a second replace op on the same property (another field of it)
    writes nothing new to [newConfig] and schedules the same update call once
    more: one update call per replace op, not per property. *)
Theorem replace_twice_same_property (jsonpatch : FastJsonPatch)
  (r r1 : Reduce) (o o' : Operation) (i : nat) :
  op o = "replace" → op o' = "replace" →
  Path.match_property_index (path o) = Some i →
  Path.match_property_index (path o') = Some i →
  reducer jsonpatch r o = Return r1 →
  ∃ new,
    acc r1 = acc r ++ new
    ∧ reducer jsonpatch r1 o' = Return {| this := this r1; acc := acc r1 ++ new |}.
Proof.
  intros Hop Hop' Hi Hi'.
  pose proof (match_property_index_properties _ _ Hi) as Hm.
  pose proof (match_property_index_properties _ _ Hi') as Hm'.
  unfold reducer, add_branch, remove_branch, replace_branch.
  rewrite Hop, Hop', Hm, Hm'. simpl. rewrite Hi, Hi'. simpl.
  destruct (properties (newConfig (this r))) as [props|] eqn:Eps; simpl.
  2:{ intros [= <-]. exists []. rewrite Eps, !app_nil_r. by destruct r. }
  destruct (props !! i) as [p|] eqn:Ep; simpl; [|done].
  destruct (nonempty (ressourceUrl p)) as [url|] eqn:Eu; simpl;
    intros [= <-]; simpl.
  - exists [Patch url i]. split; [done|].
    rewrite list_lookup_insert_eq by by eapply lookup_lt_Some. simpl.
    unfold cached_serverData in *. simpl in *. rewrite Eu. simpl.
    do 2 f_equal. by rewrite list_insert_insert_eq.
  - exists []. split; [by rewrite app_nil_r|].
    rewrite list_lookup_insert_eq by by eapply lookup_lt_Some. simpl.
    rewrite Eu. simpl. rewrite app_nil_r.
    do 2 f_equal. unfold set_newConfig, set_properties. simpl.
    unfold cached_serverData. simpl. by rewrite list_insert_insert_eq.
Qed.

Lemma replace_twice_same_property_witness :
  let r := start Scenario.relabel_chat_room in
  let r1 :=
    {| this :=
         set_newConfig
           (Scenario.area
              [Scenario.silent_zone;
               set_serverData (Some (Js.Obj "{roomId:7}")) Scenario.relabelled])
           Scenario.relabel_chat_room;
       acc := [Patch "https://resource.example/rooms" 1] |} in
  ∃ new,
    acc r1 = acc r ++ new
    ∧ reducer AreaDiffEngine.lib r1
        {| op := "replace"; path := "/properties/1/hideButtonLabel";
           value := PVJs (Js.Bool true) |}
      = Return {| this := this r1; acc := acc r1 ++ new |}.
Proof.
  intros r r1.
  apply (replace_twice_same_property AreaDiffEngine.lib r r1
           {| op := "replace"; path := "/properties/1/displayName";
              value := PVJs (Js.Str "meeting chat") |}
           {| op := "replace"; path := "/properties/1/hideButtonLabel";
              value := PVJs (Js.Bool true) |} 1).
  - reflexivity.
  - reflexivity.
  - reflexivity.
  - reflexivity.
  - reflexivity.
Defined.

(** X11: a remove op never writes to [this]; it schedules a delete call
    exactly when its pointer passes the test and resolves, in [oldConfig],
    to an object with a non-empty [ressourceUrl], and that object is what the
    call carries. *)
Theorem remove_only_deletes (jsonpatch : FastJsonPatch) (r : Reduce)
  (o : Operation) :
  op o = "remove" →
  this (after (reducer jsonpatch r o)) = this r
  ∧ acc (after (reducer jsonpatch r o))
    = acc r
      ++ (if Path.match_properties (path o) then
            match getValueByPointer jsonpatch (oldConfig (this r)) (path o) with
            | inr (PVProperty v) =>
                match nonempty (ressourceUrl v) with
                | Some url => [Delete url v]
                | None => []
                end
            | _ => []
            end
          else []).
Proof.
  intros Hop. unfold reducer, add_branch, remove_branch, replace_branch.
  rewrite Hop. simpl.
  destruct (Path.match_properties (path o)); simpl;
    [|by rewrite app_nil_r].
  destruct (getValueByPointer jsonpatch _ _) as [e|[|v|ps|w]]; simpl;
    rewrite ?app_nil_r; try done.
  - destruct (nonempty (ressourceUrl v)); simpl; by rewrite ?app_nil_r.
  - destruct (Js.truthy w); simpl; by rewrite ?app_nil_r.
Qed.

Lemma remove_only_deletes_witness :
  let r := start Scenario.add_chat_room in
  let o := AreaDiffEngine.operation_remove 0 in
  this (after (reducer AreaDiffEngine.lib r o)) = this r
  ∧ acc (after (reducer AreaDiffEngine.lib r o)) = [].
Proof.
  intros r o.
  apply (remove_only_deletes AreaDiffEngine.lib r o).
  reflexivity.
Defined.

End ReducePhaseClaims.

(** ** More on the two regular expressions *)

Section MorePathFacts.

Import UpdateAreaMapStorageCommand Sync Effects Path.

Lemma take_digits_app s rest :
  take_digits s = s → starts_without_digit rest →
  take_digits (s +:+ rest) = s.
Proof.
  intros Hs Hrest. induction s as [|c s IH]; simpl in *.
  - destruct rest as [|c rest]; [done|]. simpl in *. by rewrite Hrest.
  - destruct (is_digit c); [|done]. injection Hs as Hs. by rewrite IH.
Qed.

Lemma strip_prefix_app p s : strip_prefix p (p +:+ s) = Some s.
Proof.
  induction p as [|a p IH]; simpl; [done|]. by rewrite Ascii.eqb_refl.
Qed.

(** X12: the guard of the three branches is a bare prefix test, so a path
    under any key that starts with the letters of [properties] passes it: an
    add op there, with a value that has a non-empty [ressourceUrl], schedules
    a create call like an add op on a property. *)
Theorem add_under_lookalike_key_is_synced (jsonpatch : FastJsonPatch)
  (r : Reduce) (suffix : string) (v : AreaDataProperty) (url : string) :
  nonempty (ressourceUrl v) = Some url →
  acc (after (reducer jsonpatch r
                {| op := "add"; path := "/properties" +:+ suffix;
                   value := PVProperty v |}))
  = acc r ++ [Post url (if Js.truthy_opt (serverData v)
                        then set_serverData None v else v)].
Proof.
  intros Hu. unfold reducer, add_branch, remove_branch, replace_branch.
  simpl op. simpl path. simpl value.
  assert (match_properties ("/properties" +:+ suffix) = true) as ->.
  { unfold match_properties. by rewrite strip_prefix_app. }
  simpl. by rewrite Hu.
Qed.

Lemma add_under_lookalike_key_is_synced_witness :
  acc (after (reducer AreaDiffEngine.lib (start Scenario.add_chat_room)
                {| op := "add"; path := "/propertiesBackup/0";
                   value := PVProperty Scenario.chat_room |}))
  = [Post "https://resource.example/rooms" Scenario.chat_room].
Proof.
  apply (add_under_lookalike_key_is_synced AreaDiffEngine.lib
           (start Scenario.add_chat_room) "Backup/0" Scenario.chat_room
           "https://resource.example/rooms").
  reflexivity.
Defined.

(** X13: the index that the replace branch reads from a path is the
    number written after [/properties/], whatever follows it: the pointer of
    slot [i] (an index that a JS number holds exactly), extended by anything
    that does not start with a digit, gives [i] back. *)
Theorem index_of_extended_pointer (i : nat) (rest : string) :
  (Z.of_nat i < 2 ^ 53)%Z →
  starts_without_digit rest →
  match_property_index (property_pointer i +:+ rest) = Some i.
Proof.
  intros _ Hrest. unfold match_property_index.
  change (property_pointer i +:+ rest)
    with ("/properties/" +:+ (of_index i +:+ rest)).
  rewrite strip_prefix_app.
  rewrite take_digits_app by (done || apply take_digits_of_index).
  pose proof (of_index_not_empty i) as H.
  destruct (of_index i) eqn:E; [done|].
  by rewrite <- E, Number_of_index.
Qed.

Lemma index_of_extended_pointer_witness :
  match_property_index (property_pointer 12 +:+ "/serverData/roomId") = Some 12.
Proof.
  apply (index_of_extended_pointer 12 "/serverData/roomId").
  - reflexivity.
  - reflexivity.
Defined.

(** X14: a replace op whose path has no digit right after [/properties/]
    passes the first test but gives no index: the reducer returns the
    accumulator and [this] untouched. *)
Theorem replace_without_index_is_skipped (jsonpatch : FastJsonPatch)
  (r : Reduce) (rest : string) (v : PatchValue) :
  starts_without_digit rest →
  reducer jsonpatch r
    {| op := "replace"; path := "/properties/" +:+ rest; value := v |}
  = Return r.
Proof.
  intros Hrest. unfold reducer, add_branch, remove_branch, replace_branch.
  simpl op. simpl path.
  assert (match_properties ("/properties/" +:+ rest) = true) as ->.
  { unfold match_properties.
    change ("/properties/" +:+ rest) with ("/properties" +:+ ("/" +:+ rest)).
    by rewrite strip_prefix_app. }
  assert (match_property_index ("/properties/" +:+ rest) = None) as ->.
  { unfold match_property_index. rewrite strip_prefix_app.
    destruct rest as [|c rest]; [done|]. simpl in *. by rewrite Hrest. }
  done.
Qed.

Lemma replace_without_index_is_skipped_witness :
  reducer AreaDiffEngine.lib (start Scenario.relabel_chat_room)
    {| op := "replace"; path := "/properties/-/displayName";
       value := PVJs (Js.Str "x") |}
  = Return (start Scenario.relabel_chat_room).
Proof.
  apply (replace_without_index_is_skipped AreaDiffEngine.lib
           (start Scenario.relabel_chat_room) "-/displayName"
           (PVJs (Js.Str "x"))).
  reflexivity.
Defined.

End MorePathFacts.

(* ===================================================================== *)
(** * The other endpoints of AdminController *)
(* ===================================================================== *)

Section EndpointFacts.

Import AdminController AdminEndpoints.

Lemma race_all {A} fuel : ∀ picks (pending : list A),
  length pending ≤ fuel → race fuel picks pending ≡ₚ pending.
Proof.
  induction fuel as [|fuel IH]; intros picks pending Hlen.
  - destruct pending; [done|simpl in Hlen; lia].
  - destruct pending as [|x0 pending]; [done|].
    cbn [race].
    assert (hd 0 picks mod length (x0 :: pending) < length (x0 :: pending))
      as Hk by (apply Nat.mod_upper_bound; simpl; lia).
    destruct (lookup_lt_is_Some_2 _ _ Hk) as [x Hx]. rewrite Hx.
    rewrite IH.
    + symmetry. by apply delete_Permutation.
    + rewrite length_delete by by eexists. simpl in *. lia.
Qed.

Lemma unicast_served repository roomId rpc :
  (unicast repository roomId rpc).2 = inr () ↔ served repository roomId rpc.
Proof.
  unfold unicast, served. destruct (repository roomId) as [e|roomClient].
  - split; [done|]. by intros (? & [=] & _).
  - destruct (roomClient rpc) eqn:E; simpl; split; try done.
    + intros (c & [= <-] & ?). congruence.
    + intros _. by exists roomClient.
Qed.

Lemma promise_all_ok picks (promises : list (Thrown + unit)) :
  promise_all picks promises = inr ()
  ↔ ∀ p, p ∈ promises → p = inr ().
Proof.
  unfold promise_all.
  pose proof (race_all (length promises) picks promises (le_n _)) as Hperm.
  destruct (List.find _ (race (length promises) picks promises))
    as [[e|[]]|] eqn:E.
  - apply find_some in E as [Hin _]. split; [done|]. intros H.
    apply list_elem_of_In in Hin. rewrite Hperm in Hin. by apply H in Hin.
  - by apply find_some in E as [_ ?].
  - split; [|done]. intros _ p Hp. rewrite <- Hperm in Hp.
    apply list_elem_of_In in Hp.
    pose proof (find_none _ _ E p Hp) as H. simpl in H.
    by destruct p as [e|[]].
Qed.

Lemma promise_all_failed picks (promises : list (Thrown + unit)) e :
  promise_all picks promises = inl e → inl e ∈ promises.
Proof.
  unfold promise_all.
  pose proof (race_all (length promises) picks promises (le_n _)) as Hperm.
  destruct (List.find _ (race (length promises) picks promises))
    as [[e'|[]]|] eqn:E; try done.
  intros [= ->]. apply find_some in E as [Hin _].
  apply list_elem_of_In in Hin. by rewrite Hperm in Hin.
Qed.

End EndpointFacts.

Section EndpointClaims.

Import AdminController AdminEndpoints.

(** X15: [/message] is all or nothing towards its caller: with a valid
    body it replies "ok" exactly when every target is served; when it fails,
    the error is that of one of the targets; and in both cases one request
    goes to every target whose client could be obtained, and no other
    request goes out, whichever promise settled first. *)
Theorem message_is_all_or_nothing (repository : Repository) (picks : list nat)
  (body : Json) (text type : string) (items : list Json) :
  get "text" body = inr (Some (JStr text)) →
  get "type" body = inr (Some (JStr type)) →
  type = "capacity" ∨ type = "message" →
  get "targets" body = inr (Some (JArr items)) →
  let result := receiveGlobalMessagePrompt repository picks body in
  (result.2 = Replied "ok"
   ↔ ∀ roomId, roomId ∈ items →
       served repository roomId (message_rpc type text roomId))
  ∧ (∀ e, result.2 = Failed e →
       ∃ roomId, roomId ∈ items
         ∧ (unicast repository roomId (message_rpc type text roomId)).2 = inl e)
  ∧ result.1
    ≡ₚ concat ((fun roomId =>
                  (unicast repository roomId (message_rpc type text roomId)).1)
                 <$> items).
Proof.
  intros Htext Htype Hkind Htargets. simpl.
  unfold receiveGlobalMessagePrompt.
  rewrite Htext, Htype, Htargets. simpl.
  assert (String.eqb type "capacity" || String.eqb type "message" = true)
    as ->.
  { destruct Hkind as [-> | ->]; reflexivity. }
  simpl. change (map ?f items) with (f <$> items).
  rewrite <- !list_fmap_compose.
  destruct (promise_all picks _) as [e|[]] eqn:E; simpl.
  - split; [|split; [|done]].
    + split; [done|]. intros H.
      assert (promise_all picks
                ((snd ∘ (fun roomId =>
                           unicast repository roomId
                             (message_rpc type text roomId))) <$> items)
              = inr ()) as E'; [|unfold message_rpc in E'; congruence].
      apply promise_all_ok. intros p (roomId & -> & Hin)%list_elem_of_fmap.
      simpl. by apply unicast_served, H.
    + intros e' [= <-]. apply promise_all_failed in E.
      apply list_elem_of_fmap in E as (roomId & ? & ?). by exists roomId.
  - split; [|split; [done|done]].
    split; [|done]. intros _ roomId Hin.
    apply unicast_served.
    rewrite promise_all_ok in E. apply E.
    apply list_elem_of_fmap. by exists roomId.
Qed.

Lemma message_is_all_or_nothing_witness :
  let repository : Repository := fun _ => inr (fun _ => None) in
  let body :=
    JObj [("text", JStr "maintenance at noon"); ("type", JStr "message");
          ("targets", JArr [JStr "room-a"; JStr "room-b"])] in
  let result := receiveGlobalMessagePrompt repository [1] body in
  (result.2 = Replied "ok"
   ↔ ∀ roomId, roomId ∈ [JStr "room-a"; JStr "room-b"] →
       served repository roomId
         (message_rpc "message" "maintenance at noon" roomId))
  ∧ (∀ e, result.2 = Failed e →
       ∃ roomId, roomId ∈ [JStr "room-a"; JStr "room-b"]
         ∧ (unicast repository roomId
              (message_rpc "message" "maintenance at noon" roomId)).2 = inl e)
  ∧ result.1
    ≡ₚ [sendAdminMessageToRoom "maintenance at noon" (JStr "room-a") "";
        sendAdminMessageToRoom "maintenance at noon" (JStr "room-b") ""].
Proof.
  intros repository body.
  apply (message_is_all_or_nothing repository [1] body "maintenance at noon"
           "message" [JStr "room-a"; JStr "room-b"]).
  - reflexivity.
  - reflexivity.
  - by right.
  - reflexivity.
Defined.

(** X16: the check of [targets] lets any object through: with a valid
    text and type and an object that is not an array, the handler does not
    answer "Incorrect targets parameter" but fails on [targets.map] with a
    [TypeError], before any request is sent. *)
Theorem message_object_targets_type_error (repository : Repository)
  (picks : list nat) (body : Json) (text type : string)
  (fields : list (string * Json)) :
  get "text" body = inr (Some (JStr text)) →
  get "type" body = inr (Some (JStr type)) →
  type = "capacity" ∨ type = "message" →
  get "targets" body = inr (Some (JObj fields)) →
  receiveGlobalMessagePrompt repository picks body
  = ([], Failed (JsTypeError "targets.map is not a function")).
Proof.
  intros Htext Htype Hkind Htargets. unfold receiveGlobalMessagePrompt.
  rewrite Htext, Htype, Htargets. simpl.
  by destruct Hkind as [-> | ->].
Qed.

Lemma message_object_targets_type_error_witness :
  receiveGlobalMessagePrompt (fun _ => inr (fun _ => None)) []
    (JObj [("text", JStr "hello"); ("type", JStr "capacity");
           ("targets", JObj [("0", JStr "room-a")])])
  = ([], Failed (JsTypeError "targets.map is not a function")).
Proof.
  apply (message_object_targets_type_error (fun _ => inr (fun _ => None)) []
           _ "hello" "capacity" [("0", JStr "room-a")]).
  - reflexivity.
  - reflexivity.
  - by left.
  - reflexivity.
Defined.

(** X17: [/room/refresh] replies "ok" exactly when [roomId] is a string,
    the client of that room is obtained and the room server answers
    without error; a failure of the one room is thrown to the caller, and
    no request is sent for a body without a string [roomId]. *)
Theorem refresh_replies_ok_iff (repository : Repository) (body : Json) :
  let result := receiveRoomEditionPrompt repository body in
  (result.2 = Replied "ok"
   ↔ ∃ roomId, get "roomId" body = inr (Some (JStr roomId))
       ∧ served repository (JStr roomId) (sendRefreshRoomPrompt roomId))
  ∧ (∀ rpc, rpc ∈ result.1 →
       ∃ roomId, get "roomId" body = inr (Some (JStr roomId))
         ∧ rpc = sendRefreshRoomPrompt roomId).
Proof.
  simpl. unfold receiveRoomEditionPrompt.
  destruct (get "roomId" body) as [e|[[| | |roomId| |]|]] eqn:Eg; simpl;
    try (split; [split; [done|by intros (? & [=] & _)]
               |by intros ? ?%elem_of_nil]).
  pose proof (unicast_served repository (JStr roomId)
                (sendRefreshRoomPrompt roomId)) as Hs.
  unfold unicast in *.
  destruct (repository (JStr roomId)) as [e|roomClient]; simpl in *.
  - split; [|by intros ? ?%elem_of_nil].
    split; [done|]. intros (? & [= <-] & H). by apply Hs in H.
  - destruct (roomClient (sendRefreshRoomPrompt roomId)); simpl in *.
    + split.
      * split; [done|]. intros (? & [= <-] & H). by apply Hs in H.
      * intros rpc ->%list_elem_of_singleton. by exists roomId.
    + split.
      * split; [|done]. intros _. exists roomId. split; [done|]. by apply Hs.
      * intros rpc ->%list_elem_of_singleton. by exists roomId.
Qed.

(** X18: [/chat/message] replies "ok" exactly when [roomId], [type] and
    [mucRoomUrl] are strings and either the type is "join", [mucRoomName]
    and [mucRoomType] are strings and the room is served the join prompt
    (with [subscribe] false), or the type is "leave" and the room is served
    the leave prompt: a leave needs neither name nor type. *)
Theorem chat_message_replies_ok_iff (message_of : ServiceError → string)
  (repository : Repository) (body : Json) :
  (sendChatMessagePrompt message_of repository body).2 = Replied "ok"
  ↔ ∃ roomId type url,
      get "roomId" body = inr (Some (JStr roomId))
      ∧ get "type" body = inr (Some (JStr type))
      ∧ get "mucRoomUrl" body = inr (Some (JStr url))
      ∧ ((type = "join"
          ∧ ∃ name mtype,
              get "mucRoomName" body = inr (Some (JStr name))
              ∧ get "mucRoomType" body = inr (Some (JStr mtype))
              ∧ served repository (JStr roomId)
                  (join_prompt roomId url name mtype))
         ∨ (type = "leave"
            ∧ served repository (JStr roomId) (leave_prompt roomId url))).
Proof.
  unfold sendChatMessagePrompt, sendChatMessagePrompt_try.
  split.
  - destruct (get "roomId" body) as [?|[[| | |roomId| |]|]] eqn:E1;
      destruct (get "type" body) as [?|[[| | |type| |]|]] eqn:E2;
      destruct (get "mucRoomUrl" body) as [?|[[| | |url| |]|]] eqn:E3;
      destruct (get "mucRoomName" body) as [?|oname] eqn:E4;
      destruct (get "mucRoomType" body) as [?|otype] eqn:E5;
      simpl; try done.
    destruct (String.eqb_spec type "join") as [->|Hj].
    + destruct oname as [[| | |name| |]|]; simpl; try done.
      destruct otype as [[| | |mtype| |]|]; simpl; try done.
      destruct (unicast repository (JStr roomId) _) as [sent [e|[]]] eqn:Eu;
        simpl; [done|]. intros _.
      exists roomId, "join", url. repeat split; try done. left.
      split; [done|]. exists name, mtype. repeat split; try done.
      apply unicast_served. unfold join_prompt. by rewrite Eu.
    + destruct (String.eqb_spec type "leave") as [->|Hl]; [|done].
      destruct (unicast repository (JStr roomId) _) as [sent [e|[]]] eqn:Eu;
        simpl; [done|]. intros _.
      exists roomId, "leave", url. repeat split; try done. right.
      split; [done|].
      apply unicast_served. unfold leave_prompt. by rewrite Eu.
  - intros (roomId & type & url & H1 & H2 & H3 & H).
    rewrite H1, H2, H3.
    destruct H as [(-> & name & mtype & -> & -> & Hs)
                  |(-> & Hs)].
    + simpl. apply unicast_served in Hs. unfold join_prompt in Hs.
      destruct (unicast repository (JStr roomId) _) as [sent [e|[]]];
        simpl in *; done.
    + apply unicast_served in Hs. unfold leave_prompt in Hs.
      destruct (get "mucRoomName" body) as [e|oname] eqn:E4;
        destruct (get "mucRoomType" body) as [e'|otype] eqn:E5; simpl.
      * destruct body; simpl in *; congruence.
      * destruct body; simpl in *; congruence.
      * destruct body; simpl in *; congruence.
      * destruct (unicast repository (JStr roomId) _) as [sent [e|[]]];
          simpl in *; done.
Qed.

(** X19: [/chat/message], whatever the body.  A body that fails a check is
    refused before any request is sent, a body that passes gives one prompt
    for its room; and whatever fails, the first check that the body does not
    pass, the client repository or the room server, the caller gets an
    [Error] whose message is the text of that very failure behind
    "sendChatMessagePrompt => error".  One request goes out when the client
    of the room is obtained, none otherwise. *)
Theorem chat_message_sends_and_wraps (message_of : ServiceError → string)
  (repository : Repository) (body : Json) :
  let wrapped cause :=
    Failed (JsError ("sendChatMessagePrompt => error"
                     +:+ to_string message_of cause)) in
  let result := sendChatMessagePrompt message_of repository body in
  (∀ cause, body_refused body cause → result = ([], wrapped cause))
  ∧ (∀ roomId rpc,
       prompt_for body roomId rpc →
       result
       = match repository (JStr roomId) with
         | inl cause => ([], wrapped cause)
         | inr roomClient =>
             ([rpc],
              match roomClient rpc with
              | Some err => wrapped (Grpc err)
              | None => Replied "ok"
              end)
         end)
  ∧ ((∃ cause, body_refused body cause)
     ∨ ∃ roomId rpc, prompt_for body roomId rpc).
Proof.
  simpl. unfold sendChatMessagePrompt, sendChatMessagePrompt_try.
  split; [|split].
  - intros cause H.
    destruct H as [->|(v & Hv & Hs)|roomId H1 (v & Hv & Hs)
                  |roomId type H1 H2 (v & Hv & Hs)
                  |roomId url H1 H2 H3 (v & Hv & Hs)
                  |roomId url name H1 H2 H3 H4 (v & Hv & Hs)
                  |roomId type url H1 H2 H3 Hj Hl];
      unfold string_field in *; try reflexivity.
    all: destruct body as [| | | | |fields]; simpl in *; try discriminate;
      try reflexivity.
    all: repeat match goal with
                | H : inr _ = inr _ |- _ => injection H as H
                end; subst;
      repeat match goal with
             | H : assoc _ _ = _ |- _ => rewrite H
             end; simpl; rewrite ?Hs; simpl; try reflexivity.
    by rewrite (proj2 (String.eqb_neq _ _) Hj),
         (proj2 (String.eqb_neq _ _) Hl).
  - intros roomId rpc (url & H1 & H3 & H).
    unfold string_field in *.
    destruct body as [| | | | |fields]; simpl in *; try discriminate.
    injection H1 as H1. injection H3 as H3. rewrite H1, H3. simpl.
    destruct H as [(H2 & name & mtype & H4 & H5 & ->)|(H2 & ->)];
      injection H2 as H2; rewrite H2; simpl.
    + injection H4 as H4. injection H5 as H5. rewrite H4, H5. simpl.
      unfold unicast, join_prompt.
      destruct (repository (JStr roomId)) as [cause|roomClient]; [done|].
      by destruct (roomClient _).
    + unfold unicast, leave_prompt.
      destruct (repository (JStr roomId)) as [cause|roomClient]; [done|].
      by destruct (roomClient _).
  - assert (∀ key fields,
              (∃ s, string_field key (JObj fields) s)
              ∨ no_string_field key (JObj fields)) as Hfield.
    { intros key fields. unfold string_field, no_string_field. simpl.
      destruct (assoc key fields) as [[| | |s| |]|] eqn:E;
        try (right; eexists; split; [reflexivity|]; by rewrite ?E).
      left. by exists s. }
    destruct body as [| | | | |fields];
      try (left; eexists; apply refused_roomId; by exists None).
    { left. eexists. by apply refused_null. }
    destruct (Hfield "roomId" fields) as [[roomId H1]|H1];
      [|left; eexists; by apply refused_roomId].
    destruct (Hfield "type" fields) as [[type H2]|H2];
      [|left; eexists; by eapply refused_type].
    destruct (Hfield "mucRoomUrl" fields) as [[url H3]|H3];
      [|left; eexists; by eapply refused_mucRoomUrl].
    destruct (decide (type = "join")) as [->|Hj].
    + destruct (Hfield "mucRoomName" fields) as [[name H4]|H4];
        [|left; eexists; by eapply refused_mucRoomName].
      destruct (Hfield "mucRoomType" fields) as [[mtype H5]|H5];
        [|left; eexists; by eapply refused_mucRoomType].
      right. exists roomId, (join_prompt roomId url name mtype), url.
      split; [done|]. split; [done|]. left. split; [done|].
      by exists name, mtype.
    + destruct (decide (type = "leave")) as [->|Hl].
      * right. exists roomId, (leave_prompt roomId url), url.
        split; [done|]. split; [done|]. by right.
      * left. eexists. by eapply refused_type_value.
Qed.

(** The body [null]: the first read of a field throws, and that is what the
    caller is told. *)
Example chat_message_null_body (message_of : ServiceError → string)
  (repository : Repository) :
  sendChatMessagePrompt message_of repository JNull
  = ([], Failed (JsError "sendChatMessagePrompt => errorTypeError: Cannot read properties of null (reading 'roomId')")).
Proof. reflexivity. Qed.

(** X20: the members handler never stops at an early answer: after a 403
    (more than 200 members) or a 204 (no member) it goes on to the final
    [res.status(202).json({ members })]; with exactly 200 members, or any
    count from 1 to 200, the 202 is the only answer. *)
Theorem members_always_reach_202 (Member : Type) (found : list Member)
  (total : Z) :
  ∃ earlier,
    getMembersOfTheActualWorld Member (inr (found, total))
    = inr (earlier ++ [(202%Z, members found)])
    ∧ (earlier = [(403%Z, message "Too many members search a member")]
       ↔ (200 < total)%Z)
    ∧ (earlier = [(204%Z, message "No members for this world")]
       ↔ total = 0%Z)
    ∧ (earlier = [] ↔ (1 ≤ total ≤ 200 ∨ total < 0)%Z).
Proof.
  unfold getMembersOfTheActualWorld, MAX_USER_TO_DISPLAY.
  destruct (Z.ltb_spec 200 total) as [Hgt|Hle];
    destruct (Z.eqb_spec total 0) as [H0|H0]; try lia.
  - eexists [_]. split; [done|].
    repeat split; intros; try done; try lia.
  - eexists [_]. split; [done|].
    repeat split; intros; try done; try lia.
  - exists []. split; [done|].
    repeat split; intros; try done; try lia.
Qed.

End EndpointClaims.

(* ===================================================================== *)
(** * MatrixChatRoom *)
(* ===================================================================== *)

Section TypingFacts.

Import MatrixChatRoom.

Variable myUserID : string.
Variable mxcUrlToHttp : string → option string.

Lemma is_typing_spec id (l : list TypingMember) :
  existsb (fun m => String.eqb (tm_id m) id) l = true ↔ id ∈ tm_id <$> l.
Proof.
  induction l as [|m l IH]; simpl.
  - split; [done|]. by intros ?%elem_of_nil.
  - rewrite orb_true_iff, IH, elem_of_cons, String.eqb_eq.
    split; (intros [H|H]; [left|right]); done.
Qed.

Lemma elem_of_ids_filter id id' (l : list TypingMember) :
  id' ∈ tm_id <$> filter (fun m => tm_id m ≠ id) l
  ↔ id' ≠ id ∧ id' ∈ tm_id <$> l.
Proof.
  rewrite !list_elem_of_fmap. split.
  - intros (m & -> & [? ?]%list_elem_of_filter). split; [done|]. by exists m.
  - intros (? & m & -> & ?). exists m. split; [done|].
    by apply list_elem_of_filter.
Qed.

Lemma NoDup_ids_filter id (l : list TypingMember) :
  NoDup (tm_id <$> l) → NoDup (tm_id <$> filter (fun m => tm_id m ≠ id) l).
Proof.
  induction l as [|m l IH]; simpl; [done|].
  intros [Hm Hl]%NoDup_cons. rewrite filter_cons.
  destruct (decide (tm_id m ≠ id)); [|by apply IH].
  simpl. apply NoDup_cons. split; [|by apply IH].
  rewrite elem_of_ids_filter. tauto.
Qed.

Lemma onMemberTyping_invariant user l :
  typing_invariant myUserID l →
  typing_invariant myUserID (onMemberTyping myUserID mxcUrlToHttp user l).
Proof.
  intros (Hnd & Hme & He). unfold onMemberTyping, typing_invariant.
  destruct user as [u|]; [|done].
  destruct (String.eqb_spec (userId u) ""); simpl; [done|].
  destruct (String.eqb_spec (userId u) myUserID); simpl; [done|].
  destruct (existsb _ l) eqn:Ex.
  - split; [by apply NoDup_ids_filter|].
    rewrite !elem_of_ids_filter. tauto.
  - assert (userId u ∉ tm_id <$> l) as Hu.
    { rewrite <- is_typing_spec. by rewrite Ex. }
    rewrite fmap_app. simpl. split.
    + apply NoDup_app. split; [done|]. split; [|apply NoDup_singleton].
      intros x Hx ->%list_elem_of_singleton. done.
    + rewrite !elem_of_app, !list_elem_of_singleton.
      split; intros [?|?]; done.
Qed.

End TypingFacts.

Section ChatRoomClaims.

Import MatrixChatRoom.

(** X21: whatever typing events arrive, the list of typing members never
    names a member twice, never names the user of the client, and never
    holds a member without id. *)
Theorem typing_members_stay_distinct (myUserID : string)
  (mxcUrlToHttp : string → option string) (users : list (option User)) :
  typing_invariant myUserID (typing_after myUserID mxcUrlToHttp users).
Proof.
  unfold typing_after.
  assert (typing_invariant myUserID []) as H0.
  { repeat split; [constructor|by intros ?%elem_of_nil..]. }
  revert H0. generalize (@nil TypingMember).
  induction users as [|u users IH]; intros l Hl; simpl; [done|].
  apply IH. by apply onMemberTyping_invariant.
Qed.

(** X22: a typing event of another member is a toggle: the member is
    listed afterwards exactly when it was not listed before, the other
    entries stay, and a second event gives back the list of a member that
    was not listed. *)
Theorem typing_event_toggles (myUserID : string)
  (mxcUrlToHttp : string → option string) (u : User)
  (l : list TypingMember) :
  userId u ≠ "" → userId u ≠ myUserID →
  let l' := onMemberTyping myUserID mxcUrlToHttp (Some u) l in
  (userId u ∈ tm_id <$> l' ↔ userId u ∉ tm_id <$> l)
  ∧ (∀ m, tm_id m ≠ userId u → m ∈ l' ↔ m ∈ l)
  ∧ (userId u ∉ tm_id <$> l →
     onMemberTyping myUserID mxcUrlToHttp (Some u) l' = l).
Proof.
  intros He Hme. simpl. unfold onMemberTyping.
  rewrite (proj2 (String.eqb_neq _ _) He), (proj2 (String.eqb_neq _ _) Hme).
  simpl. destruct (existsb _ l) eqn:Ex.
  - apply is_typing_spec in Ex. split; [|split].
    + rewrite elem_of_ids_filter. tauto.
    + intros m Hm. rewrite list_elem_of_filter. tauto.
    + done.
  - assert (userId u ∉ tm_id <$> l) as Hu.
    { rewrite <- is_typing_spec. by rewrite Ex. }
    split; [|split].
    + rewrite fmap_app, elem_of_app. simpl.
      rewrite list_elem_of_singleton. tauto.
    + intros m Hm. rewrite elem_of_app, list_elem_of_singleton.
      split; [|tauto]. intros [?| ->]; [done|]. by destruct Hm.
    + intros _.
      assert (existsb (fun m => String.eqb (tm_id m) (userId u))
                (l ++ [ {| tm_id := userId u;
                           tm_name := or_null (displayName u);
                           tm_avatarUrl :=
                             match or_null (avatarUrl u) with
                             | Some url => mxcUrlToHttp url
                             | None => None
                             end |} ]) = true) as ->.
      { apply is_typing_spec. rewrite fmap_app, elem_of_app. right.
        simpl. apply list_elem_of_here. }
      rewrite filter_app, filter_cons_False, filter_nil, app_nil_r
        by (simpl; tauto).
      clear Ex. induction l as [|m l IH]; [done|].
      rewrite fmap_cons, not_elem_of_cons in Hu. destruct Hu as [Hm Hu].
      rewrite filter_cons_True by done. f_equal. by apply IH.
Qed.

Lemma typing_event_toggles_witness :
  let bob := {| userId := "@bob:example.org"; displayName := Some "Bob";
                avatarUrl := None |} in
  let l' := onMemberTyping "@me:example.org" (fun _ => None) (Some bob) [] in
  ("@bob:example.org" ∈ tm_id <$> l'
   ↔ "@bob:example.org" ∉ tm_id <$> ([] : list TypingMember))
  ∧ (∀ m, tm_id m ≠ "@bob:example.org" → m ∈ l' ↔ m ∈ [])
  ∧ ("@bob:example.org" ∉ tm_id <$> ([] : list TypingMember) →
     onMemberTyping "@me:example.org" (fun _ => None) (Some bob) l' = []).
Proof.
  intros bob.
  apply (typing_event_toggles "@me:example.org" (fun _ => None) bob []).
  - simpl. discriminate.
  - simpl. discriminate.
Defined.

(** X23: a room is direct exactly when it has a (non-empty) DM inviter, or
    some member has a DM inviter, or it has at most two members and the
    [m.direct] account data lists it for one of them; so a room of three or
    more members is never made direct by the account data. *)
Theorem room_type_direct_iff (room : MatrixRoom) :
  getMatrixRoomType room = direct
  ↔ is_Some (or_null (room_dmInviter room))
    ∨ (∃ member, member ∈ room_members room
                 ∧ member_dmInviter member ≠ None)
    ∨ (length (room_members room) ≤ 2
       ∧ ∃ member content rooms,
           member ∈ room_members room
           ∧ directRoomsPerUsers room = Some content
           ∧ content !! member_userId member = Some rooms
           ∧ room_id room ∈ rooms).
Proof.
  unfold getMatrixRoomType.
  assert (∀ member, listed_as_direct room member = true
          ↔ ∃ content rooms,
              directRoomsPerUsers room = Some content
              ∧ content !! member_userId member = Some rooms
              ∧ room_id room ∈ rooms) as Hlisted.
  { intros member. unfold listed_as_direct.
    destruct (directRoomsPerUsers room) as [content|].
    2:{ split; [done|]. by intros (? & ? & [=] & _). }
    destruct (content !! member_userId member) as [rooms|] eqn:E.
    2:{ split; [done|]. intros (? & ? & [= <-] & ? & _). congruence. }
    rewrite existsb_exists. split.
    - intros (x & Hx%list_elem_of_In & ->%String.eqb_eq).
      by exists content, rooms.
    - intros (? & rooms' & [= <-] & Hr & Hin). rewrite E in Hr.
      injection Hr as <-. exists (room_id room).
      split; [by apply list_elem_of_In|apply String.eqb_refl]. }
  destruct (or_null (room_dmInviter room)) as [inviter|] eqn:Ei.
  { split; [|done]. intros _. left. by eexists. }
  destruct (existsb _ (room_members room)) eqn:Em.
  { split; [|done]. intros _. right. left.
    apply existsb_exists in Em as (member & Hin%list_elem_of_In & Hd).
    exists member. split; [done|]. by apply bool_decide_eq_true in Hd. }
  assert (¬ ∃ member, member ∈ room_members room
                      ∧ member_dmInviter member ≠ None) as Hno.
  { intros (member & Hin & Hd).
    assert (existsb (fun member =>
                       bool_decide (member_dmInviter member ≠ None))
              (room_members room) = true) as E; [|congruence].
    apply existsb_exists. exists member.
    split; [by apply list_elem_of_In|by apply bool_decide_eq_true]. }
  destruct (Nat.ltb_spec 2 (length (room_members room))) as [Hgt|Hle].
  { split; [done|]. intros [[? [=]]|[?|[? _]]]; [done|lia]. }
  destruct (existsb (listed_as_direct room) (room_members room)) eqn:El.
  - split; [|done]. intros _. right. right. split; [done|].
    apply existsb_exists in El as (member & Hin%list_elem_of_In & Hl).
    apply Hlisted in Hl as (content & rooms & ? & ? & ?).
    by exists member, content, rooms.
  - split; [done|].
    intros [[? [=]]|[?|[_ (member & content & rooms & Hin & H)]]]; [done|].
    assert (existsb (listed_as_direct room) (room_members room) = true) as E;
      [|congruence].
    apply existsb_exists. exists member.
    split; [by apply list_elem_of_In|]. apply Hlisted.
    by exists content, rooms.
Qed.

End ChatRoomClaims.

Section ReactionFacts.

Import MatrixChatRoom.

Context {Reaction : Type}.
Variable new_reaction : MatrixEvent → Reaction.
Variable addUser : option string → option string → Reaction → Reaction.
Variable removeUser : string → Reaction → Reaction.

Lemma reaction_at_insert (reactions : gmap string (gmap string Reaction))
  (inner : gmap string Reaction) contents messageId key r m k :
  reactions !! messageId = Some inner ∨
  (reactions !! messageId = None ∧ inner = ∅) →
  reaction_at Reaction
    {| messageReactions := <[messageId := <[key := r]> inner]> reactions;
       inMemoryEventsContent := contents |} m k
  = if decide ((m, k) = (messageId, key)) then Some r
    else reaction_at Reaction
           {| messageReactions := reactions;
              inMemoryEventsContent := contents |} m k.
Proof.
  intros H. unfold reaction_at. simpl.
  destruct (decide (m = messageId)) as [->|Hm].
  - rewrite lookup_insert_eq. simpl.
    destruct (decide (k = key)) as [->|Hk].
    + rewrite lookup_insert_eq. by rewrite decide_True.
    + rewrite lookup_insert_ne by done.
      rewrite decide_False by congruence.
      destruct H as [-> | [-> ->]]; simpl; [done|apply lookup_empty].
  - rewrite lookup_insert_ne by done. rewrite decide_False by congruence. done.
Qed.

Lemma handleNewMessageReaction_spec (event : MatrixEvent)
  (st : Store Reaction) (messageId reactionKey : string) :
  getReactionEvent event = Some (messageId, reactionKey) →
  let st' := handleNewMessageReaction Reaction new_reaction addUser event st in
  reaction_at Reaction st' messageId reactionKey
  = Some (match reaction_at Reaction st messageId reactionKey with
          | Some r => addUser (getSender event) (getId event) r
          | None => new_reaction event
          end)
  ∧ (∀ m k, (m, k) ≠ (messageId, reactionKey) →
       reaction_at Reaction st' m k = reaction_at Reaction st m k)
  ∧ inMemoryEventsContent st' !! default "" (getId event)
    = Some (getContent event).
Proof.
  intros Hr. simpl. unfold handleNewMessageReaction. rewrite Hr.
  destruct st as [reactions contents]. simpl.
  assert (∀ inner r,
            reactions !! messageId = Some inner ∨
            (reactions !! messageId = None ∧ inner = ∅) →
            let st' :=
              {| messageReactions :=
                   <[messageId := <[reactionKey := r]> inner]> reactions;
                 inMemoryEventsContent :=
                   <[default "" (getId event) := getContent event]> contents |}
            in
            reaction_at Reaction st' messageId reactionKey = Some r
            ∧ (∀ m k, (m, k) ≠ (messageId, reactionKey) →
                 reaction_at Reaction st' m k
                 = reaction_at Reaction
                     {| messageReactions := reactions;
                        inMemoryEventsContent := contents |} m k)
            ∧ inMemoryEventsContent st' !! default "" (getId event)
              = Some (getContent event)) as Hcase.
  { intros inner r H. simpl. split; [|split].
    - rewrite reaction_at_insert by done. by rewrite decide_True.
    - intros m k Hmk. rewrite reaction_at_insert by done.
      by rewrite decide_False.
    - apply lookup_insert_eq. }
  unfold reaction_at at 2. simpl.
  destruct (reactions !! messageId) as [inner|] eqn:Em; simpl.
  - destruct (inner !! reactionKey) as [r|] eqn:Ek; simpl;
      apply Hcase; by left.
  - rewrite <- insert_empty. apply Hcase. by right.
Qed.

Lemma handleReactionDeletion_after_new (event redactionEvent : MatrixEvent)
  (st : Store Reaction) (messageId reactionKey eventId sender : string) :
  getReactionEvent event = Some (messageId, reactionKey) →
  getId event = Some eventId →
  relates_to (getContent event) = getRelation event →
  getSender redactionEvent = Some sender →
  let st1 := handleNewMessageReaction Reaction new_reaction addUser event st in
  ∃ st2,
    handleReactionDeletion Reaction removeUser redactionEvent eventId st1
    = (st2, None)
    ∧ reaction_at Reaction st2 messageId reactionKey
      = removeUser sender <$> reaction_at Reaction st1 messageId reactionKey
    ∧ (∀ m k, (m, k) ≠ (messageId, reactionKey) →
         reaction_at Reaction st2 m k = reaction_at Reaction st1 m k)
    ∧ inMemoryEventsContent st2 = delete eventId (inMemoryEventsContent st).
Proof.
  intros Hr Hid Hc Hs. simpl.
  destruct (handleNewMessageReaction_spec event st messageId reactionKey Hr)
    as (Hat & _ & Hmem).
  rewrite Hid in Hmem. simpl in Hmem.
  assert (inMemoryEventsContent
            (handleNewMessageReaction Reaction new_reaction addUser event st)
          = <[eventId := getContent event]> (inMemoryEventsContent st))
    as Hcontents.
  { unfold handleNewMessageReaction. rewrite Hr.
    unfold addEventContentInMemory. rewrite Hid. simpl.
    destruct (messageReactions st !! messageId) as [inner|]; simpl; [|done].
    by destruct (inner !! reactionKey). }
  set (st1 := handleNewMessageReaction Reaction new_reaction addUser event st)
    in *.
  unfold handleReactionDeletion. rewrite Hs, Hmem, Hc.
  unfold getReactionEvent in Hr.
  destruct (getRelation event) as [relation|]; [|done].
  destruct (bool_decide _); [|done].
  destruct (rel_event_id relation) as [target|]; [|done].
  destruct (rel_key relation) as [key|]; [|done].
  injection Hr as -> ->.
  unfold reaction_at in Hat.
  destruct (messageReactions st1 !! messageId) as [inner|] eqn:Em;
    [|done]. simpl in Hat. rewrite Hat.
  eexists. split; [done|]. destruct st1 as [reactions contents].
  simpl in *. split; [|split].
  - rewrite reaction_at_insert by by left. rewrite decide_True by done.
    unfold reaction_at. simpl. rewrite Em. simpl. by rewrite Hat.
  - intros m k Hmk. rewrite reaction_at_insert by by left.
    by rewrite decide_False.
  - rewrite Hcontents. apply delete_insert_eq.
Qed.

End ReactionFacts.

Section ReactionClaims.

Import MatrixChatRoom.

(** X24: an annotation event for the message [messageId] and the key
    [reactionKey] leaves a reaction under that pair: the one that was there,
    told to add the sender, or else a new one made from the event; the
    reactions under every other pair are untouched, and the content of the
    event is kept in memory under its id. *)
Theorem reaction_is_recorded (Reaction : Type)
  (new_reaction : MatrixEvent → Reaction)
  (addUser : option string → option string → Reaction → Reaction)
  (event : MatrixEvent) (st : Store Reaction)
  (messageId reactionKey : string) :
  getReactionEvent event = Some (messageId, reactionKey) →
  let st' := handleNewMessageReaction Reaction new_reaction addUser event st in
  reaction_at Reaction st' messageId reactionKey
  = Some (match reaction_at Reaction st messageId reactionKey with
          | Some r => addUser (getSender event) (getId event) r
          | None => new_reaction event
          end)
  ∧ (∀ m k, (m, k) ≠ (messageId, reactionKey) →
       reaction_at Reaction st' m k = reaction_at Reaction st m k)
  ∧ inMemoryEventsContent st' !! default "" (getId event)
    = Some (getContent event).
Proof. apply handleNewMessageReaction_spec. Qed.

Lemma reaction_is_recorded_witness :
  let event :=
    {| getId := Some "$reaction1"; getSender := Some "@bob:example.org";
       getRelation :=
         Some {| rel_type := Some "m.annotation";
                 rel_event_id := Some "$message1"; rel_key := Some "+1" |};
       getContent := {| relates_to := None; other_content := "" |} |} in
  let st : Store nat :=
    {| messageReactions := ∅; inMemoryEventsContent := ∅ |} in
  let st' := handleNewMessageReaction nat (fun _ => 1) (fun _ _ n => S n)
               event st in
  reaction_at nat st' "$message1" "+1"
  = Some (match reaction_at nat st "$message1" "+1" with
          | Some r => S r
          | None => 1
          end)
  ∧ (∀ m k, (m, k) ≠ ("$message1", "+1") →
       reaction_at nat st' m k = reaction_at nat st m k)
  ∧ inMemoryEventsContent st' !! default "" (getId event)
    = Some (getContent event).
Proof.
  intros event st.
  apply (reaction_is_recorded nat (fun _ => 1) (fun _ _ n => S n) event st
           "$message1" "+1").
  reflexivity.
Defined.

(** X25: a reaction that was recorded can be taken back: when the content
    of the annotation event carries the relation of the event, the redaction
    of that event by a known sender logs nothing, tells the reaction under
    the pair to remove the sender, forgets the content of the event, and
    leaves the reactions under every other pair as they were recorded. *)
Theorem reaction_recorded_then_redacted (Reaction : Type)
  (new_reaction : MatrixEvent → Reaction)
  (addUser : option string → option string → Reaction → Reaction)
  (removeUser : string → Reaction → Reaction)
  (event redactionEvent : MatrixEvent) (st : Store Reaction)
  (messageId reactionKey eventId sender : string) :
  getReactionEvent event = Some (messageId, reactionKey) →
  getId event = Some eventId →
  relates_to (getContent event) = getRelation event →
  getSender redactionEvent = Some sender →
  let st1 := handleNewMessageReaction Reaction new_reaction addUser event st in
  ∃ st2,
    handleReactionDeletion Reaction removeUser redactionEvent eventId st1
    = (st2, None)
    ∧ reaction_at Reaction st2 messageId reactionKey
      = removeUser sender <$> reaction_at Reaction st1 messageId reactionKey
    ∧ (∀ m k, (m, k) ≠ (messageId, reactionKey) →
         reaction_at Reaction st2 m k = reaction_at Reaction st1 m k)
    ∧ inMemoryEventsContent st2 = delete eventId (inMemoryEventsContent st).
Proof. apply handleReactionDeletion_after_new. Qed.

Lemma reaction_recorded_then_redacted_witness :
  let relation :=
    {| rel_type := Some "m.annotation"; rel_event_id := Some "$message1";
       rel_key := Some "+1" |} in
  let event :=
    {| getId := Some "$reaction1"; getSender := Some "@bob:example.org";
       getRelation := Some relation;
       getContent := {| relates_to := Some relation; other_content := "" |} |}
  in
  let redactionEvent :=
    {| getId := Some "$redaction1"; getSender := Some "@bob:example.org";
       getRelation := None;
       getContent := {| relates_to := None; other_content := "" |} |} in
  let st : Store nat :=
    {| messageReactions := ∅; inMemoryEventsContent := ∅ |} in
  let st1 := handleNewMessageReaction nat (fun _ => 1) (fun _ _ n => S n)
               event st in
  ∃ st2,
    handleReactionDeletion nat (fun _ n => pred n) redactionEvent "$reaction1"
      st1 = (st2, None)
    ∧ reaction_at nat st2 "$message1" "+1"
      = pred <$> reaction_at nat st1 "$message1" "+1"
    ∧ (∀ m k, (m, k) ≠ ("$message1", "+1") →
         reaction_at nat st2 m k = reaction_at nat st1 m k)
    ∧ inMemoryEventsContent st2
      = delete "$reaction1" (inMemoryEventsContent st).
Proof.
  intros relation event redactionEvent st.
  apply (reaction_recorded_then_redacted nat (fun _ => 1) (fun _ _ n => S n)
           (fun _ n => pred n) event redactionEvent st "$message1" "+1"
           "$reaction1" "@bob:example.org").
  - reflexivity.
  - reflexivity.
  - reflexivity.
  - reflexivity.
Defined.

End ReactionClaims.

(* ===================================================================== *)
(** * MessageInputBar *)
(* ===================================================================== *)

Section InputBarFacts.

Import MessageInputBar.

Lemma replace_br_hit rest :
  replace_br ("<br>" +:+ rest) = String "010" (replace_br rest).
Proof. reflexivity. Qed.

Lemma replace_br_miss c1 s1 :
  Path.strip_prefix "<br>" (String c1 s1) = None →
  replace_br (String c1 s1) = String c1 (replace_br s1).
Proof.
  intros H. destruct s1 as [|c2 [|c3 [|c4 rest]]]; try reflexivity.
  cbn [replace_br]. cbn [Path.strip_prefix] in H.
  destruct (Ascii.eqb "<" c1) eqn:E1.
  2:{ rewrite Ascii.eqb_sym, E1. reflexivity. }
  destruct (Ascii.eqb "b" c2) eqn:E2.
  2:{ rewrite (Ascii.eqb_sym c2), E2, andb_false_r. reflexivity. }
  destruct (Ascii.eqb "r" c3) eqn:E3.
  2:{ rewrite (Ascii.eqb_sym c3), E3, andb_false_r. reflexivity. }
  destruct (Ascii.eqb ">" c4) eqn:E4; [done|].
  rewrite (Ascii.eqb_sym c4), E4, andb_false_r. reflexivity.
Qed.

(** How the result of the replacement begins. *)
Lemma replace_br_head s a t :
  replace_br s = String a t →
  (∃ rest, s = "<br>" +:+ rest ∧ a = "010"%char ∧ t = replace_br rest)
  ∨ (∃ s', s = String a s' ∧ t = replace_br s'
           ∧ Path.strip_prefix "<br>" s = None).
Proof.
  destruct s as [|c1 s1]; [done|].
  destruct (Path.strip_prefix "<br>" (String c1 s1)) as [rest|] eqn:E.
  - apply strip_prefix_Some in E. rewrite E, replace_br_hit.
    intros [= <- <-]. left. by exists rest.
  - rewrite replace_br_miss by done. intros [= <- <-]. right. by exists s1.
Qed.

Lemma has_br_cons c t :
  has_br (String c t) ↔ (∃ rest, String c t = "<br>" +:+ rest) ∨ has_br t.
Proof.
  unfold has_br. split.
  - intros ([|c' before] & after & H).
    + left. by exists after.
    + right. injection H as -> ->. by exists before, after.
  - intros [[rest ->]|(before & after & ->)].
    + by exists "", rest.
    + by exists (String c before), after.
Qed.

Lemma has_br_nil : ¬ has_br "".
Proof. by intros ([|? ?] & ? & ?). Qed.

(** Nothing that starts with [<br>] comes out of the replacement. *)
Lemma replace_br_no_tag_in_front s rest :
  replace_br s ≠ "<br>" +:+ rest.
Proof.
  intros H.
  apply replace_br_head in H as [(? & _ & [=] & _)|(s1 & -> & H1 & Hm)].
  symmetry in H1.
  apply replace_br_head in H1 as [(? & _ & [=] & _)|(s2 & -> & H2 & _)].
  symmetry in H2.
  apply replace_br_head in H2 as [(? & _ & [=] & _)|(s3 & -> & H3 & _)].
  symmetry in H3.
  apply replace_br_head in H3 as [(? & _ & [=] & _)|(s4 & -> & _ & _)].
  done.
Qed.

Lemma replace_br_has_no_br n : ∀ s,
  String.length s ≤ n → ¬ has_br (replace_br s).
Proof.
  induction n as [|n IH]; intros s Hlen.
  - destruct s; [apply has_br_nil|simpl in Hlen; lia].
  - destruct s as [|c1 s1]; [apply has_br_nil|].
    destruct (Path.strip_prefix "<br>" (String c1 s1)) as [rest|] eqn:E.
    + apply strip_prefix_Some in E. rewrite E, replace_br_hit.
      rewrite has_br_cons. intros [[? [=]]|H].
      apply (IH rest); [|done].
      apply (f_equal String.length) in E.
      change ("<br>" +:+ rest)
        with (String "<" (String "b" (String "r" (String ">" rest)))) in E.
      simpl in E, Hlen. lia.
    + rewrite replace_br_miss by done. rewrite has_br_cons.
      intros [[rest H]|H].
      * rewrite <- replace_br_miss in H by done.
        by apply replace_br_no_tag_in_front in H.
      * apply (IH s1); [simpl in Hlen; lia|done].
Qed.

Lemma replace_br_id s : ¬ has_br s → replace_br s = s.
Proof.
  induction s as [|c1 s1 IH]; [done|]. intros H.
  rewrite has_br_cons in H.
  destruct (Path.strip_prefix "<br>" (String c1 s1)) as [rest|] eqn:E.
  - apply strip_prefix_Some in E. destruct H. left. by exists rest.
  - rewrite replace_br_miss by done. f_equal. apply IH. tauto.
Qed.

Lemma strip_prefix_br_cons c a b :
  ¬ has_br (String c a) →
  Path.strip_prefix "<br>" (String c (a +:+ "<br>" +:+ b)) = None.
Proof.
  intros Hno.
  destruct (Path.strip_prefix "<br>" (String c (a +:+ "<br>" +:+ b)))
    as [rest|] eqn:E; [|done].
  destruct Hno. apply has_br_cons. left.
  apply strip_prefix_Some in E.
  change ("<br>" +:+ rest)
    with (String "<" (String "b" (String "r" (String ">" rest)))) in E.
  destruct a as [|c2 [|c3 [|c4 a]]]; simpl in E; try discriminate E.
  injection E as -> -> -> -> _. by exists a.
Qed.

(** The leftmost tag becomes a line feed, the text in front of it stays,
    and the scan goes on behind it. *)
Lemma replace_br_leftmost a b :
  ¬ has_br a →
  replace_br (a +:+ "<br>" +:+ b) = a +:+ String "010" (replace_br b).
Proof.
  induction a as [|c a IH]; intros Hno; [apply replace_br_hit|].
  change (String c a +:+ "<br>" +:+ b) with (String c (a +:+ "<br>" +:+ b)).
  rewrite replace_br_miss by by apply strip_prefix_br_cons.
  rewrite IH; [done|]. intros H. apply Hno, has_br_cons. by right.
Qed.

Lemma replace_br_concat parts :
  Forall (fun part => ¬ has_br part) parts →
  replace_br (String.concat "<br>" parts)
  = String.concat (String "010" "") parts.
Proof.
  induction parts as [|a [|b parts] IH]; intros Hparts; [done|..].
  - apply replace_br_id. by inversion Hparts.
  - apply Forall_cons in Hparts as [Ha Hparts].
    change (String.concat "<br>" (a :: b :: parts))
      with (a +:+ "<br>" +:+ String.concat "<br>" (b :: parts)).
    rewrite replace_br_leftmost, IH by done. reflexivity.
Qed.

Lemma no_br_cons c a :
  Path.strip_prefix "<br>" (String c a) = None → ¬ has_br a →
  ¬ has_br (String c a).
Proof.
  intros E Ha [[rest H]|H]%has_br_cons; [|done].
  rewrite H in E. by rewrite strip_prefix_app in E.
Qed.

(** Every text is made of parts without tag, with a tag between each two. *)
Lemma split_at_br s :
  ∃ parts, Forall (fun part => ¬ has_br part) parts
           ∧ s = String.concat "<br>" parts.
Proof.
  induction s as [|c s (parts & Hparts & ->)].
  - exists []. by split.
  - destruct parts as [|a parts].
    + exists [String c ""]. split; [|reflexivity]. apply Forall_singleton.
      apply no_br_cons; [|apply has_br_nil].
      cbn [Path.strip_prefix]. by destruct (Ascii.eqb "<" c).
    + apply Forall_cons in Hparts as [Ha Hparts].
      assert (String c (String.concat "<br>" (a :: parts))
              = String.concat "<br>" (String c a :: parts)) as ->.
      { by destruct parts. }
      destruct (Path.strip_prefix "<br>" (String c a)) as [rest|] eqn:E.
      * apply strip_prefix_Some in E. exists ("" :: rest :: parts).
        split.
        -- constructor; [apply has_br_nil|]. constructor; [|done].
           intros (before & after & ->). apply Ha.
           change ("<br>" +:+ before +:+ "<br>" +:+ after)
             with (String "<" (String "b" (String "r" (String ">"
                     (before +:+ "<br>" +:+ after))))) in E.
           injection E as _ ->.
           by exists (String "b" (String "r" (String ">" before))), after.
        -- rewrite E. by destruct parts.
      * exists (String c a :: parts). split; [|done].
        constructor; [|done]. by apply no_br_cons.
Qed.

End InputBarFacts.

Section InputBarClaims.

Import MessageInputBar.

(** X26: a message is made of parts without [<br>], with a [<br>] between
    each two; for a message that is not blank, the Enter key sends these
    parts with a line feed between each two, so the text sent holds no
    [<br>]; the send button sends the message as it is; the two ways of
    sending give the same text exactly when the message holds no [<br>];
    Shift+Enter sends nothing. *)
Theorem enter_sends_without_tags (blank : string → bool) (message : string) :
  blank message = false →
  (∃ parts, Forall (fun part => ¬ has_br part) parts
            ∧ message = String.concat "<br>" parts)
  ∧ (∀ parts,
       Forall (fun part => ¬ has_br part) parts →
       message = String.concat "<br>" parts →
       sendMessageOrEscapeLine blank "Enter" false message
       = Some (String.concat (String "010" "") parts))
  ∧ (∀ text,
       sendMessageOrEscapeLine blank "Enter" false message = Some text →
       ¬ has_br text)
  ∧ send_button blank message = Some message
  ∧ (sendMessageOrEscapeLine blank "Enter" false message
     = send_button blank message ↔ ¬ has_br message)
  ∧ sendMessageOrEscapeLine blank "Enter" true message = None.
Proof.
  intros Hb. unfold sendMessageOrEscapeLine, send_button. rewrite Hb. simpl.
  split; [apply split_at_br|].
  split; [intros parts Hparts ->; by rewrite replace_br_concat|].
  split.
  { intros text [= <-].
    by apply (replace_br_has_no_br (String.length message)). }
  split; [done|]. split; [|done]. split.
  - intros [= H] Hbr. rewrite <- H in Hbr.
    by apply (replace_br_has_no_br (String.length message)) in Hbr.
  - intros H. by rewrite replace_br_id.
Qed.

Lemma enter_sends_without_tags_witness :
  let blank := fun s => String.eqb s "" in
  let message := "first line<br>second line" in
  (∃ parts, Forall (fun part => ¬ has_br part) parts
            ∧ message = String.concat "<br>" parts)
  ∧ (∀ parts,
       Forall (fun part => ¬ has_br part) parts →
       message = String.concat "<br>" parts →
       sendMessageOrEscapeLine blank "Enter" false message
       = Some (String.concat (String "010" "") parts))
  ∧ (∀ text,
       sendMessageOrEscapeLine blank "Enter" false message = Some text →
       ¬ has_br text)
  ∧ send_button blank message = Some message
  ∧ (sendMessageOrEscapeLine blank "Enter" false message
     = send_button blank message ↔ ¬ has_br message)
  ∧ sendMessageOrEscapeLine blank "Enter" true message = None.
Proof.
  intros blank message.
  apply (enter_sends_without_tags blank message).
  reflexivity.
Defined.

(** The message of two lines, as it leaves by the Enter key. *)
Example enter_sends_two_lines :
  sendMessageOrEscapeLine (fun s => String.eqb s "") "Enter" false
    "first line<br>second line"
  = Some (String.concat (String "010" "") ["first line"; "second line"]).
Proof. reflexivity. Qed.

End InputBarClaims.

(* ===================================================================== *)
(** * ScreenSharingStore *)
(* ===================================================================== *)

Section ScreenSharingFacts.

Import ScreenSharingStore.

Lemma current_spec i :
  current i
  = {| video := requestedScreenSharingState i
                && negb (inExternalServiceStore i)
                && negb (peerStore_size i =? 0)%nat;
       audio := false |}.
Proof.
  unfold current.
  by destruct (requestedScreenSharingState i), (inExternalServiceStore i),
       (peerStore_size i =? 0)%nat.
Qed.

Lemma on_inputs_settled st i :
  settled_state st →
  settled_state (on_inputs st i).1
  ∧ store (on_inputs st i).1 = current i
  ∧ (on_inputs st i).2
    = if Bool.eqb (video (store st)) (video (current i)) then None
      else Some {| video := negb (video (store st)); audio := false |}.
Proof.
  intros [Hp Ha]. unfold on_inputs. rewrite Hp, Ha, current_spec. simpl.
  destruct (store st) as [v a] eqn:Es. simpl in *. subst a.
  destruct (Bool.eqb v _) eqn:E; simpl.
  - apply Bool.eqb_prop in E. rewrite <- E.
    repeat split; simpl; by rewrite ?Es, ?Hp.
  - repeat split. apply Bool.eqb_false_iff in E.
    do 2 f_equal. by destruct v, (requestedScreenSharingState i && _ && _).
Qed.

Lemma run_app st inputs1 inputs2 :
  run st (inputs1 ++ inputs2)
  = let '(st1, out1) := run st inputs1 in
    let '(st2, out2) := run st1 inputs2 in
    (st2, out1 ++ out2).
Proof.
  revert st. induction inputs1 as [|i inputs1 IH]; intros st; simpl.
  - by destruct (run st inputs2).
  - destruct (on_inputs st i) as [st' emitted]. rewrite IH.
    destruct (run st' inputs1) as [st1 out1].
    destruct (run st1 inputs2) as [st2 out2].
    by destruct emitted.
Qed.

Lemma run_settled inputs : ∀ st,
  settled_state st → settled_state (run st inputs).1.
Proof.
  induction inputs as [|i inputs IH]; intros st Hst; simpl; [done|].
  destruct (on_inputs_settled st i Hst) as (Hst' & _ & _).
  destruct (on_inputs st i) as [st' emitted]. simpl in *.
  specialize (IH st' Hst'). by destruct (run st' inputs).
Qed.

Lemma run_alternates inputs : ∀ st k c,
  settled_state st →
  (run st inputs).2 !! k = Some c →
  c = {| video := if Nat.even k then negb (video (store st))
                  else video (store st);
         audio := false |}.
Proof.
  induction inputs as [|i inputs IH]; intros st k c Hst; simpl; [done|].
  destruct (on_inputs_settled st i Hst) as (Hst' & Hstore & Hem).
  destruct (on_inputs st i) as [st' emitted]. simpl in *.
  specialize (IH st'). destruct (run st' inputs) as [st'' later]. simpl in *.
  destruct (Bool.eqb (video (store st)) (video (current i))) eqn:E;
    subst emitted.
  - apply Bool.eqb_prop in E. intros Hk.
    rewrite (IH k c Hst' Hk), Hstore, E. done.
  - apply Bool.eqb_false_iff in E. destruct k as [|k].
    + simpl. by intros [= <-].
    + intros Hk. change (later !! k = Some c) in Hk.
      rewrite (IH k c Hst' Hk), Hstore.
      rewrite Nat.even_succ, <- Nat.negb_even.
      assert (video (current i) = negb (video (store st))) as ->.
      { by destruct (video (current i)), (video (store st)). }
      by destruct (Nat.even k), (video (store st)).
Qed.

End ScreenSharingFacts.

Section ScreenSharingClaims.

Import ScreenSharingStore.

(** X27: from a state where the two module variables agree with the store
    and no audio is asked for (the state at load is one), after any series
    of runs of its callback the constraints store holds what the latest
    inputs call for, although it is only set when that changes: video
    exactly when sharing is requested, the user is in no external service
    and there is at least one peer; audio never. *)
Theorem constraints_store_follows_inputs (st : State) (inputs : list Inputs)
  (i : Inputs) :
  settled_state st →
  store (run st (inputs ++ [i])).1
  = {| video := requestedScreenSharingState i
                && negb (inExternalServiceStore i)
                && negb (peerStore_size i =? 0)%nat;
       audio := false |}.
Proof.
  intros Hst0. rewrite run_app.
  pose proof (run_settled inputs st Hst0) as Hst.
  destruct (run st inputs) as [st1 out1]. simpl in *.
  destruct (on_inputs_settled st1 i Hst) as (_ & Hs & _).
  destruct (on_inputs st1 i) as [st2 emitted]. simpl in *.
  by rewrite Hs, current_spec.
Qed.

Lemma constraints_store_follows_inputs_witness :
  let on := {| requestedScreenSharingState := true;
               inExternalServiceStore := false; peerStore_size := 2 |} in
  let alone := {| requestedScreenSharingState := true;
                  inExternalServiceStore := false; peerStore_size := 0 |} in
  store (run initial ([on; alone] ++ [on])).1
  = {| video := true; audio := false |}.
Proof.
  intros on alone.
  apply (constraints_store_follows_inputs initial [on; alone] on).
  split; reflexivity.
Defined.

(** X28: from such a state, the values given to [set] alternate: the first
    one turns video over, the next one back, and so on, none of them with
    audio; so the store is never set twice to the same constraints in a
    row, and from the state at load the first value turns video on. *)
Theorem constraints_emissions_alternate (st : State) (inputs : list Inputs)
  (k : nat) (c : Constraints) :
  settled_state st →
  (run st inputs).2 !! k = Some c →
  c = {| video := if Nat.even k then negb (video (store st))
                  else video (store st);
         audio := false |}.
Proof. intros Hst Hk. by apply (run_alternates inputs). Qed.

Lemma constraints_emissions_alternate_witness :
  let on := {| requestedScreenSharingState := true;
               inExternalServiceStore := false; peerStore_size := 2 |} in
  let alone := {| requestedScreenSharingState := true;
                  inExternalServiceStore := false; peerStore_size := 0 |} in
  {| video := false; audio := false |}
  = {| video := if Nat.even 1 then negb (video (store initial))
                else video (store initial);
       audio := false |}.
Proof.
  intros on alone.
  apply (constraints_emissions_alternate initial [on; on; alone; alone; on] 1).
  - split; reflexivity.
  - reflexivity.
Defined.

(** X29: the button and the capture agree on the browser but not on the
    desktop application: when the button is shown and video is asked for,
    the capture never ends in "Your browser does not support sharing
    screen"; when it does end there, the button is hidden; and with the
    desktop capturer alone the capture works while the button stays
    hidden. *)
Theorem button_shown_means_capture_supported (browser : Browser)
  (peers : nat) (constraints : Constraints) :
  (available browser peers = true → capture browser constraints ≠ Unsupported)
  ∧ (capture browser constraints = Unsupported →
     available browser peers = false)
  ∧ (desktopCapturer browser = true →
     navigator_getDisplayMedia browser = false →
     mediaDevices_getDisplayMedia browser = false →
     video constraints = true →
     capture browser constraints = FromDesktopCapturer
     ∧ available browser peers = false).
Proof.
  unfold available, capture.
  destruct browser as [[] [] []], constraints as [[] []]; simpl;
    repeat split; try done; try (intros; congruence).
Qed.

Lemma button_shown_means_capture_supported_witness :
  let browser := {| desktopCapturer := false;
                    navigator_getDisplayMedia := false;
                    mediaDevices_getDisplayMedia := true |} in
  capture browser {| video := true; audio := false |} ≠ Unsupported.
Proof.
  intros browser.
  apply (proj1 (button_shown_means_capture_supported browser 3
                  {| video := true; audio := false |})).
  reflexivity.
Defined.

End ScreenSharingClaims.

(* ===================================================================== *)
(** * Sending files *)
(* ===================================================================== *)

Section SendFilesClaims.

Import AdminEndpoints SendFiles.

Lemma concat_fmap_omap {A B} (f : A → list B) (g : A → option B) (l : list A) :
  (∀ x, f x = option_list (g x)) → concat (f <$> l) = omap g l.
Proof.
  intros H. induction l as [|x l IH]; [done|].
  rewrite fmap_cons. cbn [concat omap list_omap]. rewrite H, IH.
  by destruct (g x).
Qed.

(** X30: [sendFiles] logs the failed uploads and nothing else: each file
    whose upload succeeds gives one message, with the name, the size and the
    kind of the file, handed to the client, whatever happens to the other
    files; each file whose upload fails gives one logged error and no
    message; and a message that the client fails to send is not logged: the
    promise of that file is rejected and [Promise.allSettled] drops it. *)
Theorem sendFiles_logs_failed_uploads_only
  (uploadContent : File → Thrown + string)
  (sendMessage : MediaContent → Thrown + unit)
  (selected : File → option string) (files : list File) :
  let result := sendFiles uploadContent sendMessage selected files in
  result.1.1 ≡ₚ omap (upload_failure uploadContent) files
  ∧ result.1.2 ≡ₚ omap (uploaded uploadContent selected) files
  ∧ result.2
    = (fun file =>
         match uploadContent file with
         | inl _ => inr ()
         | inr content_uri =>
             sendMessage (content_of selected file content_uri)
         end) <$> files.
Proof.
  simpl. unfold sendFiles. simpl.
  change (map ?f files) with (f <$> files).
  rewrite <- !list_fmap_compose. unfold compose.
  split; [|split].
  - rewrite (concat_fmap_omap _ (upload_failure uploadContent)); [done|].
    intros f. unfold sendFile, upload_failure. by destruct (uploadContent f).
  - rewrite (concat_fmap_omap _ (uploaded uploadContent selected)); [done|].
    intros f. unfold sendFile, uploaded, content_of.
    by destruct (uploadContent f).
  - apply list_fmap_ext. intros k f _. unfold sendFile, content_of.
    by destruct (uploadContent f).
Qed.

(** A picture that uploads and is then refused by the server: nothing is
    logged. *)
Example sendFiles_refused_message :
  let photo := {| file_name := "plan.png"; file_type := "image/png";
                  file_size := 2048 |} in
  sendFiles (fun _ => inr "mxc://example.org/abc")
    (fun _ => inl (JsError "M_FORBIDDEN")) (fun _ => None) [photo]
  = ([],
     [ {| body := "plan.png"; formatted_body := "plan.png";
          info_size := 2048; msgtype := Image;
          url := "mxc://example.org/abc"; in_reply_to := None |} ],
     [inl (JsError "M_FORBIDDEN")]).
Proof. reflexivity. Qed.

End SendFilesClaims.

(* ===================================================================== *)
(** * The response of a create call, through a whole run *)
(* ===================================================================== *)

Section CreateFacts.

Import UpdateAreaMapStorageCommand Sync Effects.

Variable jsonpatch : FastJsonPatch.

(** The loop, seen through [effect], with the op of each step. *)
Lemma reduce_invariant_in (P : Reduce → Prop) patch :
  (∀ r o r', o ∈ patch → effect jsonpatch r o r' → P r → P r') →
  ∀ r, P r → P (reduced (reduce jsonpatch patch r)).
Proof.
  intros Hstep.
  assert (∀ later, (∀ o, o ∈ later → o ∈ patch) →
            ∀ r, P r → P (reduced (reduce jsonpatch later r))) as H.
  { induction later as [|o later IH]; intros Hin r Hr; [done|].
    rewrite reducer_reduce. pose proof (reducer_effect jsonpatch r o) as He.
    assert (o ∈ patch) as Ho by apply Hin, list_elem_of_here.
    assert (∀ o', o' ∈ later → o' ∈ patch) as Hin'.
    { intros o' ?. by apply Hin, list_elem_of_further. }
    destruct (reducer jsonpatch r o) as [r'|r'|e r']; simpl in He;
      try (apply IH; [done|]); by eapply Hstep. }
  by apply H.
Qed.

Lemma only_serverData_differs_ids (l l' : list AreaDataProperty) :
  Forall2 only_serverData_differs l l' → prop_id <$> l' = prop_id <$> l.
Proof.
  induction 1 as [|p p' l l' (Hid & _ & _) _ IH]; [done|].
  rewrite !fmap_cons. by rewrite Hid, IH.
Qed.

(** A write through [find] leaves a slot alone or clears it. *)
Lemma update_first_lookup f (l : list AreaDataProperty) : ∀ i p,
  l !! i = Some p →
  update_first f (set_serverData None) l !! i = Some p
  ∨ update_first f (set_serverData None) l !! i
    = Some (set_serverData None p).
Proof.
  induction l as [|x l IH]; intros [|i] p Hi; simpl in *; try done.
  - injection Hi as ->. destruct (f p); simpl; [by right|by left].
  - destruct (f x); simpl; [by left|by apply IH].
Qed.

Lemma effect_cleared_for (id : string) (i : nat) props q r o r' :
  NoDup (prop_id <$> props) →
  props !! i = Some q → prop_id q = id →
  (op o = "replace" → Path.match_property_index (path o) ≠ Some i) →
  effect jsonpatch r o r' →
  cleared_for id i props r → cleared_for id i props r'.
Proof.
  intros Hnd Hq Hid Hrep He (props' & Hps & Hsame & Hclear).
  assert (∃ p, props' !! i = Some p ∧ prop_id p = id) as (p & Hp & Hpid).
  { destruct (Forall2_lookup_l _ _ _ _ _ Hsame Hq) as (p & ? & (E & _)).
    exists p. split; [done|]. congruence. }
  destruct He as [|v url _ _ _ Hu|v url _ _ _ Hu|i' props0 p0 Hop Hi Hps0 Hp0];
    simpl.
  - by exists props'.
  - rewrite Hps. simpl. eexists. split; [done|]. split.
    { eapply Forall2_trans; [|exact Hsame|apply update_first_only_serverData].
      intros p1 p2 p3 (?&?&?) (?&?&?). repeat split; congruence. }
    intros (url' & body & [Hin|Hin]%elem_of_app & Hbody).
    + destruct Hclear as (p1 & Hp1 & Hs1); [by exists url', body|].
      destruct (update_first_lookup (has_id (prop_id v)) props' i p1 Hp1)
        as [H|H]; eexists; (split; [exact H|done]).
    + apply list_elem_of_singleton in Hin. injection Hin as -> ->.
      assert (prop_id v = prop_id p) as Hv.
      { destruct (Js.truthy_opt _); simpl in Hbody; congruence. }
      rewrite Hv, (update_first_by_id _ props' i p);
        [|by rewrite (only_serverData_differs_ids props props' Hsame)|done].
      eexists. split.
      * apply list_lookup_insert_eq. by eapply lookup_lt_Some.
      * reflexivity.
  - exists props'. split; [done|]. split; [done|].
    intros (url' & body & [Hin|Hin]%elem_of_app & Hbody).
    + apply Hclear. by exists url', body.
    + by apply list_elem_of_singleton in Hin.
  - rewrite Hps in Hps0. injection Hps0 as <-.
    eexists. split; [done|]. split.
    { eapply Forall2_trans; [|exact Hsame|by apply insert_only_serverData].
      intros p1 p2 p3 (?&?&?) (?&?&?). repeat split; congruence. }
    assert (i' ≠ i) as Hne by (intros ->; by apply Hrep).
    intros (url' & body & Hin & Hbody).
    destruct Hclear as (p1 & Hp1 & Hs1).
    { exists url', body. split; [|done].
      apply elem_of_app in Hin as [Hin|Hin]; [done|].
      destruct (nonempty _); [|by apply elem_of_nil in Hin].
      by apply list_elem_of_singleton in Hin. }
    exists p1. split; [|done]. by rewrite list_lookup_insert_ne.
Qed.

(** A settled call that is not a create call for [id] leaves alone a slot
    that holds a property with that id. *)
Lemma on_settled_foreign (id : string) ev s ps i p :
  (∀ url body, ev.1 = Post url body → prop_id body ≠ id) →
  properties (newConfig (self s)) = Some ps →
  ps !! i = Some p → prop_id p = id →
  ∃ ps', properties (newConfig (self (on_settled ev s))) = Some ps'
         ∧ length ps' = length ps ∧ ps' !! i = Some p.
Proof.
  intros Hev Hps Hp Hid.
  destruct ev as [[url body|url v|url k] [[|raw|data]|e]]; simpl;
    try by exists ps.
  rewrite Hps. simpl. eexists. split; [done|].
  change (map ?f ps) with (f <$> ps).
  split; [apply length_fmap|].
  rewrite list_lookup_fmap, Hp. simpl.
  rewrite Hid, (proj2 (String.eqb_neq _ _)); [done|].
  intros E. by apply (Hev url body).
Qed.

Lemma run_callbacks_foreign (id : string) evs : ∀ s ps i p,
  (∀ ev url body, ev ∈ evs → ev.1 = Post url body → prop_id body ≠ id) →
  properties (newConfig (self s)) = Some ps →
  ps !! i = Some p → prop_id p = id →
  ∃ ps', properties (newConfig (self (run_callbacks evs s))) = Some ps'
         ∧ length ps' = length ps ∧ ps' !! i = Some p.
Proof.
  induction evs as [|ev evs IH]; intros s ps i p Hevs Hps Hp Hid; simpl.
  { by exists ps. }
  destruct (on_settled_foreign id ev s ps i p) as (ps1 & Hps1 & Hl1 & Hp1);
    try done.
  { intros url body. apply Hevs, list_elem_of_here. }
  destruct (IH (on_settled ev s) ps1 i p) as (ps2 & Hps2 & Hl2 & Hp2);
    try done.
  { intros ev' url body ?. apply Hevs. by apply list_elem_of_further. }
  exists ps2. split; [done|]. split; [congruence|done].
Qed.

(** The create call for the id of the slot resolves with a valid body. *)
Lemma on_settled_create url body data s ps i p :
  properties (newConfig (self s)) = Some ps →
  ps !! i = Some p → prop_id p = prop_id body →
  ∃ ps', properties
           (newConfig
              (self (on_settled (Post url body, Fulfilled (Valid data)) s)))
         = Some ps'
         ∧ length ps' = length ps
         ∧ ps' !! i = Some (if Js.truthy_opt (serverData data) then data
                            else p).
Proof.
  intros Hps Hp Hid. simpl. rewrite Hps. simpl. eexists. split; [done|].
  change (map ?f ps) with (f <$> ps).
  split; [apply length_fmap|].
  rewrite list_lookup_fmap, Hp. simpl.
  rewrite Hid, String.eqb_refl. simpl.
  by destruct (Js.truthy_opt (serverData data)).
Qed.

(** The calls that settle, but for the one scheduled as number [k]. *)
Lemma settle_order_but env calls k call l1 l2 :
  calls !! k = Some call →
  settle_order env calls = l1 ++ (call, outcome env k) :: l2 →
  ∀ ev, ev ∈ l1 ++ l2 → ∃ k', k' ≠ k ∧ calls !! k' = Some ev.1.
Proof.
  intros Hk Hsplit ev Hev.
  pose proof (settle_order_all env calls) as Hperm.
  rewrite Hsplit in Hperm.
  assert (tasks env calls !! k = Some (call, outcome env k)) as Htk.
  { unfold tasks. by rewrite list_lookup_imap, Hk. }
  rewrite (delete_Permutation _ _ _ Htk) in Hperm.
  rewrite <- Permutation_middle in Hperm.
  apply Permutation_cons_inv in Hperm.
  rewrite Hperm in Hev.
  apply list_elem_of_lookup_1 in Hev as [j Hj].
  destruct (decide (j < k)) as [Hlt|Hge].
  - rewrite list_lookup_delete_lt in Hj by done.
    exists j. split; [lia|].
    unfold tasks in Hj. rewrite list_lookup_imap in Hj.
    destruct (calls !! j); [|done]. by injection Hj as <-.
  - rewrite list_lookup_delete_ge in Hj by lia.
    exists (S j). split; [lia|].
    unfold tasks in Hj. rewrite list_lookup_imap in Hj.
    destruct (calls !! S j); [|done]. by injection Hj as <-.
Qed.

End CreateFacts.

Section CreateClaim.

Import UpdateAreaMapStorageCommand Sync Effects.

(** C3, as the command has it, for a run in which every scheduled call
    resolves: let the proposed properties have distinct ids, [q] be the one
    at index [i], and the create call scheduled as number [k] be the only
    one for the id of [q]; it comes from an add op of the diff, and when it
    resolves with a body [data] that passes the schema and keeps the id, the
    configuration handed to the local edit has, at index [i], [data] itself
    if [data] carries a truthy [serverData] (so every field then comes from
    the response), and otherwise a property with the id, the [ressourceUrl]
    and the other fields of [q], without [serverData] unless a replace op of
    the diff addresses index [i]. *)
Theorem create_response_replaces_property (jsonpatch : FastJsonPatch)
  (c : Command) (env : Env) (props : list AreaDataProperty)
  (q body data : AreaDataProperty) (url : string) (i k : nat) :
  let run := execute jsonpatch c env in
  let patch := compare jsonpatch (oldConfig c) (newConfig c) in
  rejected run = None →
  all_fulfilled env (scheduled run) →
  properties (newConfig c) = Some props →
  NoDup (prop_id <$> props) →
  props !! i = Some q →
  scheduled run !! k = Some (Post url body) →
  prop_id body = prop_id q →
  (∀ k' url' body',
     scheduled run !! k' = Some (Post url' body') →
     prop_id body' = prop_id q → k' = k) →
  outcome env k = Fulfilled (Valid data) →
  prop_id data = prop_id q →
  (∃ operation, operation ∈ patch ∧ create_call operation (Post url body))
  ∧ ∃ reconciled props' p',
      super_execute run = Some reconciled
      ∧ properties reconciled = Some props'
      ∧ length props' = length props
      ∧ props' !! i = Some p'
      ∧ if Js.truthy_opt (serverData data) then p' = data
        else prop_id p' = prop_id q
             ∧ ressourceUrl p' = ressourceUrl q
             ∧ rest p' = rest q
             ∧ ((∀ o, o ∈ patch → op o = "replace" →
                      Path.match_property_index (path o) ≠ Some i) →
                serverData p' = None).
Proof.
  simpl. intros Hrej Hall Hps Hnd Hq Hk Hbody Huniq Hout Hdata.
  split.
  { pose proof (execute_calls jsonpatch c env) as Hcalls.
    rewrite Forall_lookup in Hcalls.
    destruct (Hcalls k _ Hk) as (o & Ho & _ & Hc). by exists o. }
  destruct (execute_rejected_None jsonpatch c env Hrej) as [r Hr].
  revert Hall Hk Huniq.
  rewrite (execute_after_reduce jsonpatch c env r Hr). simpl.
  destruct (first_rejection (settle_order env (acc r)))
    as [[[before e] after]|] eqn:E; simpl.
  { intros Hall%all_fulfilled_first_rejection. congruence. }
  intros _ Hk Huniq.
  (* the reducer *)
  assert (reduced (reduce jsonpatch
                     (compare jsonpatch (oldConfig c) (newConfig c))
                     (start c)) = r) as Hred by by rewrite Hr.
  assert (same_but_serverData (Some props) (properties (newConfig (this r))))
    as Hsame.
  { rewrite <- Hred, <- Hps.
    apply (reduce_invariant jsonpatch
             (fun r' => same_but_serverData (properties (newConfig c))
                          (properties (newConfig (this r'))))).
    - intros r1 o r2 He H. eapply same_but_serverData_trans; [exact H|].
      by eapply effect_only_serverData.
    - apply same_but_serverData_refl. }
  destruct (properties (newConfig (this r))) as [props0|] eqn:Hps0;
    [|by inversion Hsame].
  assert (Forall2 only_serverData_differs props props0) as Hsame'
    by by inversion Hsame.
  destruct (Forall2_lookup_l _ _ _ _ _ Hsame' Hq) as (p0 & Hp0 & Hq0).
  destruct Hq0 as (Hid0 & Hurl0 & Hrest0).
  (* the callbacks *)
  assert ((Post url body, outcome env k) ∈ settle_order env (acc r)) as Hin.
  { apply elem_of_settle_order. by exists k. }
  apply list_elem_of_split in Hin as (l1 & l2 & Hsplit).
  pose proof (settle_order_but env (acc r) k _ l1 l2 Hk Hsplit) as Hothers.
  assert (∀ ev url' body', ev ∈ l1 ++ l2 → ev.1 = Post url' body' →
                           prop_id body' ≠ prop_id q) as Hforeign.
  { intros ev url' body' Hev Hpost Hid.
    destruct (Hothers ev Hev) as (k' & Hne & Hk'). rewrite Hpost in Hk'.
    by apply Hne, (Huniq k' url' body'). }
  rewrite Hsplit, run_callbacks_app. simpl. rewrite Hout.
  set (s0 := {| self := this r; shouldNotifyUpdate := false |}).
  destruct (run_callbacks_foreign (prop_id q) l1 s0 props0 i p0)
    as (ps1 & Hps1 & Hl1 & Hp1); try done.
  { intros ev url' body' Hev. apply Hforeign, elem_of_app. by left. }
  destruct (on_settled_create url body data (run_callbacks l1 s0) ps1 i p0)
    as (ps2 & Hps2 & Hl2 & Hp2); try done; [congruence|].
  set (p2 := if Js.truthy_opt (serverData data) then data else p0) in *.
  assert (prop_id p2 = prop_id q) as Hid2.
  { unfold p2. by destruct (Js.truthy_opt _). }
  destruct (run_callbacks_foreign (prop_id q) l2
              (on_settled (Post url body, Fulfilled (Valid data))
                 (run_callbacks l1 s0))
              ps2 i p2) as (ps3 & Hps3 & Hl3 & Hp3); try done.
  { intros ev url' body' Hev. apply Hforeign, elem_of_app. by right. }
  eexists _, ps3, p2. split; [done|]. split; [done|].
  split.
  { rewrite Hl3, Hl2, Hl1. symmetry. by eapply Forall2_length. }
  split; [done|]. unfold p2.
  destruct (Js.truthy_opt (serverData data)); [done|].
  split; [done|]. split; [done|]. split; [done|].
  intros Hrep.
  assert (cleared_for (prop_id q) i props r) as (props1 & Hp1' & _ & Hclear).
  { rewrite <- Hred.
    apply (reduce_invariant_in jsonpatch (cleared_for (prop_id q) i props)).
    - intros r1 o r2 Ho He. eapply effect_cleared_for; try done.
      by apply Hrep.
    - exists props. split; [done|]. split.
      + apply (same_but_serverData_refl (Some props)) || (
          clear; induction props; constructor;
          [apply only_serverData_differs_refl|done]).
      + intros (? & ? & H & _). by apply elem_of_nil in H. }
  rewrite Hps0 in Hp1'. injection Hp1' as <-.
  destruct Hclear as (p1 & Hp1'' & Hs1).
  { exists url, body. split; [by eapply list_elem_of_lookup_2|done]. }
  congruence.
Qed.

Lemma create_response_replaces_property_witness :
  let run := execute AreaDiffEngine.lib Scenario.add_chat_room
               Scenario.answers_rewritten in
  let patch := compare AreaDiffEngine.lib (oldConfig Scenario.add_chat_room)
                 (newConfig Scenario.add_chat_room) in
  (∃ operation,
     operation ∈ patch
     ∧ create_call operation
         (Post "https://resource.example/rooms" Scenario.chat_room))
  ∧ ∃ reconciled props' p',
      super_execute run = Some reconciled
      ∧ properties reconciled = Some props'
      ∧ length props' = 2
      ∧ props' !! 1 = Some p'
      ∧ p' = Scenario.rewritten.
Proof.
  apply (create_response_replaces_property AreaDiffEngine.lib
           Scenario.add_chat_room Scenario.answers_rewritten
           [Scenario.silent_zone; Scenario.chat_room]
           Scenario.chat_room Scenario.chat_room Scenario.rewritten
           "https://resource.example/rooms" 1 0).
  - reflexivity.
  - intros i call _. eexists. reflexivity.
  - reflexivity.
  - simpl. apply NoDup_cons. split.
    + intros [E|H]%elem_of_cons; [discriminate E|].
      by apply not_elem_of_nil in H.
    + apply NoDup_singleton.
  - reflexivity.
  - reflexivity.
  - reflexivity.
  - intros [|k'] url' body' H _; [done|]. vm_compute in H. discriminate H.
  - reflexivity.
  - reflexivity.
Defined.

(** The same edit when the resource answers with the property as it got
    it, without [serverData]: the property stays as proposed. *)
Example create_response_without_serverData :
  super_execute
    (execute AreaDiffEngine.lib Scenario.add_chat_room
       Scenario.echo_without_serverData)
  = Some (Scenario.area [Scenario.silent_zone; Scenario.chat_room]).
Proof. reflexivity. Qed.

End CreateClaim.
